(** * envidat_entrails: the listing crawler and the file-type aggregator

    A shallow embedding of [src/entrails.py] and the properties of its two
    core pieces: the paginated bucket crawler ([list_s3_bucket_to_csv],
    [cmd_fetch]) and the aggregation that feeds the four charts
    ([cmd_visualize]).

    Conventions of the embedding.
    - A Python [str] is a [string]; each [ascii] stands for one code point
      in the range U+0000..U+00FF.  [str.lower], [str.strip] and the
      [os.path] functions are written out for that range.
    - A Python value that is either [None] or a [str] is an [option string].
    - A pandas [int64] is a [Z] together with its wrap-around [wrap64].
    - The crawl loop is [while True]; it is run with a fuel counting loop
      iterations, and running out of fuel is a result of its own.
    - [Crawler] describes the crawl for a [sleep] whose pause returns or
      is not taken; [Paced] adds the [sleep] argument and the error that
      [time.sleep] raises for a value it cannot hold. *)

From Stdlib Require Import ZArith List String Ascii Bool Lia Permutation Sorted.
Import ListNotations.

Local Open Scope string_scope.
Local Open Scope list_scope.
Local Open Scope Z_scope.

(* ================================================================== *)
(** ** Python strings *)

Module PyStr.

(** [str.lower] on one code point below U+0100: A-Z and the Latin-1
    capitals U+00C0..U+00DE (the multiplication sign U+00D7 apart).
    Within that range [str.lower] works character by character; beyond
    it it does not (a capital sigma is lowered according to its place
    in the word), and such strings are outside the embedding. *)
Definition lower_char (c : ascii) : ascii :=
  let n := N_of_ascii c in
  if (((65 <=? n) && (n <=? 90)) ||
      ((192 <=? n) && (n <=? 222) && negb (n =? 215)))%N
  then ascii_of_N (n + 32) else c.

Fixpoint lower (s : string) : string :=
  match s with
  | EmptyString => EmptyString
  | String c s' => String (lower_char c) (lower s')
  end.

(** [sub in s] *)
Fixpoint contains (sub s : string) : bool :=
  String.prefix sub s ||
  match s with
  | EmptyString => false
  | String _ s' => contains sub s'
  end.

(** [c in s] for a single character *)
Fixpoint has_char (c : ascii) (s : string) : bool :=
  match s with
  | EmptyString => false
  | String a s' => Ascii.eqb a c || has_char c s'
  end.

(** Every character of [s] is [c]. *)
Fixpoint all_char (c : ascii) (s : string) : bool :=
  match s with
  | EmptyString => true
  | String a s' => Ascii.eqb a c && all_char c s'
  end.

(** [s.rfind(c)]: index of the last occurrence, [-1] when there is none *)
Fixpoint rfind (c : ascii) (s : string) : Z :=
  match s with
  | EmptyString => -1
  | String a s' =>
      let r := rfind c s' in
      if 0 <=? r then r + 1
      else if Ascii.eqb a c then 0 else -1
  end.

Fixpoint take (n : nat) (s : string) : string :=
  match n, s with
  | S n', String c s' => String c (take n' s')
  | _, _ => EmptyString
  end.

Fixpoint drop (n : nat) (s : string) : string :=
  match n, s with
  | S n', String _ s' => drop n' s'
  | _, _ => s
  end.

(** Python's normalisation of a slice bound *)
Definition slice_bound (s : string) (i : Z) : nat :=
  let len := Z.of_nat (String.length s) in
  Z.to_nat (if i <? 0 then Z.max 0 (i + len) else Z.min i len).

(** [s[lo:hi]], [s[:hi]] and [s[lo:]] *)
Definition slice (s : string) (lo hi : Z) : string :=
  take (slice_bound s hi - slice_bound s lo) (drop (slice_bound s lo) s).
Definition slice_to (s : string) (hi : Z) : string :=
  take (slice_bound s hi) s.
Definition slice_from (s : string) (lo : Z) : string :=
  drop (slice_bound s lo) s.

(** [str.isspace] below U+0100 *)
Definition is_space (c : ascii) : bool :=
  let n := N_of_ascii c in
  (((9 <=? n) && (n <=? 13)) || ((28 <=? n) && (n <=? 32)) ||
   (n =? 133) || (n =? 160))%N.

Fixpoint lstrip (s : string) : string :=
  match s with
  | EmptyString => EmptyString
  | String c s' => if is_space c then lstrip s' else s
  end.

Fixpoint rstrip (s : string) : string :=
  match s with
  | EmptyString => EmptyString
  | String c s' =>
      match rstrip s' with
      | EmptyString => if is_space c then EmptyString else String c EmptyString
      | r => String c r
      end
  end.

(** [s.strip()] *)
Definition strip (s : string) : string := rstrip (lstrip s).

(** [s.rstrip(c)] for a one-character argument *)
Fixpoint rstrip_char (c : ascii) (s : string) : string :=
  match s with
  | EmptyString => EmptyString
  | String a s' =>
      match rstrip_char c s' with
      | EmptyString => if Ascii.eqb a c then EmptyString else String a EmptyString
      | r => String a r
      end
  end.

(** [s.split(c)] for a one-character separator *)
Fixpoint split (c : ascii) (s : string) : list string :=
  match s with
  | EmptyString => [EmptyString]
  | String a s' =>
      if Ascii.eqb a c then EmptyString :: split c s'
      else match split c s' with
           | h :: t => String a h :: t
           | [] => [String a EmptyString]
           end
  end.

(** Truth value of an optional string: [None] and [''] are false. *)
Definition truthy (v : option string) : bool :=
  match v with
  | Some s => negb (s =? "")%string
  | None => false
  end.

(** [x in (a, b, ...)] for strings *)
Definition in_tuple (x : string) (t : list string) : bool :=
  existsb (String.eqb x) t.

End PyStr.

(* ================================================================== *)
(** ** os.path (posixpath) *)

Module OsPath.
Import PyStr.

(** The loop of [genericpath._splitext] that skips leading dots: [n]
    bounds the iterations that are left. *)
Fixpoint splitext_scan (n : nat) (p : string) (filenameIndex dotIndex : Z)
  : string * string :=
  match n with
  | O => (p, slice_to p 0)
  | S n' =>
      if filenameIndex <? dotIndex then
        if negb (slice p filenameIndex (filenameIndex + 1) =? ".")%string
        then (slice_to p dotIndex, slice_from p dotIndex)
        else splitext_scan n' p (filenameIndex + 1) dotIndex
      else (p, slice_to p 0)
  end.

(** [os.path.splitext(p)] *)
Definition splitext (p : string) : string * string :=
  let sepIndex := rfind "/" p in
  let dotIndex := rfind "." p in
  if sepIndex <? dotIndex
  then splitext_scan (String.length p) p (sepIndex + 1) dotIndex
  else (p, slice_to p 0).

(** [os.path.basename(p)] *)
Definition basename (p : string) : string :=
  let i := rfind "/" p + 1 in
  slice_from p i.

End OsPath.

(* ================================================================== *)
(** ** The parsed listing document (xml.etree.ElementTree) *)

Module Xml.

(** An element: its tag, its [.text] ([None] for an element without
    text) and its direct children in document order. *)
#[warnings="-register-all"] Inductive Element : Type :=
| Elem (tag : string) (text : option string) (children : list Element).

Definition tag (e : Element) : string :=
  match e with Elem t _ _ => t end.
Definition text (e : Element) : option string :=
  match e with Elem _ x _ => x end.
Definition children (e : Element) : list Element :=
  match e with Elem _ _ c => c end.

(** [elem.find(tag)]: the first direct child with that tag *)
Definition find (e : Element) (t : string) : option Element :=
  List.find (fun c => (tag c =? t)%string) (children e).

(** [elem.findall(tag)]: all direct children with that tag *)
Definition findall (e : Element) (t : string) : list Element :=
  List.filter (fun c => (tag c =? t)%string) (children e).

(** Find subelement text or return empty string if not present. *)
Definition _safe_find_text (e : Element) (t : string) : option string :=
  match find e t with
  | Some child => text child
  | None => Some ""
  end.

End Xml.

(* ================================================================== *)
(** ** The crawler: [list_s3_bucket_to_csv] and [cmd_fetch] *)

Module Crawler.
Import PyStr OsPath Xml.

Definition CSV_HEADERS : list string :=
  [ "bucket_url"; "bucket_name"; "key"; "last_modified"; "etag"; "size";
    "storage_class"; "owner_id"; "owner_display_name"; "type" ].

(** The dict handed to [csv_writer.writerow]. *)
Record Row : Type := mkRow {
  bucket_url : string;
  bucket_name : string;
  key : option string;
  last_modified : option string;
  etag : option string;
  size : option string;
  storage_class : option string;
  owner_id : option string;
  owner_display_name : option string;
  type_ : option string
}.

(** What [session.get] followed by [raise_for_status] and
    [ET.fromstring] gives: a transport or status failure, a body that is
    not XML, or the root of the parsed document.  The namespace
    declaration is stripped from the body before it is parsed, so the
    tags of the document are the unqualified ones. *)
Inductive Response : Type :=
| TransportError
| Malformed
| Document (root : Element).

(** One GET: the bucket URL and the [marker] parameter, if one was sent. *)
Definition Request : Type := (string * option string)%type.

(** The remote side: its answer may depend on every request made so far. *)
Definition Session : Type := list Request -> Request -> Response.

Inductive LogRecord : Type :=
| InfoStartingBucket (url : string)
| ErrorGetFailed (url : string) (marker : option string)
| ErrorParseFailed (url : string) (marker : option string)
| InfoGotContents (n : Z) (page : Z)
| InfoNoMorePages (url : string)
| WarningTruncatedNoContents
| InfoReachedMaxPages (max_pages : Z) (url : string)
| InfoSkippedEnvidat1 (n : Z) (name : string)
| InfoSkippedDoiMeta (n : Z) (name : string)
| InfoFinishedBucket (url : string) (pages : Z)
| InfoAllBucketsProcessed.

Inductive Level : Type := INFO | WARNING | ERROR.

Definition level (r : LogRecord) : Level :=
  match r with
  | ErrorGetFailed _ _ | ErrorParseFailed _ _ => ERROR
  | WarningTruncatedNoContents => WARNING
  | _ => INFO
  end.

Inductive Exception : Type :=
| RequestException   (* raised by [session.get] / [raise_for_status] *)
| ParseError         (* raised by [ET.fromstring] *)
| AttributeError.    (* [None.lower()] *)

(** Everything the crawl reads and writes: the requests sent, the rows
    written to the CSV, the log, and the locals of
    [list_s3_bucket_to_csv]. *)
Record State : Type := mkState {
  requests : list Request;
  csv_header : option (list string);
  csv_rows : list Row;
  log : list LogRecord;
  marker : option string;
  page_count : Z;
  skipped_envidat1 : Z;
  skipped_doi_meta : Z
}.

Definition send (q : Request) (s : State) : State :=
  mkState (requests s ++ [q]) (csv_header s) (csv_rows s) (log s) (marker s)
          (page_count s) (skipped_envidat1 s) (skipped_doi_meta s).
Definition writeheader (s : State) : State :=
  mkState (requests s) (Some CSV_HEADERS) (csv_rows s) (log s) (marker s)
          (page_count s) (skipped_envidat1 s) (skipped_doi_meta s).
Definition writerow (r : Row) (s : State) : State :=
  mkState (requests s) (csv_header s) (csv_rows s ++ [r]) (log s) (marker s)
          (page_count s) (skipped_envidat1 s) (skipped_doi_meta s).
Definition logger (r : LogRecord) (s : State) : State :=
  mkState (requests s) (csv_header s) (csv_rows s) (log s ++ [r]) (marker s)
          (page_count s) (skipped_envidat1 s) (skipped_doi_meta s).
Definition set_marker (m : option string) (s : State) : State :=
  mkState (requests s) (csv_header s) (csv_rows s) (log s) m
          (page_count s) (skipped_envidat1 s) (skipped_doi_meta s).
Definition set_page_count (n : Z) (s : State) : State :=
  mkState (requests s) (csv_header s) (csv_rows s) (log s) (marker s)
          n (skipped_envidat1 s) (skipped_doi_meta s).
Definition set_skipped_envidat1 (n : Z) (s : State) : State :=
  mkState (requests s) (csv_header s) (csv_rows s) (log s) (marker s)
          (page_count s) n (skipped_doi_meta s).
Definition set_skipped_doi_meta (n : Z) (s : State) : State :=
  mkState (requests s) (csv_header s) (csv_rows s) (log s) (marker s)
          (page_count s) (skipped_envidat1 s) n.

(** [bucket_url.rstrip('/').split('/')[-1]] *)
Definition bucket_name_of (url : string) : string :=
  List.last (split "/" (rstrip_char "/" url)) "".

(** The candidate record built from one [Contents] element. *)
Definition candidate (url name : string) (content : Element) : Row :=
  let owner := find content "Owner" in
  {| bucket_url := url;
     bucket_name := name;
     key := _safe_find_text content "Key";
     last_modified := _safe_find_text content "LastModified";
     etag := _safe_find_text content "ETag";
     size := _safe_find_text content "Size";
     storage_class := _safe_find_text content "StorageClass";
     owner_id :=
       match owner with Some o => _safe_find_text o "ID" | None => Some "" end;
     owner_display_name :=
       match owner with
       | Some o => _safe_find_text o "DisplayName"
       | None => Some ""
       end;
     type_ := _safe_find_text content "Type" |}.

(** Rule 1: the lower-cased key contains ['envidat.1']. *)
Definition rule_envidat1 (k : option string) : bool :=
  let lower_key := match k with Some s => lower s | None => "" end in
  contains "envidat.1" lower_key.

(** Rule 2: in the envidat-doi bucket, the extension is .html, .json or
    .xml. *)
Definition rule_doi_meta (name : string) (k : option string) : bool :=
  if (name =? "envidat-doi")%string then
    let ext := snd (splitext (match k with Some s => s | None => "" end)) in
    in_tuple (lower ext) [".html"; ".json"; ".xml"]
  else false.

(** The body of [for content in contents]. *)
Definition process_content (url name : string) (s : State) (content : Element)
  : State :=
  let row := candidate url name content in
  if rule_envidat1 (key row) then
    set_skipped_envidat1 (skipped_envidat1 s + 1) s
  else if rule_doi_meta name (key row) then
    set_skipped_doi_meta (skipped_doi_meta s + 1) s
  else writerow row s.

(** The rows that a page adds to the CSV: the candidates that pass both
    rules, in document order. *)
Definition kept (url name : string) (contents : list Element) : list Row :=
  filter (fun r => negb (rule_envidat1 (key r)) &&
                   negb (rule_doi_meta name (key r)))
         (map (candidate url name) contents).

(** How one iteration of [while True] ends. *)
Inductive Step : Type :=
| Next (s : State)                    (* falls through to the next iteration *)
| Break (s : State)                   (* [break] *)
| Raise (e : Exception) (s : State).  (* an exception leaves the function *)

(** [is_truncated_tag is not None and is_truncated_tag.text.lower() ==
    'true']; [None] when [.text] is [None] and [.lower()] raises. *)
Definition is_truncated (root : Element) : option bool :=
  match find root "IsTruncated" with
  | None => Some false
  | Some is_truncated_tag =>
      match text is_truncated_tag with
      | None => None
      | Some x => Some (lower x =? "true")%string
      end
  end.

(** The fallback: the [Key] of the last [Contents]; the outer [None] is
    the branch without any [Contents], which breaks out of the loop. *)
Definition last_key_marker (contents : list Element)
  : option (option string) :=
  match contents with
  | [] => None
  | c :: _ =>
      match find (List.last contents c) "Key" with
      | Some last_key => Some (text last_key)
      | None => Some None
      end
  end.

(** The next marker: [<NextMarker>] if present and not empty, otherwise
    the last [Key]. *)
Definition next_marker (root : Element) (contents : list Element)
  : option (option string) :=
  match find root "NextMarker" with
  | Some next_marker_tag =>
      if truthy (text next_marker_tag) then Some (text next_marker_tag)
      else last_key_marker contents
  | None => last_key_marker contents
  end.

(** The part of the loop body after the rows of the page are written:
    [page_count += 1] and the pagination control.  The pause that
    follows where the iteration falls through ([time.sleep], lines
    227-228) is not part of this function; [Paced] adds it. *)
Definition paginate (url : string) (max_pages : option Z)
           (root : Element) (contents : list Element) (s : State) : Step :=
  let s := set_page_count (page_count s + 1) s in
  match is_truncated root with
  | None => Raise AttributeError s
  | Some false => Break (logger (InfoNoMorePages url) s)
  | Some true =>
      match next_marker root contents with
      | None => Break (logger WarningTruncatedNoContents s)
      | Some m =>
          let s := set_marker m s in
          match max_pages with
          | Some mp =>
              if mp <=? page_count s
              then Break (logger (InfoReachedMaxPages mp url) s)
              else Next s
          | None => Next s
          end
      end
  end.

(** The parameters of the request: [marker] only when it is true. *)
Definition params (s : State) : option string :=
  if truthy (marker s) then marker s else None.

(** One iteration of [while True], up to the pause. *)
Definition loop_body (session : Session) (url name : string)
           (max_pages : option Z) (s : State) : Step :=
  let q := (url, params s) in
  let resp := session (requests s) q in
  let s := send q s in
  match resp with
  | TransportError => Raise RequestException (logger (ErrorGetFailed url (marker s)) s)
  | Malformed => Raise ParseError (logger (ErrorParseFailed url (marker s)) s)
  | Document root =>
      let contents := findall root "Contents" in
      let s := logger (InfoGotContents (Z.of_nat (List.length contents))
                                       (page_count s + 1)) s in
      let s := fold_left (process_content url name) contents s in
      paginate url max_pages root contents s
  end.

(** How a call ends: it returns, it raises, or the fuel of the model is
    used up while the loop is still going. *)
Inductive Outcome : Type :=
| Returned (s : State)
| Raised (e : Exception) (s : State)
| Running (s : State).

(** [while True: ...] with [fuel] iterations, for a [sleep] whose pause
    returns or is not taken (the default 0.0 among them) *)
Fixpoint while_true (fuel : nat) (session : Session) (url name : string)
         (max_pages : option Z) (s : State) : Outcome :=
  match fuel with
  | O => Running s
  | S fuel' =>
      match loop_body session url name max_pages s with
      | Next s' => while_true fuel' session url name max_pages s'
      | Break s' => Returned s'
      | Raise e s' => Raised e s'
      end
  end.

(** The two summary lines after the loop. *)
Definition log_skipped (name : string) (s : State) : State :=
  let s := if skipped_envidat1 s =? 0 then s
           else logger (InfoSkippedEnvidat1 (skipped_envidat1 s) name) s in
  if skipped_doi_meta s =? 0 then s
  else logger (InfoSkippedDoiMeta (skipped_doi_meta s) name) s.

(** Crawl a single S3-style bucket listing endpoint and write rows to
    the CSV. *)
Definition list_s3_bucket_to_csv (fuel : nat) (bucket_url : string)
           (session : Session) (max_pages : option Z) (s : State) : Outcome :=
  let s := logger (InfoStartingBucket bucket_url) s in
  let bucket_name := bucket_name_of bucket_url in
  let s := set_marker None s in
  let s := set_page_count 0 s in
  let s := set_skipped_envidat1 0 s in
  let s := set_skipped_doi_meta 0 s in
  match while_true fuel session bucket_url bucket_name max_pages s with
  | Returned s =>
      let s := log_skipped bucket_name s in
      Returned (logger (InfoFinishedBucket bucket_url (page_count s)) s)
  | other => other
  end.

(** [for bucket in buckets: list_s3_bucket_to_csv(...)] *)
Fixpoint for_buckets (fuel : nat) (buckets : list string) (session : Session)
         (max_pages : option Z) (s : State) : Outcome :=
  match buckets with
  | [] => Returned s
  | bucket :: rest =>
      match list_s3_bucket_to_csv fuel bucket session max_pages s with
      | Returned s' => for_buckets fuel rest session max_pages s'
      | other => other
      end
  end.

(** The state a call leaves behind, and whether it came to an end. *)
Definition state_of (o : Outcome) : State :=
  match o with
  | Returned s | Raised _ s | Running s => s
  end.
Definition terminated (o : Outcome) : bool :=
  match o with
  | Running _ => false
  | _ => true
  end.
Definition step_state (t : Step) : State :=
  match t with
  | Next s | Break s | Raise _ s => s
  end.

(** A size as a normalised record would carry it: a non-empty string
    of decimal digits. *)
Definition is_digit (c : ascii) : bool :=
  let n := N_of_ascii c in ((48 <=? n) && (n <=? 57))%N.
Fixpoint all_digits (s : string) : bool :=
  match s with
  | EmptyString => true
  | String c s' => is_digit c && all_digits s'
  end.
Definition decimal (v : option string) : bool :=
  match v with
  | Some (String c s') => all_digits (String c s')
  | _ => false
  end.

(** The state in which [cmd_fetch] starts: nothing sent, an empty file. *)
Definition initial : State :=
  mkState [] None [] [] None 0 0 0.

(** Fetch listings for all given buckets and write to the CSV. *)
Definition cmd_fetch (fuel : nat) (buckets : list string) (session : Session)
           (max_pages : option Z) : Outcome :=
  match for_buckets fuel buckets session max_pages (writeheader initial) with
  | Returned s => Returned (logger InfoAllBucketsProcessed s)
  | other => other
  end.

(** The number of [Contents] entries the log reports ("Got %d Contents
    entries"), and the level filter of the log. *)
Definition entries_of (r : LogRecord) : Z :=
  match r with
  | InfoGotContents n _ => n
  | _ => 0
  end.
Fixpoint entries_logged (l : list LogRecord) : Z :=
  match l with
  | [] => 0
  | r :: l' => entries_of r + entries_logged l'
  end.
Definition is_error (r : LogRecord) : bool :=
  match level r with
  | ERROR => true
  | _ => false
  end.

(** Rows written plus entries skipped, less the entries the log
    reports. *)
Definition balance (s : State) : Z :=
  Z.of_nat (List.length (csv_rows s)) + skipped_envidat1 s + skipped_doi_meta s
  - entries_logged (log s).

(** Every request of the list was answered with a parsed document. *)
Definition all_documents (session : Session) (reqs : list Request) : Prop :=
  forall h q t, reqs = h ++ q :: t -> exists root, session h q = Document root.

(** A row that the crawl of [url] may write. *)
Definition row_of_bucket (url : string) (r : Row) : Prop :=
  bucket_url r = url /\ bucket_name r = bucket_name_of url.

(** What an outcome says about the answers received: a call that
    returns (or is still running, or fails on a truncation flag without
    text) has had a document for every request; one that raises on a
    request has had a failure for the last request, documents for all
    the others, and has logged the error last. *)
Definition answers_ok (session : Session) (o : Outcome) : Prop :=
  match o with
  | Returned s | Running s | Raised AttributeError s =>
      all_documents session (requests s)
  | Raised RequestException s =>
      exists h q l m, requests s = h ++ [q] /\ session h q = TransportError /\
                      all_documents session h /\
                      log s = l ++ [ErrorGetFailed (fst q) m]
  | Raised ParseError s =>
      exists h q l m, requests s = h ++ [q] /\ session h q = Malformed /\
                      all_documents session h /\
                      log s = l ++ [ErrorParseFailed (fst q) m]
  end.

(** A row that is the record of an entry of a page received in answer
    to one of the requests [reqs]. *)
Definition received (session : Session) (reqs : list Request) (r : Row)
  : Prop :=
  exists h q t root content,
    reqs = h ++ q :: t /\
    session h q = Document root /\
    In content (findall root "Contents") /\
    r = candidate (fst q) (bucket_name_of (fst q)) content.

(** The buckets that the log names in its [Starting bucket] records,
    in the order of the log. *)
Fixpoint started (l : list LogRecord) : list string :=
  match l with
  | [] => []
  | InfoStartingBucket url :: l' => url :: started l'
  | _ :: l' => started l'
  end.

End Crawler.

(* ================================================================== *)
(** ** The pause between two pages: [time.sleep] *)

Module Paced.
Import Xml Crawler.

(** The [sleep] argument as the last statement of the loop body uses it:
    [if sleep and sleep > 0: time.sleep(sleep)].  It is a float (the
    value of [--sleep], 0.0 by default) and nothing else reads it, so
    all that matters of it is which of three things that statement
    does. *)
Inductive Sleep : Type :=
| NotCalled   (* 0.0, a negative value or NaN: the test fails *)
| Sleeps      (* [time.sleep(sleep)] pauses and returns *)
| TooLarge.   (* [time.sleep(sleep)] raises OverflowError: infinity, or
                 more seconds than the C time type holds *)

Inductive Exception : Type :=
| Crawling (e : Crawler.Exception)   (* raised before the pause *)
| OverflowError.                     (* raised by [time.sleep] *)

Inductive Step : Type :=
| Next (s : State)
| Break (s : State)
| Raise (e : Exception) (s : State).

(** Lines 227-228. *)
Definition time_sleep (sleep : Sleep) (s : State) : Step :=
  match sleep with
  | TooLarge => Raise OverflowError s
  | _ => Next s
  end.

(** One iteration of [while True], the pause included:
    [Crawler.loop_body] is the iteration up to the page limit, and
    where it falls through, the pause follows. *)
Definition loop_body (sleep : Sleep) (session : Session) (url name : string)
           (max_pages : option Z) (s : State) : Step :=
  match Crawler.loop_body session url name max_pages s with
  | Crawler.Next s' => time_sleep sleep s'
  | Crawler.Break s' => Break s'
  | Crawler.Raise e s' => Raise (Crawling e) s'
  end.

Inductive Outcome : Type :=
| Returned (s : State)
| Raised (e : Exception) (s : State)
| Running (s : State).

(** [while True: ...] with [fuel] iterations *)
Fixpoint while_true (fuel : nat) (sleep : Sleep) (session : Session)
         (url name : string) (max_pages : option Z) (s : State) : Outcome :=
  match fuel with
  | O => Running s
  | S fuel' =>
      match loop_body sleep session url name max_pages s with
      | Next s' => while_true fuel' sleep session url name max_pages s'
      | Break s' => Returned s'
      | Raise e s' => Raised e s'
      end
  end.

(** Crawl a single S3-style bucket listing endpoint and write rows to
    the CSV. *)
Definition list_s3_bucket_to_csv (fuel : nat) (bucket_url : string)
           (session : Session) (sleep : Sleep) (max_pages : option Z)
           (s : State) : Outcome :=
  let s := logger (InfoStartingBucket bucket_url) s in
  let bucket_name := bucket_name_of bucket_url in
  let s := set_marker None s in
  let s := set_page_count 0 s in
  let s := set_skipped_envidat1 0 s in
  let s := set_skipped_doi_meta 0 s in
  match while_true fuel sleep session bucket_url bucket_name max_pages s with
  | Returned s =>
      let s := log_skipped bucket_name s in
      Returned (logger (InfoFinishedBucket bucket_url (page_count s)) s)
  | other => other
  end.

(** [for bucket in buckets: list_s3_bucket_to_csv(...)] *)
Fixpoint for_buckets (fuel : nat) (buckets : list string) (session : Session)
         (sleep : Sleep) (max_pages : option Z) (s : State) : Outcome :=
  match buckets with
  | [] => Returned s
  | bucket :: rest =>
      match list_s3_bucket_to_csv fuel bucket session sleep max_pages s with
      | Returned s' => for_buckets fuel rest session sleep max_pages s'
      | other => other
      end
  end.

(** Fetch listings for all given buckets and write to the CSV. *)
Definition cmd_fetch (fuel : nat) (buckets : list string) (session : Session)
           (sleep_between_requests : Sleep) (max_pages : option Z) : Outcome :=
  match for_buckets fuel buckets session sleep_between_requests max_pages
                    (writeheader initial) with
  | Returned s => Returned (logger InfoAllBucketsProcessed s)
  | other => other
  end.

Definition state_of (o : Outcome) : State :=
  match o with
  | Returned s | Raised _ s | Running s => s
  end.
Definition terminated (o : Outcome) : bool :=
  match o with
  | Running _ => false
  | _ => true
  end.

(** An outcome of the crawl without the pause, read as one of the crawl
    with it. *)
Definition with_pause (o : Crawler.Outcome) : Outcome :=
  match o with
  | Crawler.Returned s => Returned s
  | Crawler.Raised e s => Raised (Crawling e) s
  | Crawler.Running s => Running s
  end.

(** What an overflowing pause makes of the first iteration of a crawl:
    where the crawl without the pause would go on after one iteration,
    the call raises. *)
Definition cut_short (o : Crawler.Outcome) : Outcome :=
  match o with
  | Crawler.Running s => Raised OverflowError s
  | other => with_pause other
  end.

End Paced.

(* ================================================================== *)
(** ** The aggregation: [cmd_visualize] *)

Module Aggregator.
Import PyStr OsPath.

(** *** int64 columns *)

Definition wrap64 (z : Z) : Z := (z + 2 ^ 63) mod 2 ^ 64 - 2 ^ 63.
Definition add64 (a b : Z) : Z := wrap64 (a + b).

(** [Series.sum()] of an int64 column *)
Definition sum64 (l : list Z) : Z := fold_left add64 l 0.

(** The exact sum of a list of Python integers *)
Fixpoint total (l : list Z) : Z :=
  match l with
  | [] => 0
  | v :: l' => v + total l'
  end.

(** No value of the metric [f] is negative on the rows [l]. *)
Definition nonneg_on {R : Type} (f : R -> Z) (l : list R) : Prop :=
  Forall (fun r => 0 <= f r) l.

(** *** The frame *)

(** A row of the frame as [cmd_visualize] uses it: [bucket_name] (as
    [astype(str)] renders it) and [key] as [read_csv] delivers them
    ([None] for a missing value), and
    [size_bytes], the int64 that
    [to_numeric(..., errors='coerce').fillna(0).astype('int64')] leaves
    in that column. *)
Record DfRow : Type := mkDfRow {
  bucket_name : option string;
  key : option string;
  size_bytes : Z
}.

(** derive extension (take last dot). treat files without extension as
    '<no_ext>' *)
Definition get_ext (k : option string) : string :=
  match k with
  | None => "<no_ext>"
  | Some k =>
      if (strip k =? "")%string then "<no_ext>"
      else
        let base := basename k in
        if negb (has_char "." base) then "<no_ext>"
        else
          let e := lower (snd (splitext base)) in
          if (e =? "")%string then "<no_ext>" else e
  end.

Definition extension (r : DfRow) : string := get_ext (key r).

(** *** groupby *)

Section GroupBy.
Context {R K : Type} (eqb : K -> K -> bool) (leb : K -> K -> bool).

Fixpoint unique (l : list K) : list K :=
  match l with
  | [] => []
  | k :: t => if existsb (eqb k) t then unique t else k :: unique t
  end.

Fixpoint insert_key (k : K) (l : list K) : list K :=
  match l with
  | [] => [k]
  | k' :: t => if leb k k' then k :: l else k' :: insert_key k t
  end.

Definition sort_keys (l : list K) : list K := fold_right insert_key [] l.

(** The keys of the rows, missing values dropped. *)
Fixpoint keys_of (key : R -> option K) (rows : list R) : list K :=
  match rows with
  | [] => []
  | r :: t =>
      match key r with
      | Some k => k :: keys_of key t
      | None => keys_of key t
      end
  end.

Definition in_group (key : R -> option K) (k : K) (r : R) : bool :=
  match key r with
  | Some k' => eqb k' k
  | None => false
  end.

Definition has_key (key : R -> option K) (r : R) : bool :=
  match key r with
  | Some _ => true
  | None => false
  end.

(** [df.groupby(key)]: one group per distinct key, in the order of the
    keys; rows with a missing key belong to no group. *)
Definition group_keys (key : R -> option K) (rows : list R) : list K :=
  sort_keys (unique (keys_of key rows)).
Definition groupby (key : R -> option K) (rows : list R) : list (K * list R) :=
  map (fun k => (k, filter (in_group key k) rows)) (group_keys key rows).

(** [.agg] of each group *)
Definition aggregate (f : list R -> Z) (g : list (K * list R)) : list (K * Z) :=
  map (fun kg => (fst kg, f (snd kg))) g.

End GroupBy.

Definition eqb2 (a b : string * string) : bool :=
  ((fst a =? fst b) && (snd a =? snd b))%string.
Definition leb2 (a b : string * string) : bool :=
  String.ltb (fst a) (fst b) ||
  ((fst a =? fst b)%string && String.leb (snd a) (snd b)).

(** [[column].sum()] of a group of a two-column table *)
Definition sum_values {K : Type} (g : list (K * Z)) : Z := sum64 (map snd g).

(** The count metric: every row counts for one. *)
Definition count_one {R : Type} (_ : R) : Z := 1.

(** [.size()] of a group, as int64 *)
Definition size64 {R : Type} (g : list R) : Z := wrap64 (Z.of_nat (List.length g)).

(** [sort_values(column, ascending=False)] on a two-column table.  Rows
    of equal value keep their order here; pandas sorts with quicksort
    unless told otherwise and may leave such rows in another order, so
    what depends on the order of equal values is stated for every
    order that [sorted_desc_of] allows. *)
Fixpoint insert_desc {K : Type} (x : K * Z) (l : list (K * Z)) : list (K * Z) :=
  match l with
  | [] => [x]
  | y :: t => if snd y <=? snd x then x :: l else y :: insert_desc x t
  end.
Definition sort_values_desc {K : Type} (l : list (K * Z)) : list (K * Z) :=
  fold_right insert_desc [] l.

(** [seq[:n]] *)
Definition iloc_to {A : Type} (n : Z) (l : list A) : list A :=
  let len := Z.of_nat (List.length l) in
  firstn (Z.to_nat (if n <? 0 then Z.max 0 (n + len) else Z.min n len)) l.

(** *** The tables *)

Definition key_bucket_ext (r : DfRow) : option (string * string) :=
  match bucket_name r with
  | Some b => Some (b, extension r)
  | None => None
  end.
Definition key_ext (r : DfRow) : option string := Some (extension r).

(** [df.groupby(['bucket_name', 'extension']).size()].  The groups come
    in the order of the bucket names as strings; pandas orders them as
    the column was read, by number when every name in the file is one. *)
Definition counts_by_bucket_ext (df : list DfRow) : list ((string * string) * Z) :=
  aggregate size64 (groupby eqb2 leb2 key_bucket_ext df).

(** [df.groupby('extension').size()] *)
Definition counts_by_ext (df : list DfRow) : list (string * Z) :=
  aggregate size64 (groupby String.eqb String.leb key_ext df).

(** Optionally reduce to top N extensions overall. *)
Definition collapse (top_n_extensions : option Z) (df : list DfRow)
           (df_counts : list ((string * string) * Z))
  : list ((string * string) * Z) :=
  match top_n_extensions with
  | None => df_counts
  | Some n =>
      let total_by_ext := sort_values_desc (counts_by_ext df) in
      let top_exts := map fst (iloc_to n total_by_ext) in
      let relabelled :=
        map (fun r =>
               ((fst (fst r),
                 if in_tuple (snd (fst r)) top_exts then snd (fst r)
                 else "<other>"), snd r)) df_counts in
      aggregate sum_values
                (groupby eqb2 leb2 (fun r => Some (fst r)) relabelled)
  end.

(** *** Sunburst: root -> bucket -> extension *)

Record Node : Type := mkNode {
  id : string;
  label : string;
  parent : string;
  value : Z
}.

Definition bucket_id (b : string) : string := "bucket:" ++ b.

(** [df_counts.groupby('bucket_name')[column].sum()] *)
Definition key_bucket (r : (string * string) * Z) : option string :=
  Some (fst (fst r)).
Definition bucket_totals (tbl : list ((string * string) * Z))
  : list (string * Z) :=
  aggregate sum_values (groupby String.eqb String.leb key_bucket tbl).

Definition bucket_node (row : string * Z) : Node :=
  mkNode (bucket_id (fst row)) (fst row) "root" (snd row).
Definition ext_node (row : (string * string) * Z) : Node :=
  mkNode (fst (fst row) ++ "|" ++ snd (fst row)) (snd (fst row))
         (bucket_id (fst (fst row))) (snd row).

(** The lists [ids], [labels], [parents], [values], one node per
    position: the root, the bucket nodes, the extension nodes. *)
Definition sunburst (root_label : string) (tbl : list ((string * string) * Z))
  : list Node :=
  mkNode "root" root_label "" (sum64 (map snd tbl))
  :: map bucket_node (bucket_totals tbl) ++ map ext_node tbl.

(** The nodes whose parent is [i], and the nodes of the extension
    level (those below a bucket node). *)
Definition children (t : list Node) (i : string) : list Node :=
  filter (fun n => (parent n =? i)%string) t.
Definition leaves (t : list Node) : list Node :=
  filter (fun n => negb (parent n =? "")%string &&
                   negb (parent n =? "root")%string) t.

(** [branchvalues='total'] read as an invariant: the first node is the
    root, its value is the sum of its children and of the leaves, and
    every child of the root carries the sum of its own children. *)
Definition tree_sums (t : list Node) : Prop :=
  (exists root rest,
      t = root :: rest /\ id root = "root" /\ parent root = "" /\
      value root = total (map value (children t "root")) /\
      value root = total (map value (leaves t))) /\
  (forall b, In b (children t "root") ->
             value b = total (map value (children t (id b)))).

(** *** Sankey: Total -> extension *)

Record Sankey : Type := mkSankey {
  node_label : list string;
  link_source : list Z;
  link_target : list Z;
  link_value : list Z
}.

Definition sankey (total_label : string) (tbl : list (string * Z)) : Sankey :=
  mkSankey (total_label :: map fst tbl)
           (map (fun _ => 0) tbl)
           (map (fun i => 1 + Z.of_nat i) (seq 0 (List.length tbl)))
           (map snd tbl).

(** *** cmd_visualize *)

Record Figures : Type := mkFigures {
  sunburst_fig : list Node;
  sankey_fig : Sankey;
  sankey_bytes_fig : Sankey;
  sankey_bytes_total : Z;        (* the total in the title of the figure *)
  sunburst_bytes_fig : list Node
}.

Definition bytes64 (g : list DfRow) : Z := sum64 (map size_bytes g).

(** Read the frame and create the four figures. *)
Definition cmd_visualize (df : list DfRow) (top_n_extensions : option Z)
  : Figures :=
  let df_counts := collapse top_n_extensions df (counts_by_bucket_ext df) in
  let total_by_extension := sort_values_desc (counts_by_ext df) in
  let total_by_extension_bytes :=
    sort_values_desc
      (aggregate bytes64 (groupby String.eqb String.leb key_ext df)) in
  let df_counts_bytes :=
    aggregate bytes64 (groupby eqb2 leb2 key_bucket_ext df) in
  mkFigures (sunburst "All files" df_counts)
            (sankey "Total files" total_by_extension)
            (sankey "Total bytes" total_by_extension_bytes)
            (sum64 (map size_bytes df))
            (sunburst "All bytes" df_counts_bytes).

(** The rows that [groupby(['bucket_name', 'extension'])] keeps: those
    with a bucket name. *)
Definition has_bucket (r : DfRow) : bool :=
  match bucket_name r with
  | Some _ => true
  | None => false
  end.

(** The sums of a sunburst as the int64 columns give them: every
    parent carries the wrapped sum of its children. *)
Definition tree_sums64 (t : list Node) : Prop :=
  (exists root rest,
      t = root :: rest /\
      value root = wrap64 (total (map value (children t "root"))) /\
      value root = wrap64 (total (map value (leaves t)))) /\
  (forall b, In b (children t "root") ->
             value b = wrap64 (total (map value (children t (id b))))).

(** Lines 293-294 for a given set [top_exts]: the extensions outside
    the set are relabelled and the table is grouped again. *)
Definition collapse_to (top_exts : list string)
           (df_counts : list ((string * string) * Z))
  : list ((string * string) * Z) :=
  let relabelled :=
    map (fun r =>
           ((fst (fst r),
             if in_tuple (snd (fst r)) top_exts then snd (fst r)
             else "<other>"), snd r)) df_counts in
  aggregate sum_values
            (groupby eqb2 leb2 (fun r => Some (fst r)) relabelled).

(** What [sort_values(column, ascending=False)] gives of a table,
    whatever the sorting algorithm does with rows of equal value: the
    rows of the table, the larger values first. *)
Definition sorted_desc_of {K : Type} (tbl order : list (K * Z)) : Prop :=
  Permutation tbl order /\
  StronglySorted (fun a b => snd b <= snd a) order.

(** The count sunburst when [total_by_ext] comes out sorted as [order]. *)
Definition count_sunburst (df : list DfRow) (n : Z) (order : list (string * Z))
  : list Node :=
  sunburst "All files"
           (collapse_to (map fst (iloc_to n order)) (counts_by_bucket_ext df)).

End Aggregator.

(* ================================================================== *)
(** ** The namespace of the listing: [_strip_s3_xml_namespace] *)

Module XmlText.
Import PyStr.

Definition quote : ascii := "034"%char.

(** The literal part of the pattern: [xmlns=] and a double quote. *)
Definition xmlns_eq : string := "xmlns=" ++ String quote EmptyString.

(** Any run of characters other than the double quote, then a double
    quote, at the head of [s]: what follows that quote. *)
Fixpoint after_quote (s : string) : option string :=
  match s with
  | EmptyString => None
  | String c s' => if Ascii.eqb c quote then Some s' else after_quote s'
  end.

(** The same with at least one character before the quote: the value
    of the attribute and its closing quote. *)
Definition attr_value (s : string) : option string :=
  match s with
  | EmptyString => None
  | String c s' => if Ascii.eqb c quote then None else after_quote s'
  end.

(** The pattern (a white space, the literal, a non-empty value, the
    closing quote) matched at the head of [s]: what follows the match. *)
Definition match_xmlns (s : string) : option string :=
  match s with
  | EmptyString => None
  | String c s' =>
      if is_space c && String.prefix xmlns_eq s'
      then attr_value (drop (String.length xmlns_eq) s')
      else None
  end.

(** [re.sub(pattern, '', xml_text, count=1)]: the leftmost match is
    removed, the rest of the text is kept. *)
Fixpoint _strip_s3_xml_namespace (xml_text : string) : string :=
  match match_xmlns xml_text with
  | Some rest => rest
  | None =>
      match xml_text with
      | EmptyString => EmptyString
      | String c s' => String c (_strip_s3_xml_namespace s')
      end
  end.

End XmlText.

(* ================================================================== *)
(** ** The command line: the bucket list of [main] *)

Module Cli.
Import PyStr.

Definition DEFAULT_BUCKETS : list string :=
  [ "https://os.zhdk.cloud.switch.ch/envidat-doi/";
    "https://os.zhdk.cloud.switch.ch/envicloud/";
    "https://s3-zh.os.switch.ch/pointclouds";
    "https://s3-zh.os.switch.ch/drone-data";
    "https://os.zhdk.cloud.switch.ch/edna/" ].

(** The default of [--buckets]: [','.join(DEFAULT_BUCKETS)] *)
Definition default_buckets_arg : string := String.concat "," DEFAULT_BUCKETS.

(** [[b.strip() for b in args.buckets.split(',') if b.strip()]] *)
Definition parse_buckets (arg : string) : list string :=
  map strip
      (filter (fun b => negb (strip b =? "")%string) (split "," arg)).

End Cli.

(* ================================================================== *)
(** ** Sample documents *)

Module Samples.
Import Xml Crawler.

Definition entry (k : string) : Element :=
  Elem "Contents" None [Elem "Key" (Some k) []].

Definition entry_with_size (k sz : string) : Element :=
  Elem "Contents" None [Elem "Key" (Some k) []; Elem "Size" (Some sz) []].

Definition page (truncated : string) (entries : list Element) : Element :=
  Elem "ListBucketResult" None
       (Elem "Name" (Some "bucket") [] :: entries
        ++ [Elem "IsTruncated" (Some truncated) []]).

(** A remote side that answers every request with the same truncated
    page of one entry. *)
Definition endless : Session :=
  fun _ _ => Document (page "true" [entry "a"]).

(** A remote side that answers every request with one fixed document. *)
Definition always (root : Element) : Session :=
  fun _ _ => Document root.

(** A listing of two pages: the first is truncated and names its
    marker, the second is asked for with that marker and is the last. *)
Definition two_pages : Session :=
  fun _ q =>
    match snd q with
    | Some m =>
        if (m =? "k2")%string
        then Document (page "false" [entry "k3"])
        else TransportError
    | None =>
        Document (Elem "ListBucketResult" None
                       [entry "k1"; entry "k2";
                        Elem "IsTruncated" (Some "true") [];
                        Elem "NextMarker" (Some "k2") []])
    end.

(** Two objects of 2^62 bytes each, in two buckets. *)
Definition huge_df : list Aggregator.DfRow :=
  [ Aggregator.mkDfRow (Some "a") (Some "x.bin") (2 ^ 62);
    Aggregator.mkDfRow (Some "b") (Some "y.dat") (2 ^ 62) ].

(** One bucket with 10 .csv, 5 .json, 3 .tif and 1 .txt object, of one
    byte each. *)
Definition mixed_df : list Aggregator.DfRow :=
  repeat (Aggregator.mkDfRow (Some "b") (Some "d/x.csv") 1) 10
  ++ repeat (Aggregator.mkDfRow (Some "b") (Some "d/y.json") 1) 5
  ++ repeat (Aggregator.mkDfRow (Some "b") (Some "d/z.tif") 1) 3
  ++ [Aggregator.mkDfRow (Some "b") (Some "d/w.txt") 1].

(** Two buckets whose names make an extension node and a bucket node
    share an id. *)
Definition clash_df : list Aggregator.DfRow :=
  [ Aggregator.mkDfRow (Some "x|.y") (Some "f") 1;
    Aggregator.mkDfRow (Some "bucket:x") (Some "f.y") 1 ].

Definition doi_url : string := "https://os.zhdk.cloud.switch.ch/envidat-doi/".
Definition cloud_url : string := "https://os.zhdk.cloud.switch.ch/envicloud/".

(** Two extensions with one object each. *)
Definition tied_df : list Aggregator.DfRow :=
  [ Aggregator.mkDfRow (Some "b") (Some "x.aa") 1;
    Aggregator.mkDfRow (Some "b") (Some "y.bb") 1 ].

(** A page without the text of its truncation flag, and a truncated
    page of one entry. *)
Definition flag_without_text : Element :=
  Elem "ListBucketResult" None [entry "a"; Elem "IsTruncated" None []].
Definition truncated_page : Element := page "true" [entry "a"].

(** A remote side that fails every request. *)
Definition unreachable : Session := fun _ _ => TransportError.

End Samples.

(* ================================================================== *)
(** * Properties of the crawler *)

Module CrawlerFacts.
Import PyStr OsPath Xml Crawler Samples.

(** *** Sanity checks on the string helpers *)

Example bucket_name_of_doi : bucket_name_of doi_url = "envidat-doi".
Proof. reflexivity. Qed.

Example bucket_name_of_no_slash :
  bucket_name_of "https://s3-zh.os.switch.ch/pointclouds" = "pointclouds".
Proof. reflexivity. Qed.

Example splitext_meta_json : splitext "meta.json" = ("meta", ".json").
Proof. reflexivity. Qed.

Example splitext_dotfile : splitext "dir/.hidden" = ("dir/.hidden", "").
Proof. reflexivity. Qed.

Example two_pages_three_rows :
  map key (csv_rows (state_of (cmd_fetch 2 [cloud_url] two_pages None)))
  = [Some "k1"; Some "k2"; Some "k3"] /\
  requests (state_of (cmd_fetch 2 [cloud_url] two_pages None))
  = [(cloud_url, None); (cloud_url, Some "k2")] /\
  terminated (cmd_fetch 2 [cloud_url] two_pages None) = true.
Proof. repeat split. Qed.

(** *** What the loop leaves untouched *)

Lemma process_content_cases url name s content :
  let row := candidate url name content in
  (rule_envidat1 (key row) = true /\
   process_content url name s content
   = set_skipped_envidat1 (skipped_envidat1 s + 1) s) \/
  (rule_envidat1 (key row) = false /\ rule_doi_meta name (key row) = true /\
   process_content url name s content
   = set_skipped_doi_meta (skipped_doi_meta s + 1) s) \/
  (rule_envidat1 (key row) = false /\ rule_doi_meta name (key row) = false /\
   process_content url name s content = writerow row s).
Proof.
  unfold process_content; cbv zeta.
  destruct (rule_envidat1 _); [now left|].
  destruct (rule_doi_meta _ _); [right; now left|right; now right].
Qed.

Lemma process_content_frame url name s content :
  requests (process_content url name s content) = requests s /\
  log (process_content url name s content) = log s /\
  marker (process_content url name s content) = marker s /\
  page_count (process_content url name s content) = page_count s.
Proof.
  destruct (process_content_cases url name s content)
    as [[_ ->]|[(_ & _ & ->)|(_ & _ & ->)]]; now cbn.
Qed.

Lemma fold_process_frame url name contents : forall s,
  let s' := fold_left (process_content url name) contents s in
  requests s' = requests s /\ log s' = log s /\
  marker s' = marker s /\ page_count s' = page_count s.
Proof.
  induction contents as [|c cs IH]; intros s; cbn; [now auto|].
  destruct (IH (process_content url name s c)) as (-> & -> & -> & ->).
  apply process_content_frame.
Qed.

(** A property of rows that every written row has is kept by the whole
    run. *)
Section RowInvariant.
Variable P : Row -> Prop.
Hypothesis candidate_ok : forall url name s content,
  csv_rows (process_content url name s content) = csv_rows s \/
  (csv_rows (process_content url name s content)
   = csv_rows s ++ [candidate url name content] /\
   P (candidate url name content)).

Lemma inv_process url name s content :
  Forall P (csv_rows s) -> Forall P (csv_rows (process_content url name s content)).
Proof.
  intros H. destruct (candidate_ok url name s content) as [->|[-> HP]]; auto.
  apply Forall_app; split; auto.
Qed.

Lemma inv_fold url name contents : forall s,
  Forall P (csv_rows s) ->
  Forall P (csv_rows (fold_left (process_content url name) contents s)).
Proof.
  induction contents as [|c cs IH]; intros s H; cbn; auto using inv_process.
Qed.

Lemma paginate_rows url mp root contents s :
  csv_rows (step_state (paginate url mp root contents s)) = csv_rows s.
Proof.
  unfold paginate; cbv zeta.
  destruct (is_truncated root) as [[|]|]; cbn; auto.
  destruct (next_marker root contents) as [m|]; cbn; auto.
  destruct mp as [m'|]; cbn; auto.
  destruct (m' <=? _); cbn; auto.
Qed.

Lemma inv_loop_body session url name mp s :
  Forall P (csv_rows s) ->
  Forall P (csv_rows (step_state (loop_body session url name mp s))).
Proof.
  intros H. unfold loop_body; cbv zeta.
  destruct (session _ _); cbn; auto.
  rewrite paginate_rows. apply inv_fold. exact H.
Qed.

Lemma inv_while fuel session url name mp : forall s,
  Forall P (csv_rows s) ->
  Forall P (csv_rows (state_of (while_true fuel session url name mp s))).
Proof.
  induction fuel as [|f IH]; intros s H; cbn; auto.
  pose proof (inv_loop_body session url name mp s H) as H'.
  destruct (loop_body session url name mp s); cbn in *; auto.
Qed.

Lemma log_skipped_rows name s : csv_rows (log_skipped name s) = csv_rows s.
Proof.
  unfold log_skipped.
  destruct (skipped_envidat1 s =? 0); cbn;
    match goal with |- context [if ?b then _ else _] => destruct b end;
    reflexivity.
Qed.

Lemma log_skipped_requests name s : requests (log_skipped name s) = requests s.
Proof.
  unfold log_skipped.
  destruct (skipped_envidat1 s =? 0); cbn;
    match goal with |- context [if ?b then _ else _] => destruct b end;
    reflexivity.
Qed.

Lemma inv_bucket fuel url session mp s :
  Forall P (csv_rows s) ->
  Forall P (csv_rows (state_of (list_s3_bucket_to_csv fuel url session mp s))).
Proof.
  intros H. unfold list_s3_bucket_to_csv; cbv zeta.
  match goal with |- context [while_true fuel session url ?n mp ?s0] =>
    pose proof (inv_while fuel session url n mp s0 H) as H';
    destruct (while_true fuel session url n mp s0) end; cbn in *; auto.
  now rewrite log_skipped_rows.
Qed.

Lemma inv_buckets fuel session mp buckets : forall s,
  Forall P (csv_rows s) ->
  Forall P (csv_rows (state_of (for_buckets fuel buckets session mp s))).
Proof.
  induction buckets as [|b bs IH]; intros s H; cbn; auto.
  pose proof (inv_bucket fuel b session mp s H) as H'.
  destruct (list_s3_bucket_to_csv fuel b session mp s); cbn in *; auto.
Qed.

Lemma inv_cmd_fetch fuel buckets session mp :
  Forall P (csv_rows (state_of (cmd_fetch fuel buckets session mp))).
Proof.
  unfold cmd_fetch.
  pose proof (inv_buckets fuel session mp buckets (writeheader initial)
                          (Forall_nil P)) as H.
  destruct (for_buckets _ _ _ _ _); cbn in *; auto.
Qed.

End RowInvariant.

(** *** The two filtering rules *)

Lemma rows_grow_neq (l : list Row) (r : Row) : l ++ [r] <> l.
Proof.
  intros H. apply (f_equal (@List.length Row)) in H.
  rewrite length_app in H. cbn in H. lia.
Qed.

Lemma envidat1_candidate_ok url name s content :
  csv_rows (process_content url name s content) = csv_rows s \/
  (csv_rows (process_content url name s content)
   = csv_rows s ++ [candidate url name content] /\
   rule_envidat1 (key (candidate url name content)) = false).
Proof.
  destruct (process_content_cases url name s content)
    as [[_ ->]|[(_ & _ & ->)|(H & _ & ->)]]; cbn; auto.
Qed.

(** C3 -- Rule 1 is global.  An entry whose lower-cased key contains
    ['envidat.1'] is discarded whatever the bucket is: processing it only
    increments the skip counter and writes no row, and no run of the
    crawler over any list of buckets ever leaves a row with that key in
    the CSV. *)
Theorem envidat1_discarded_in_every_bucket :
  forall (url name : string) (content : Element) (k : string),
    _safe_find_text content "Key" = Some k ->
    contains "envidat.1" (lower k) = true ->
    (forall s, process_content url name s content
               = set_skipped_envidat1 (skipped_envidat1 s + 1) s) /\
    (forall s, csv_rows (process_content url name s content) = csv_rows s) /\
    (forall fuel buckets session max_pages,
        Forall (fun r => key r <> Some k)
               (csv_rows (state_of (cmd_fetch fuel buckets session max_pages)))).
Proof.
  intros url name content k Hk Hc.
  assert (Hs : forall s, process_content url name s content
                         = set_skipped_envidat1 (skipped_envidat1 s + 1) s).
  { intros s. unfold process_content; cbn. unfold rule_envidat1.
    now rewrite Hk, Hc. }
  split; [exact Hs|]. split; [intros s; now rewrite Hs|].
  intros fuel buckets session mp.
  eapply Forall_impl;
    [|apply (inv_cmd_fetch (fun r => rule_envidat1 (key r) = false)
                           envidat1_candidate_ok)].
  intros r Hr E. cbn in Hr. rewrite E in Hr. unfold rule_envidat1 in Hr.
  congruence.
Qed.

Lemma envidat1_discarded_witness :
  (forall s, process_content cloud_url "envicloud" s
                             (entry "x/envidat.1.2.3/data.csv")
             = set_skipped_envidat1 (skipped_envidat1 s + 1) s) /\
  (forall s, csv_rows (process_content cloud_url "envicloud" s
                                       (entry "x/envidat.1.2.3/data.csv"))
             = csv_rows s) /\
  (forall fuel buckets session max_pages,
      Forall (fun r => key r <> Some "x/envidat.1.2.3/data.csv")
             (csv_rows (state_of (cmd_fetch fuel buckets session max_pages)))).
Proof.
  apply (envidat1_discarded_in_every_bucket
           cloud_url "envicloud" (entry "x/envidat.1.2.3/data.csv")
           "x/envidat.1.2.3/data.csv"); reflexivity.
Defined.

(** C4 -- Rule 2 is bucket-specific.  An entry that survives Rule 1 and
    whose extension, lower-cased, is .html, .json or .xml is discarded
    exactly when the bucket name is ['envidat-doi']; in that bucket only
    the second skip counter changes, and in every other bucket the
    candidate record is written with all its fields as they were read:
    one row is appended, it names the bucket, each of its other columns
    is the text of the first child of the entry with the tag of that
    column (of the [Owner] child for the two owner columns), the empty
    string when there is no such child, and no skip counter moves. *)
Theorem doi_meta_discarded_only_in_envidat_doi :
  forall (url name : string) (content : Element) (s : State),
    rule_envidat1 (key (candidate url name content)) = false ->
    in_tuple
      (lower (snd (splitext (match key (candidate url name content) with
                             | Some k => k
                             | None => ""
                             end))))
      [".html"; ".json"; ".xml"] = true ->
    (csv_rows (process_content url name s content) = csv_rows s
     <-> name = "envidat-doi") /\
    (name = "envidat-doi" ->
     process_content url name s content
     = set_skipped_doi_meta (skipped_doi_meta s + 1) s) /\
    (name <> "envidat-doi" ->
     process_content url name s content
     = writerow (candidate url name content) s) /\
    (name <> "envidat-doi" ->
     let field := fun (e : Element) (t : string) =>
                    match find e t with
                    | Some child => text child
                    | None => Some ""
                    end in
     exists r,
       csv_rows (process_content url name s content) = csv_rows s ++ [r] /\
       bucket_url r = url /\
       bucket_name r = name /\
       key r = field content "Key" /\
       last_modified r = field content "LastModified" /\
       etag r = field content "ETag" /\
       size r = field content "Size" /\
       storage_class r = field content "StorageClass" /\
       owner_id r = match find content "Owner" with
                    | Some o => field o "ID"
                    | None => Some ""
                    end /\
       owner_display_name r = match find content "Owner" with
                              | Some o => field o "DisplayName"
                              | None => Some ""
                              end /\
       type_ r = field content "Type" /\
       skipped_envidat1 (process_content url name s content)
       = skipped_envidat1 s /\
       skipped_doi_meta (process_content url name s content)
       = skipped_doi_meta s).
Proof.
  intros url name content s HA HB.
  assert (Hdoi : name = "envidat-doi" ->
                 process_content url name s content
                 = set_skipped_doi_meta (skipped_doi_meta s + 1) s).
  { intros ->. unfold process_content; cbv zeta. rewrite HA.
    unfold rule_doi_meta. rewrite String.eqb_refl.
    cbv zeta. now rewrite HB. }
  assert (Hother : name <> "envidat-doi" ->
                   process_content url name s content
                   = writerow (candidate url name content) s).
  { intros Hn. unfold process_content; cbv zeta. rewrite HA.
    unfold rule_doi_meta. apply String.eqb_neq in Hn. now rewrite Hn. }
  split; [split|split; [exact Hdoi|split; [exact Hother|]]].
  - intros Hrows. destruct (String.string_dec name "envidat-doi") as [E|E]; auto.
    rewrite (Hother E) in Hrows. cbn in Hrows.
    now apply rows_grow_neq in Hrows.
  - intros E. now rewrite (Hdoi E).
  - intros Hn field. exists (candidate url name content).
    rewrite (Hother Hn). unfold candidate, _safe_find_text, field.
    cbn [writerow csv_rows bucket_url bucket_name key last_modified etag size
         storage_class owner_id owner_display_name type_ skipped_envidat1
         skipped_doi_meta].
    repeat split; reflexivity.
Qed.

Lemma doi_meta_witness_doi :
  (csv_rows (process_content doi_url "envidat-doi" initial (entry "meta.json"))
   = csv_rows initial) /\
  process_content doi_url "envidat-doi" initial (entry "meta.json")
  = set_skipped_doi_meta (skipped_doi_meta initial + 1) initial /\
  process_content cloud_url "envicloud" initial
                  (entry_with_size "meta.json" "12")
  = writerow (mkRow cloud_url "envicloud" (Some "meta.json") (Some "")
                    (Some "") (Some "12") (Some "") (Some "") (Some "")
                    (Some "")) initial.
Proof.
  destruct (doi_meta_discarded_only_in_envidat_doi
              doi_url "envidat-doi" (entry "meta.json") initial
              eq_refl eq_refl) as (Hiff & Hdoi & _).
  destruct (doi_meta_discarded_only_in_envidat_doi
              cloud_url "envicloud" (entry_with_size "meta.json" "12") initial
              eq_refl eq_refl) as (_ & _ & Hother & _).
  split; [now apply Hiff|]. split; [now apply Hdoi|].
  apply Hother. discriminate.
Defined.

Example meta_json_kept_elsewhere :
  csv_rows (process_content cloud_url (bucket_name_of cloud_url) initial
                            (entry "meta.json"))
  = [mkRow cloud_url "envicloud" (Some "meta.json") (Some "") (Some "")
           (Some "") (Some "") (Some "") (Some "") (Some "")].
Proof. reflexivity. Qed.

Example meta_json_dropped_in_doi :
  csv_rows (process_content doi_url (bucket_name_of doi_url) initial
                            (entry "meta.json")) = [].
Proof. reflexivity. Qed.

(** *** One iteration of the loop *)

Lemma fold_process_rows url name contents : forall s,
  csv_rows (fold_left (process_content url name) contents s)
  = csv_rows s ++ kept url name contents.
Proof.
  unfold kept.
  induction contents as [|c cs IH]; intros s; cbn [fold_left map filter].
  - now rewrite app_nil_r.
  - rewrite IH.
    destruct (process_content_cases url name s c)
      as [[H1 ->]|[(H1 & H2 & ->)|(H1 & H2 & ->)]];
      rewrite H1; try rewrite H2; cbn; auto.
    now rewrite <- app_assoc.
Qed.

Lemma paginate_frame url mp root contents s :
  let s' := step_state (paginate url mp root contents s) in
  requests s' = requests s /\ csv_rows s' = csv_rows s /\
  page_count s' = page_count s + 1.
Proof.
  unfold paginate; cbv zeta.
  destruct (is_truncated root) as [[|]|]; cbn; auto.
  destruct (next_marker root contents) as [m|]; cbn; auto.
  destruct mp as [m'|]; cbn; auto.
  destruct (m' <=? _); cbn; auto.
Qed.

Lemma loop_body_document session url name mp s root :
  session (requests s) (url, params s) = Document root ->
  loop_body session url name mp s
  = paginate url mp root (findall root "Contents")
      (fold_left (process_content url name) (findall root "Contents")
         (logger (InfoGotContents
                    (Z.of_nat (List.length (findall root "Contents")))
                    (page_count s + 1))
                 (send (url, params s) s))).
Proof. intros H. unfold loop_body; cbv zeta. now rewrite H. Qed.

Lemma loop_body_requests session url name mp s :
  requests (step_state (loop_body session url name mp s))
  = requests s ++ [(url, params s)].
Proof.
  unfold loop_body; cbv zeta.
  destruct (session _ _); cbn; auto.
  match goal with |- context [paginate ?u ?m ?r ?c ?st] =>
    destruct (paginate_frame u m r c st) as (-> & _) end.
  match goal with |- context [fold_left ?f ?c ?st] =>
    destruct (fold_process_frame url name c st) as (-> & _) end.
  reflexivity.
Qed.

Lemma loop_body_next_page_count session url name mp s s' :
  loop_body session url name mp s = Next s' ->
  page_count s' = page_count s + 1 /\
  (forall m, mp = Some m -> page_count s + 1 < m).
Proof.
  unfold loop_body; cbv zeta.
  destruct (session _ _) as [| |root]; try discriminate.
  match goal with |- context [fold_left ?f ?c ?st0] =>
    pose proof (fold_process_frame url name c st0) as Hf; cbv zeta in Hf;
    destruct Hf as (_ & _ & _ & Hpc);
    set (st := fold_left f c st0) in *; clearbody st; cbn in Hpc end.
  unfold paginate; cbv zeta.
  destruct (is_truncated root) as [[|]|]; try discriminate.
  destruct (next_marker root _) as [m|]; try discriminate.
  destruct mp as [m'|]; cbn.
  - destruct (m' <=? page_count st + 1) eqn:E; try discriminate.
    apply Z.leb_gt in E.
    intros [= <-]; cbn. split; [lia|]. intros m0 Hm0.
    injection Hm0 as <-. lia.
  - intros [= <-]; cbn. split; [lia|]. discriminate.
Qed.

Lemma while_true_snoc n session url name mp : forall s,
  while_true (S n) session url name mp s
  = match while_true n session url name mp s with
    | Running s1 =>
        match loop_body session url name mp s1 with
        | Next s2 => Running s2
        | Break s2 => Returned s2
        | Raise e s2 => Raised e s2
        end
    | o => o
    end.
Proof.
  induction n as [|n IH]; intros s.
  - cbn. now destruct (loop_body _ _ _ _ _).
  - change (while_true (S (S n)) session url name mp s)
      with (match loop_body session url name mp s with
            | Next s' => while_true (S n) session url name mp s'
            | Break s' => Returned s'
            | Raise e s' => Raised e s'
            end).
    cbn [while_true].
    destruct (loop_body session url name mp s) as [s'| |]; auto.
    apply (IH s').
Qed.

Lemma while_true_bounded session url name m : forall fuel s,
  (1 <= fuel)%nat ->
  m <= page_count s + Z.of_nat fuel ->
  terminated (while_true fuel session url name (Some m) s) = true /\
  (List.length (requests (state_of (while_true fuel session url name (Some m) s)))
   <= List.length (requests s) + fuel)%nat.
Proof.
  induction fuel as [|f IH]; intros s Hf Hm; [lia|].
  cbn [while_true].
  pose proof (loop_body_requests session url name (Some m) s) as Hr.
  destruct (loop_body session url name (Some m) s) as [s'|s'|e s'] eqn:E;
    cbn in Hr |- *.
  - destruct (loop_body_next_page_count _ _ _ _ _ _ E) as [Hpc Hlt].
    specialize (Hlt m eq_refl).
    destruct (IH s') as [Ht Hl]; [lia|lia|].
    split; [exact Ht|]. rewrite Hr, length_app in Hl. cbn in Hl. lia.
  - split; [reflexivity|]. rewrite Hr, length_app. cbn. lia.
  - split; [reflexivity|]. rewrite Hr, length_app. cbn. lia.
Qed.

Lemma endless_never_stops url name : forall fuel s,
  terminated (while_true fuel endless url name None s) = false.
Proof.
  induction fuel as [|f IH]; intros s; [reflexivity|].
  cbn [while_true].
  rewrite (loop_body_document endless url name None s
                              (page "true" [entry "a"]) eq_refl).
  unfold paginate; cbv zeta.
  change (is_truncated (page "true" [entry "a"])) with (Some true).
  change (next_marker (page "true" [entry "a"])
                      (findall (page "true" [entry "a"]) "Contents"))
    with (Some (Some "a")).
  cbv iota beta. apply IH.
Qed.

(** *** Termination of the crawl *)

(** C2, as stated, fails: with no page limit, a remote side that keeps
    answering with a truncated page of one entry keeps the loop going
    for ever; no amount of fuel brings the call to an end. *)
Lemma crawl_may_not_terminate :
  ~ exists fuel,
      terminated (list_s3_bucket_to_csv fuel cloud_url endless None initial)
      = true.
Proof.
  intros [fuel H]. unfold list_s3_bucket_to_csv in H; cbv zeta in H.
  match type of H with context [while_true fuel endless ?u ?n None ?s] =>
    pose proof (endless_never_stops u n fuel s) as E;
    destruct (while_true fuel endless u n None s) end;
    cbn in *; congruence.
Qed.

(** C2, amended -- with a page limit [m] the crawl of a bucket ends
    after at most [max m 1] requests whatever the remote side answers.
    An iteration breaks out of the loop exactly when its page has a
    false truncation flag, or is truncated and yields no marker, or is
    truncated and brings the page count to the limit; and the call ends
    at the first iteration that does not fall through to the next one. *)
Theorem crawl_terminates_with_page_limit :
  (forall session url m s,
      let fuel := Z.to_nat (Z.max m 1) in
      terminated (list_s3_bucket_to_csv fuel url session (Some m) s) = true /\
      (List.length
         (requests (state_of (list_s3_bucket_to_csv fuel url session (Some m) s)))
       <= List.length (requests s) + fuel)%nat) /\
  (forall session url name max_pages s,
      (exists s', loop_body session url name max_pages s = Break s') <->
      (exists root,
          session (requests s) (url, params s) = Document root /\
          (is_truncated root = Some false \/
           (is_truncated root = Some true /\
            next_marker root (findall root "Contents") = None) \/
           (is_truncated root = Some true /\
            exists m, max_pages = Some m /\ m <= page_count s + 1)))) /\
  (forall n session url name max_pages s s1,
      while_true n session url name max_pages s = Running s1 ->
      (forall s2, loop_body session url name max_pages s1 <> Next s2) ->
      terminated (while_true (S n) session url name max_pages s) = true).
Proof.
  split; [|split].
  - intros session url m s fuel.
    unfold list_s3_bucket_to_csv; cbv zeta.
    match goal with |- context [while_true fuel session url ?n (Some m) ?s0] =>
      destruct (while_true_bounded session url n m fuel s0) as [Ht Hl];
      [subst fuel; lia | subst fuel; cbn; lia |];
      destruct (while_true fuel session url n (Some m) s0) end;
      cbn in *; try discriminate; split; auto.
    rewrite log_skipped_requests. exact Hl.
  - intros session url name mp s. split.
    + intros [s' H].
      unfold loop_body in H; cbv zeta in H.
      destruct (session _ _) as [| |root]; try discriminate.
      exists root. split; [reflexivity|].
      match type of H with context [fold_left ?f ?c ?st0] =>
        pose proof (fold_process_frame url name c st0) as Hf; cbv zeta in Hf;
        destruct Hf as (_ & _ & _ & Hpc);
        set (st := fold_left f c st0) in *; clearbody st; cbn in Hpc end.
      unfold paginate in H; cbv zeta in H.
      destruct (is_truncated root) as [[|]|]; try discriminate; auto.
      destruct (next_marker root _) as [mk|]; auto.
      destruct mp as [m|]; try discriminate.
      cbn in H. destruct (m <=? page_count st + 1) eqn:E; try discriminate.
      apply Z.leb_le in E.
      right; right. split; auto. exists m. split; auto. lia.
    + intros (root & Hdoc & Hstop).
      rewrite (loop_body_document _ _ _ _ _ _ Hdoc).
      match goal with |- context [fold_left ?f ?c ?st0] =>
        pose proof (fold_process_frame url name c st0) as Hf; cbv zeta in Hf;
        destruct Hf as (_ & _ & _ & Hpc);
        set (st := fold_left f c st0) in *; clearbody st; cbn in Hpc end.
      unfold paginate; cbv zeta.
      destruct Hstop as [->|[[-> ->]|[-> (m & -> & Hm)]]];
        try (eexists; reflexivity).
      destruct (next_marker root _) as [mk|]; [|eexists; reflexivity].
      cbn. replace (m <=? page_count st + 1) with true
        by (symmetry; apply Z.leb_le; lia).
      eexists; reflexivity.
  - intros n session url name mp s s1 Hrun Hstop.
    rewrite while_true_snoc, Hrun.
    destruct (loop_body session url name mp s1) as [s2| |] eqn:E; auto.
    now elim (Hstop s2).
Qed.

(** *** Pagination control *)

Lemma is_truncated_true root t x :
  find root "IsTruncated" = Some t -> text t = Some x -> lower x = "true" ->
  is_truncated root = Some true.
Proof. intros Ht Hx Hl. unfold is_truncated. now rewrite Ht, Hx, Hl. Qed.

Lemma is_truncated_false root :
  (find root "IsTruncated" = None \/
   exists t x, find root "IsTruncated" = Some t /\ text t = Some x /\
               lower x <> "true") ->
  is_truncated root = Some false.
Proof.
  unfold is_truncated. intros [->|(t & x & -> & -> & Hx)]; auto.
  apply String.eqb_neq in Hx. now rewrite Hx.
Qed.

(** C10 -- a page whose [IsTruncated] element is absent, or has a text
    that differs from ['true'] once lower-cased, ends the crawl of the
    bucket after its rows are written: the iteration breaks, only this
    one request was sent, and the CSV has grown by the rows of the page
    that pass both rules.  Conversely, the loop goes on to a further
    page only if the element is there and its text is ['true'] up to
    case. *)
Theorem stops_unless_truncated_is_true :
  (forall session url name max_pages s root,
      session (requests s) (url, params s) = Document root ->
      (find root "IsTruncated" = None \/
       exists t x, find root "IsTruncated" = Some t /\ text t = Some x /\
                   lower x <> "true") ->
      exists s',
        loop_body session url name max_pages s = Break s' /\
        (forall fuel,
            while_true (S fuel) session url name max_pages s = Returned s') /\
        requests s' = requests s ++ [(url, params s)] /\
        csv_rows s' = csv_rows s ++ kept url name (findall root "Contents") /\
        page_count s' = page_count s + 1) /\
  (forall session url name max_pages s s',
      loop_body session url name max_pages s = Next s' ->
      exists root t x,
        session (requests s) (url, params s) = Document root /\
        find root "IsTruncated" = Some t /\ text t = Some x /\
        lower x = "true").
Proof.
  split.
  - intros session url name mp s root Hdoc Htr.
    apply is_truncated_false in Htr.
    pose proof (loop_body_requests session url name mp s) as Hreq.
    rewrite (loop_body_document _ _ _ _ _ _ Hdoc) in *.
    match goal with |- context [paginate ?u ?m ?r ?c ?st] =>
      destruct (paginate_frame u m r c st) as (_ & Hrows & Hpc);
      cbv zeta in Hrows, Hpc; rewrite fold_process_rows in Hrows;
      destruct (fold_process_frame url name c
                  (logger (InfoGotContents (Z.of_nat (List.length c))
                                           (page_count s + 1))
                          (send (url, params s) s)))
        as (_ & _ & _ & Hpc');
      cbv zeta in Hpc'; rewrite Hpc' in Hpc; cbn in Hrows, Hpc;
      revert Hreq Hrows Hpc; unfold paginate; cbv zeta; rewrite Htr;
      intros Hreq Hrows Hpc end.
    eexists. split; [reflexivity|]. split; [|auto].
    intros fuel. cbn [while_true].
    rewrite (loop_body_document _ _ _ _ _ _ Hdoc).
    unfold paginate; cbv zeta. now rewrite Htr.
  - intros session url name mp s s' H.
    unfold loop_body in H; cbv zeta in H.
    destruct (session _ _) as [| |root]; try discriminate.
    exists root. unfold paginate in H; cbv zeta in H.
    unfold is_truncated in H.
    destruct (find root "IsTruncated") as [t|]; try discriminate.
    destruct (text t) as [x|] eqn:Hx; try discriminate.
    destruct (String.eqb_spec (lower x) "true") as [E|E]; try discriminate.
    now exists t, x.
Qed.

Lemma stops_unless_truncated_witness :
  exists s',
    loop_body (always (page "False" [entry "a"])) cloud_url "envicloud" None
              initial = Break s' /\
    (forall fuel,
        while_true (S fuel) (always (page "False" [entry "a"])) cloud_url
                   "envicloud" None initial = Returned s') /\
    requests s' = requests initial ++ [(cloud_url, params initial)] /\
    csv_rows s'
    = csv_rows initial
      ++ kept cloud_url "envicloud"
              (findall (page "False" [entry "a"]) "Contents") /\
    page_count s' = page_count initial + 1.
Proof.
  destruct stops_unless_truncated_is_true as [H _].
  apply (H (always (page "False" [entry "a"])) cloud_url "envicloud" None
           initial (page "False" [entry "a"])).
  - reflexivity.
  - right. exists (Elem "IsTruncated" (Some "False") []), "False".
    split; [reflexivity|]. split; [reflexivity|]. discriminate.
Defined.

Lemma last_snoc_elem (cs : list Element) (e d : Element) :
  List.last (cs ++ [e]) d = e.
Proof. apply last_last. Qed.

Lemma last_key_marker_snoc cs e :
  last_key_marker (cs ++ [e])
  = Some (match find e "Key" with Some k => text k | None => None end).
Proof.
  unfold last_key_marker.
  destruct (cs ++ [e]) as [|c l] eqn:E.
  - now destruct cs.
  - rewrite <- E, last_snoc_elem. now destruct (find e "Key").
Qed.

Lemma paginate_marker url mp root contents s m :
  is_truncated root = Some true ->
  next_marker root contents = Some m ->
  marker (step_state (paginate url mp root contents s)) = m.
Proof.
  intros Ht Hm. unfold paginate; cbv zeta. rewrite Ht, Hm.
  destruct mp as [mp|]; cbn; auto.
  destruct (mp <=? _); reflexivity.
Qed.

(** C7 -- after a page whose truncation flag is true, the marker is the
    text of [<NextMarker>] when that element is present and not empty,
    and otherwise the [Key] of the last entry of the page; when the loop
    goes on, the next request carries that marker. *)
Theorem next_request_uses_next_marker_or_last_key :
  forall session url name max_pages s root t x,
    session (requests s) (url, params s) = Document root ->
    find root "IsTruncated" = Some t -> text t = Some x ->
    lower x = "true" ->
    (forall tm m,
        find root "NextMarker" = Some tm -> text tm = Some m -> m <> "" ->
        marker (step_state (loop_body session url name max_pages s)) = Some m) /\
    (forall cs e,
        (find root "NextMarker" = None \/
         exists tm, find root "NextMarker" = Some tm /\
                    (text tm = None \/ text tm = Some "")) ->
        findall root "Contents" = cs ++ [e] ->
        marker (step_state (loop_body session url name max_pages s))
        = match find e "Key" with Some k => text k | None => None end) /\
    (forall s' m,
        loop_body session url name max_pages s = Next s' ->
        marker s' = Some m -> m <> "" ->
        requests (step_state (loop_body session url name max_pages s'))
        = requests s ++ [(url, params s); (url, Some m)]).
Proof.
  intros session url name mp s root t x Hdoc Ht Hx Hl.
  pose proof (is_truncated_true root t x Ht Hx Hl) as Htr.
  rewrite (loop_body_document _ _ _ _ _ _ Hdoc).
  split; [|split].
  - intros tm m Htm Hm Hne. apply paginate_marker; auto.
    unfold next_marker. rewrite Htm, Hm. cbn.
    apply String.eqb_neq in Hne. now rewrite Hne.
  - intros cs e Hnm Hcs. apply paginate_marker; auto.
    unfold next_marker. rewrite Hcs.
    destruct Hnm as [->|(tm & -> & [->| ->])]; cbn [truthy];
      try rewrite String.eqb_refl; cbn [negb];
      apply last_key_marker_snoc.
  - intros s' m Hnext Hm Hne.
    rewrite loop_body_requests.
    pose proof (loop_body_requests session url name mp s) as Hr.
    rewrite (loop_body_document _ _ _ _ _ _ Hdoc), Hnext in Hr.
    cbn in Hr. rewrite Hr, <- app_assoc. cbn.
    unfold params. rewrite Hm. cbn.
    apply String.eqb_neq in Hne. now rewrite Hne.
Qed.

Lemma next_request_witness :
  (forall tm m,
      find (page "true" [entry "a"; entry "b"]) "NextMarker" = Some tm ->
      text tm = Some m -> m <> "" ->
      marker (step_state (loop_body (always (page "true" [entry "a"; entry "b"]))
                                  cloud_url "envicloud" None initial))
      = Some m) /\
  (forall cs e,
      (find (page "true" [entry "a"; entry "b"]) "NextMarker" = None \/
       exists tm, find (page "true" [entry "a"; entry "b"]) "NextMarker"
                  = Some tm /\ (text tm = None \/ text tm = Some "")) ->
      findall (page "true" [entry "a"; entry "b"]) "Contents" = cs ++ [e] ->
      marker (step_state (loop_body (always (page "true" [entry "a"; entry "b"]))
                                  cloud_url "envicloud" None initial))
      = match find e "Key" with Some k => text k | None => None end) /\
  (forall s' m,
      loop_body (always (page "true" [entry "a"; entry "b"]))
                                  cloud_url "envicloud" None initial = Next s' ->
      marker s' = Some m -> m <> "" ->
      requests (step_state (loop_body (always (page "true" [entry "a"; entry "b"]))
                                  cloud_url "envicloud" None s'))
      = requests initial ++ [(cloud_url, params initial); (cloud_url, Some m)]).
Proof.
  apply (next_request_uses_next_marker_or_last_key
           (always (page "true" [entry "a"; entry "b"])) cloud_url "envicloud"
           None initial (page "true" [entry "a"; entry "b"])
           (Elem "IsTruncated" (Some "true") []) "true"); reflexivity.
Defined.

Example fallback_cursor_is_b :
  let session := always (page "true" [entry "a"; entry "b"]) in
  exists s',
    loop_body session cloud_url "envicloud" None initial = Next s' /\
    marker s' = Some "b" /\
    requests (step_state (loop_body session cloud_url "envicloud" None s'))
    = [(cloud_url, None); (cloud_url, Some "b")].
Proof. eexists. repeat split. Qed.

(** *** The no-progress guard *)



(** *** The size column *)

(** C9, as stated, fails: a [Size] that is not a number is written to
    the CSV as it is, and a missing [Size] is written as the empty
    string; neither is turned into 0. *)
Lemma size_written_unnormalised :
  map size (csv_rows (state_of
     (cmd_fetch 1 [cloud_url]
                (always (page "false" [entry_with_size "a.txt" "abc";
                                       entry "b.txt"])) None)))
  = [Some "abc"; Some ""] /\
  ~ (forall fuel buckets session max_pages,
        Forall (fun r => decimal (size r) = true)
               (csv_rows (state_of (cmd_fetch fuel buckets session max_pages)))).
Proof.
  split; [reflexivity|].
  intros H.
  specialize (H 1%nat [cloud_url]
                (always (page "false" [entry_with_size "a.txt" "abc";
                                       entry "b.txt"])) None).
  vm_compute in H. inversion H as [|? ? Hd _]. discriminate Hd.
Qed.

(** Every row of the CSV is the record of an entry that was received. *)
Lemma received_more session reqs qs r :
  received session reqs r -> received session (reqs ++ qs) r.
Proof.
  intros (h & q & t & root & content & -> & H).
  exists h, q, (t ++ qs), root, content. split; [|exact H].
  now rewrite <- app_assoc.
Qed.

Lemma kept_received session url s root :
  session (requests s) (url, params s) = Document root ->
  Forall (received session (requests s ++ [(url, params s)]))
         (kept url (bucket_name_of url) (findall root "Contents")).
Proof.
  intros Hdoc. apply Forall_forall. intros r Hr. unfold kept in Hr.
  apply filter_In in Hr as [Hr _].
  apply in_map_iff in Hr as (content & <- & Hc).
  now exists (requests s), (url, params s), [], root, content.
Qed.

Lemma loop_body_received session url mp s :
  Forall (received session (requests s)) (csv_rows s) ->
  Forall (received session
            (requests (step_state
                         (loop_body session url (bucket_name_of url) mp s))))
         (csv_rows (step_state
                      (loop_body session url (bucket_name_of url) mp s))).
Proof.
  intros H. rewrite loop_body_requests.
  assert (H' : Forall (received session (requests s ++ [(url, params s)]))
                      (csv_rows s)).
  { eapply Forall_impl; [|exact H]. intros r. apply received_more. }
  destruct (session (requests s) (url, params s)) as [| |root] eqn:Hdoc.
  - unfold loop_body; cbv zeta. now rewrite Hdoc.
  - unfold loop_body; cbv zeta. now rewrite Hdoc.
  - rewrite (loop_body_document _ _ _ _ _ _ Hdoc).
    match goal with |- context [paginate ?u ?m ?r ?c ?st] =>
      destruct (paginate_frame u m r c st) as (_ & Hrows & _);
      cbv zeta in Hrows; rewrite Hrows end.
    rewrite fold_process_rows. apply Forall_app. split; [exact H'|].
    now apply kept_received.
Qed.

Lemma while_true_received fuel session url mp : forall s,
  Forall (received session (requests s)) (csv_rows s) ->
  Forall (received session
            (requests (state_of
                         (while_true fuel session url (bucket_name_of url) mp s))))
         (csv_rows (state_of
                      (while_true fuel session url (bucket_name_of url) mp s))).
Proof.
  induction fuel as [|f IH]; intros s H; [exact H|]. cbn [while_true].
  pose proof (loop_body_received session url mp s H) as H'.
  destruct (loop_body session url (bucket_name_of url) mp s);
    cbn [step_state state_of] in *; auto.
Qed.

Lemma bucket_received fuel url session mp s :
  Forall (received session (requests s)) (csv_rows s) ->
  Forall (received session
            (requests (state_of (list_s3_bucket_to_csv fuel url session mp s))))
         (csv_rows (state_of (list_s3_bucket_to_csv fuel url session mp s))).
Proof.
  intros H. unfold list_s3_bucket_to_csv; cbv zeta.
  set (s0 := set_skipped_doi_meta 0 _).
  pose proof (while_true_received fuel session url mp s0 H) as H'.
  destruct (while_true fuel session url (bucket_name_of url) mp s0);
    cbn [state_of] in *; auto.
  cbn. now rewrite log_skipped_rows, log_skipped_requests.
Qed.

Lemma buckets_received fuel session mp buckets : forall s,
  Forall (received session (requests s)) (csv_rows s) ->
  Forall (received session
            (requests (state_of (for_buckets fuel buckets session mp s))))
         (csv_rows (state_of (for_buckets fuel buckets session mp s))).
Proof.
  induction buckets as [|b bs IH]; intros s H; cbn [for_buckets]; auto.
  pose proof (bucket_received fuel b session mp s H) as H'.
  destruct (list_s3_bucket_to_csv fuel b session mp s);
    cbn [state_of] in *; auto.
Qed.

Lemma cmd_fetch_received fuel buckets session mp :
  Forall (received session
            (requests (state_of (cmd_fetch fuel buckets session mp))))
         (csv_rows (state_of (cmd_fetch fuel buckets session mp))).
Proof.
  unfold cmd_fetch.
  pose proof (buckets_received fuel session mp buckets (writeheader initial)
                               (Forall_nil _)) as H.
  destruct (for_buckets _ _ _ _ _); cbn [state_of] in *; auto.
Qed.

(** C9, amended -- the record carries the text of the [Size] element
    unchanged: the empty string when the element is missing, its text
    otherwise; the crawler does not parse it.  A processed entry either
    writes no row or appends exactly that candidate record, and so every
    row that a run of the crawler leaves in the CSV is the record of an
    entry of a page received in that run, with the text of the [Size]
    element of that entry as its size. *)
Theorem size_is_the_size_text :
  (forall url name content,
      find content "Size" = None ->
      size (candidate url name content) = Some "") /\
  (forall url name content e,
      find content "Size" = Some e ->
      size (candidate url name content) = text e) /\
  (forall url name s content,
      csv_rows (process_content url name s content) = csv_rows s \/
      csv_rows (process_content url name s content)
      = csv_rows s ++ [candidate url name content]) /\
  (forall fuel buckets session max_pages,
      Forall (fun r =>
                exists h q t root content,
                  requests (state_of (cmd_fetch fuel buckets session max_pages))
                  = h ++ q :: t /\
                  session h q = Document root /\
                  In content (findall root "Contents") /\
                  r = candidate (fst q) (bucket_name_of (fst q)) content /\
                  size r = match find content "Size" with
                           | Some e => text e
                           | None => Some ""
                           end)
             (csv_rows (state_of (cmd_fetch fuel buckets session max_pages)))).
Proof.
  split; [|split; [|split]].
  - intros url name content H. cbn. unfold _safe_find_text. now rewrite H.
  - intros url name content e H. cbn. unfold _safe_find_text. now rewrite H.
  - intros url name s content.
    destruct (process_content_cases url name s content)
      as [[_ ->]|[(_ & _ & ->)|(_ & _ & ->)]]; cbn; auto.
  - intros fuel buckets session mp.
    eapply Forall_impl; [|apply cmd_fetch_received].
    intros r (h & q & t & root & content & E & Hdoc & Hin & ->).
    exists h, q, t, root, content. repeat split; auto.
Qed.

Lemma size_is_the_size_text_witness :
  size (candidate cloud_url "envicloud" (entry "b.txt")) = Some "" /\
  size (candidate cloud_url "envicloud" (entry_with_size "a.txt" "abc"))
  = Some "abc".
Proof.
  destruct size_is_the_size_text as (Hnone & Hsome & _). split.
  - apply (Hnone cloud_url "envicloud" (entry "b.txt")). reflexivity.
  - apply (Hsome cloud_url "envicloud" (entry_with_size "a.txt" "abc")
                 (Elem "Size" (Some "abc") [])). reflexivity.
Defined.

End CrawlerFacts.


(* ================================================================== *)
(** * Properties of the aggregation *)

Module AggregatorFacts.
Import PyStr OsPath Aggregator Samples.

(** *** Strings: characters, [rfind] and slices *)

Lemma has_char_app c a b :
  has_char c (a ++ b) = has_char c a || has_char c b.
Proof.
  induction a as [|x a IH]; cbn; auto. rewrite IH. now rewrite orb_assoc.
Qed.

Lemma length_app_str a b :
  String.length (a ++ b) = (String.length a + String.length b)%nat.
Proof. induction a as [|x a IH]; cbn; auto. Qed.

Lemma app_assoc_str (a b c : string) : ((a ++ b) ++ c)%string = (a ++ b ++ c)%string.
Proof. induction a as [|x a IH]; cbn; auto. now rewrite IH. Qed.

Lemma rfind_bounds c s : -1 <= rfind c s < Z.of_nat (String.length s).
Proof.
  induction s as [|a s IH]; cbn [rfind String.length]; [lia|].
  destruct (0 <=? rfind c s) eqn:E; [apply Z.leb_le in E; lia|].
  destruct (Ascii.eqb a c); lia.
Qed.

Lemma rfind_absent c s : has_char c s = false -> rfind c s = -1.
Proof.
  induction s as [|a s IH]; cbn; auto.
  intros H. apply orb_false_iff in H as [Ha Hs].
  rewrite (IH Hs), Ha. reflexivity.
Qed.

Lemma rfind_last c pre suf :
  has_char c suf = false ->
  rfind c (pre ++ String c suf) = Z.of_nat (String.length pre).
Proof.
  intros H. induction pre as [|a pre IH].
  - cbn. rewrite (rfind_absent _ _ H). cbn. now rewrite Ascii.eqb_refl.
  - cbn [append rfind String.length]. rewrite IH.
    destruct (0 <=? Z.of_nat (String.length pre)) eqn:E; [lia|].
    apply Z.leb_gt in E. lia.
Qed.

Lemma drop_after_rfind c s :
  has_char c (drop (Z.to_nat (rfind c s + 1)) s) = false.
Proof.
  induction s as [|a s IH]; [reflexivity|].
  cbn [rfind]. pose proof (rfind_bounds c s) as Hb.
  destruct (0 <=? rfind c s) eqn:E.
  - apply Z.leb_le in E.
    replace (Z.to_nat (rfind c s + 1 + 1)) with (S (Z.to_nat (rfind c s + 1)))
      by lia.
    exact IH.
  - apply Z.leb_gt in E. assert (Hr : rfind c s = -1) by lia.
    rewrite Hr in IH. cbn in IH.
    destruct (Ascii.eqb a c) eqn:Ea; cbn; [destruct s; exact IH|].
    rewrite Ea. destruct s; exact IH.
Qed.

Lemma has_char_drop c n : forall s,
  has_char c (drop n s) = true -> has_char c s = true.
Proof.
  induction n as [|n IH]; intros [|a s]; cbn; auto.
  intros H. rewrite (IH _ H). apply orb_true_r.
Qed.

Lemma slice_bound_of_nat s (i : nat) :
  (i <= String.length s)%nat -> slice_bound s (Z.of_nat i) = i.
Proof.
  intros H. unfold slice_bound.
  destruct (Z.of_nat i <? 0) eqn:E; [apply Z.ltb_lt in E; lia|]. lia.
Qed.

Lemma drop_app_length a b : drop (String.length a) (a ++ b) = b.
Proof. induction a as [|x a IH]; cbn; auto. Qed.

Lemma take_app_length a b : take (String.length a) (a ++ b) = a.
Proof. induction a as [|x a IH]; cbn; [now destruct b|now rewrite IH]. Qed.

Lemma slice_one pre c rest :
  slice (pre ++ String c rest) (Z.of_nat (String.length pre))
        (Z.of_nat (String.length pre) + 1)
  = String c EmptyString.
Proof.
  unfold slice.
  replace (Z.of_nat (String.length pre) + 1)
    with (Z.of_nat (S (String.length pre))) by lia.
  rewrite !slice_bound_of_nat
    by (rewrite length_app_str; cbn [String.length]; lia).
  replace (S (String.length pre) - String.length pre)%nat with 1%nat by lia.
  rewrite drop_app_length. reflexivity.
Qed.

Lemma slice_to_zero s : slice_to s 0 = EmptyString.
Proof.
  unfold slice_to, slice_bound. cbn [Z.ltb Z.compare].
  replace (Z.to_nat (Z.min 0 (Z.of_nat (String.length s)))) with 0%nat by lia.
  now destruct s.
Qed.

Lemma basename_has_no_sep k : has_char "/" (basename k) = false.
Proof.
  unfold basename, slice_from, slice_bound.
  pose proof (rfind_bounds "/" k) as Hb.
  destruct (rfind "/" k + 1 <? 0) eqn:E; [apply Z.ltb_lt in E; lia|].
  rewrite Z.min_l by lia. apply drop_after_rfind.
Qed.

Lemma basename_chars c k :
  has_char c (basename k) = true -> has_char c k = true.
Proof. unfold basename, slice_from. apply has_char_drop. Qed.

(** *** [strip] keeps what is not white space *)

Lemma has_char_lstrip c s :
  is_space c = false -> has_char c s = true -> has_char c (lstrip s) = true.
Proof.
  intros Hc. induction s as [|a s IH]; cbn; auto.
  destruct (is_space a) eqn:Ea; [|now cbn].
  destruct (Ascii.eqb_spec a c) as [->|_]; [congruence|]. cbn. exact IH.
Qed.

Lemma has_char_rstrip c s :
  is_space c = false -> has_char c s = true -> has_char c (rstrip s) = true.
Proof.
  intros Hc. induction s as [|a s IH]; cbn; auto.
  destruct (Ascii.eqb_spec a c) as [->|Hn]; cbn.
  - intros _. destruct (rstrip s); [rewrite Hc|]; cbn;
      now rewrite Ascii.eqb_refl.
  - intros H. specialize (IH H).
    destruct (rstrip s) as [|b r]; [discriminate IH|].
    cbn [has_char] in *. rewrite IH. apply orb_true_r.
Qed.

Lemma strip_not_empty c s :
  is_space c = false -> has_char c s = true -> strip s <> EmptyString.
Proof.
  intros Hc Hs E. unfold strip in E.
  pose proof (has_char_rstrip c _ Hc (has_char_lstrip c s Hc Hs)) as H.
  rewrite E in H. discriminate H.
Qed.

(** *** [splitext] on a name without a separator *)

Lemma snoc_app_str pre a rest :
  (pre ++ String a rest)%string = ((pre ++ String a EmptyString) ++ rest)%string.
Proof. now rewrite app_assoc_str. Qed.

Lemma scan_in_dots : forall n pre l rest,
  all_char "." l = true ->
  splitext_scan n (pre ++ l ++ rest) (Z.of_nat (String.length pre))
                (Z.of_nat (String.length pre + String.length l))
  = ((pre ++ l ++ rest)%string, EmptyString).
Proof.
  induction n as [|n IH]; intros pre l rest Hl; cbn [splitext_scan];
    [now rewrite slice_to_zero|].
  destruct (Z.of_nat (String.length pre)
            <? Z.of_nat (String.length pre + String.length l)) eqn:E;
    [|now rewrite slice_to_zero].
  apply Z.ltb_lt in E.
  destruct l as [|a l]; [cbn in E; lia|].
  cbn in Hl. apply andb_true_iff in Hl as [Ha Hl].
  apply Ascii.eqb_eq in Ha. subst a.
  cbn [append]. rewrite slice_one. cbn [String.eqb Ascii.eqb negb].
  change ("." =? ".")%string with true. cbn [negb].
  rewrite (snoc_app_str pre "." (l ++ rest)).
  replace (Z.of_nat (String.length pre) + 1)
    with (Z.of_nat (String.length (pre ++ String "." EmptyString)))
    by (rewrite length_app_str; cbn; lia).
  replace (String.length pre + String.length (String "." l))%nat
    with (String.length (pre ++ String "." EmptyString) + String.length l)%nat
    by (rewrite length_app_str; cbn; lia).
  now apply IH.
Qed.

Lemma scan_hits : forall l n pre c r D,
  all_char "." l = true -> c <> "."%char ->
  (String.length l < n)%nat ->
  Z.of_nat (String.length pre + String.length l) < D ->
  splitext_scan n (pre ++ l ++ String c r) (Z.of_nat (String.length pre)) D
  = (slice_to (pre ++ l ++ String c r) D, slice_from (pre ++ l ++ String c r) D).
Proof.
  induction l as [|a l IH]; intros n pre c r D Hl Hc Hn HD;
    (destruct n as [|n]; [cbn in Hn; lia|]); cbn [splitext_scan].
  - cbn in HD. replace (Z.of_nat (String.length pre) <? D) with true
      by (symmetry; apply Z.ltb_lt; lia).
    cbn [append]. rewrite slice_one.
    destruct (String.eqb_spec (String c EmptyString) ".") as [E|E];
      [injection E as ->; now elim Hc|reflexivity].
  - cbn in Hl. apply andb_true_iff in Hl as [Ha Hl].
    apply Ascii.eqb_eq in Ha. subst a.
    replace (Z.of_nat (String.length pre) <? D) with true
      by (symmetry; apply Z.ltb_lt; lia).
    cbn [append]. rewrite slice_one.
    change ("." =? ".")%string with true. cbn [negb].
    rewrite (snoc_app_str pre "." (l ++ String c r)).
    replace (Z.of_nat (String.length pre) + 1)
      with (Z.of_nat (String.length (pre ++ String "." EmptyString)))
      by (rewrite length_app_str; cbn; lia).
    apply IH; auto.
    + cbn in Hn. lia.
    + rewrite length_app_str. cbn in *. lia.
Qed.

Lemma first_other_char c : forall s,
  all_char c s = false ->
  exists l a r, s = (l ++ String a r)%string /\ all_char c l = true /\ a <> c.
Proof.
  induction s as [|x s IH]; cbn; [discriminate|].
  destruct (Ascii.eqb_spec x c) as [->|Hx]; cbn.
  - intros H. destruct (IH H) as (l & a & r & -> & Hl & Ha).
    exists (String c l), a, r. cbn. rewrite Ascii.eqb_refl, Hl. auto.
  - intros _. exists EmptyString, x, s. auto.
Qed.

Lemma splitext_by_last_dot base pre suf :
  has_char "/" base = false ->
  base = (pre ++ String "." suf)%string ->
  has_char "." suf = false ->
  snd (splitext base)
  = if all_char "." pre then EmptyString else String "." suf.
Proof.
  intros Hsep -> Hsuf. unfold splitext.
  rewrite (rfind_absent _ _ Hsep), (rfind_last "." pre suf Hsuf).
  replace (-1 <? Z.of_nat (String.length pre)) with true
    by (symmetry; apply Z.ltb_lt; lia).
  change (-1 + 1) with (Z.of_nat 0).
  destruct (all_char "." pre) eqn:Hpre.
  - pose proof (scan_in_dots (String.length (pre ++ String "." suf))
                             EmptyString pre (String "." suf) Hpre) as H.
    cbn [append String.length Nat.add] in H. now rewrite H.
  - destruct (first_other_char _ _ Hpre) as (l & a & r & -> & Hl & Ha).
    pose proof (scan_hits l (String.length ((l ++ String a r) ++ String "." suf))
                          EmptyString a (r ++ String "." suf)
                          (Z.of_nat (String.length (l ++ String a r)))
                          Hl Ha) as H.
    cbn [append String.length Nat.add] in H.
    rewrite !app_assoc_str. cbn [append]. rewrite !app_assoc_str in H.
    cbn [append] in H. rewrite H.
    + cbn [snd]. unfold slice_from.
      replace (l ++ String a (r ++ String "." suf))%string
        with ((l ++ String a r) ++ String "." suf)%string
        by (now rewrite app_assoc_str).
      rewrite slice_bound_of_nat
        by (rewrite (length_app_str (l ++ String a r)); lia).
      apply drop_app_length.
    + rewrite !length_app_str. cbn. rewrite !length_app_str. cbn. lia.
    + rewrite length_app_str. cbn. lia.
Qed.

(** *** The extension label *)

(** C6, as stated, fails: the basename of a dot-file contains a ['.'],
    but its label is ['<no_ext>'] and not the suffix from that dot. *)
Lemma dotfile_has_no_ext :
  basename "data/.gitignore" = ".gitignore" /\
  has_char "." (basename "data/.gitignore") = true /\
  get_ext (Some "data/.gitignore") = "<no_ext>" /\
  get_ext (Some "data/.gitignore") <> lower ".gitignore".
Proof. repeat split. discriminate. Qed.

(** C6, amended -- the label is computed from the basename of the key.
    A missing or empty key, and a basename without ['.'], give
    ['<no_ext>'].  When the basename has a ['.'], write it as
    [pre ++ "." ++ suf] with no ['.'] in [suf]: the label is ['<no_ext>']
    if [pre] is empty or made of dots only (a dot-file), and otherwise the
    lower-cased suffix ["." ++ suf] that starts at the last dot. *)
Theorem get_ext_by_last_dot :
  get_ext None = "<no_ext>" /\
  get_ext (Some "") = "<no_ext>" /\
  (forall k, has_char "." (basename k) = false ->
             get_ext (Some k) = "<no_ext>") /\
  (forall k pre suf,
      basename k = (pre ++ String "." suf)%string ->
      has_char "." suf = false ->
      get_ext (Some k)
      = if all_char "." pre then "<no_ext>" else lower (String "." suf)) /\
  get_ext (Some "data/readme") = "<no_ext>" /\
  get_ext (Some "a/b.c.TAR.GZ") = ".gz".
Proof.
  split; [reflexivity|]. split; [reflexivity|].
  split; [|split; [|split; reflexivity]].
  - intros k H. unfold get_ext. rewrite H. cbn.
    now destruct (strip k =? "")%string.
  - intros k pre suf Hb Hsuf.
    assert (Hdot : has_char "." (basename k) = true).
    { rewrite Hb, has_char_app. cbn. apply orb_true_r. }
    unfold get_ext.
    destruct (String.eqb_spec (strip k) "") as [E|_].
    { exfalso. revert E. apply (strip_not_empty ".");
        [reflexivity|now apply basename_chars]. }
    rewrite Hdot. cbn [negb].
    rewrite (splitext_by_last_dot (basename k) pre suf
               (basename_has_no_sep k) Hb Hsuf).
    destruct (all_char "." pre); reflexivity.
Qed.

Lemma get_ext_by_last_dot_witness :
  get_ext (Some "x/report.final.PDF")
  = (if all_char "." "report.final" then "<no_ext>" else lower ".PDF") /\
  get_ext (Some "x/..rc")
  = (if all_char "." "." then "<no_ext>" else lower ".rc") /\
  get_ext (Some "x/README") = "<no_ext>".
Proof.
  destruct get_ext_by_last_dot as (_ & _ & Hnone & Hdot & _).
  split; [|split].
  - apply (Hdot "x/report.final.PDF" "report.final" "PDF"); reflexivity.
  - apply (Hdot "x/..rc" "." "rc"); reflexivity.
  - apply (Hnone "x/README"). reflexivity.
Defined.

(** *** int64 sums without overflow *)

Lemma wrap64_small z : - 2 ^ 63 <= z < 2 ^ 63 -> wrap64 z = z.
Proof. intros H. unfold wrap64. rewrite Z.mod_small; lia. Qed.

Lemma total_nonneg l : Forall (fun v => 0 <= v) l -> 0 <= total l.
Proof. induction 1; cbn; lia. Qed.

Lemma fold_add64_exact : forall l acc,
  Forall (fun v => 0 <= v) l -> 0 <= acc -> acc + total l < 2 ^ 63 ->
  fold_left add64 l acc = acc + total l.
Proof.
  induction l as [|v l IH]; intros acc Hl Hacc Hlt; cbn; [lia|].
  inversion Hl as [|? ? Hv Hl']; subst. cbn in Hlt.
  pose proof (total_nonneg l Hl') as Ht.
  unfold add64 at 2. rewrite wrap64_small by lia.
  rewrite IH; auto; lia.
Qed.

Lemma sum64_exact l :
  Forall (fun v => 0 <= v) l -> total l < 2 ^ 63 -> sum64 l = total l.
Proof. intros Hl Hlt. unfold sum64. rewrite fold_add64_exact; auto; lia. Qed.

Lemma total_app a b : total (a ++ b) = total a + total b.
Proof. induction a as [|x a IH]; cbn; lia. Qed.

Lemma total_perm a b : Permutation a b -> total a = total b.
Proof. induction 1; cbn; lia. Qed.

Lemma total_ones {A : Type} (l : list A) :
  total (map (fun _ => 1) l) = Z.of_nat (List.length l).
Proof. induction l as [|x l IH]; cbn [map total List.length]; lia. Qed.

Section Metric.
Context {R : Type} (f : R -> Z).

Lemma nonneg_on_filter p l : nonneg_on f l -> nonneg_on f (filter p l).
Proof.
  unfold nonneg_on. rewrite !Forall_forall. intros H r Hr.
  apply filter_In in Hr as [Hr _]. auto.
Qed.

Lemma metric_nonneg l : nonneg_on f l -> 0 <= total (map f l).
Proof. induction 1; cbn; lia. Qed.

Lemma metric_filter_le p l :
  nonneg_on f l -> total (map f (filter p l)) <= total (map f l).
Proof.
  induction 1 as [|r l Hr Hl IH]; cbn; [lia|].
  destruct (p r); cbn; lia.
Qed.

Lemma metric_sum64 l :
  nonneg_on f l -> total (map f l) < 2 ^ 63 -> sum64 (map f l) = total (map f l).
Proof.
  intros Hl H. apply sum64_exact; auto.
  apply Forall_forall. intros v Hv.
  apply in_map_iff in Hv as (r & <- & Hr).
  unfold nonneg_on in Hl. rewrite Forall_forall in Hl. auto.
Qed.

Lemma group_sum64 p l :
  nonneg_on f l -> total (map f l) < 2 ^ 63 ->
  sum64 (map f (filter p l)) = total (map f (filter p l)).
Proof.
  intros Hl H. apply metric_sum64; [now apply nonneg_on_filter|].
  pose proof (metric_filter_le p l Hl). lia.
Qed.

End Metric.

(** *** groupby: every row with a key is in exactly one group *)

Lemma total_zeros {A : Type} (l : list A) : total (map (fun _ => 0) l) = 0.
Proof. induction l as [|x l IH]; cbn; lia. Qed.

Lemma total_map_add {A : Type} (a b : A -> Z) (l : list A) :
  total (map (fun x => a x + b x) l) = total (map a l) + total (map b l).
Proof. induction l as [|x l IH]; cbn; lia. Qed.

Section GroupFacts.
Context {R K : Type} (eqb : K -> K -> bool) (leb : K -> K -> bool).
Hypothesis eqb_eq : forall a b, eqb a b = true <-> a = b.

Lemma insert_key_perm k l : Permutation (insert_key leb k l) (k :: l).
Proof.
  induction l as [|x l IH]; cbn; auto.
  destruct (leb k x); auto.
  eapply perm_trans; [apply perm_skip, IH|apply perm_swap].
Qed.

Lemma sort_keys_perm l : Permutation (sort_keys leb l) l.
Proof.
  induction l as [|x l IH]; cbn; auto.
  eapply perm_trans; [apply insert_key_perm|now apply perm_skip].
Qed.

Lemma existsb_eqb_in k l : existsb (eqb k) l = true <-> In k l.
Proof.
  rewrite existsb_exists. split.
  - intros (x & Hx & E). apply eqb_eq in E. now subst.
  - intros H. exists k. split; auto. now apply eqb_eq.
Qed.

Lemma unique_in k l : In k (unique eqb l) <-> In k l.
Proof.
  induction l as [|x l IH]; cbn; [tauto|].
  destruct (existsb (eqb x) l) eqn:E.
  - apply existsb_eqb_in in E. rewrite IH. split; auto.
    intros [<-|H]; auto.
  - cbn. now rewrite IH.
Qed.

Lemma unique_nodup l : NoDup (unique eqb l).
Proof.
  induction l as [|x l IH]; cbn; [constructor|].
  destruct (existsb (eqb x) l) eqn:E; auto.
  constructor; auto. rewrite unique_in. intros H.
  apply existsb_eqb_in in H. congruence.
Qed.

Lemma keys_of_in (key : R -> option K) rows r k :
  In r rows -> key r = Some k -> In k (keys_of key rows).
Proof.
  induction rows as [|x rows IH]; cbn; [tauto|].
  intros [->|H] Hk.
  - rewrite Hk. now left.
  - destruct (key x); [right|]; auto.
Qed.

Lemma group_keys_nodup (key : R -> option K) rows :
  NoDup (group_keys eqb leb key rows).
Proof.
  unfold group_keys.
  eapply Permutation_NoDup;
    [apply Permutation_sym, sort_keys_perm|apply unique_nodup].
Qed.

Lemma group_keys_cover (key : R -> option K) rows r k :
  In r rows -> key r = Some k -> In k (group_keys eqb leb key rows).
Proof.
  intros Hr Hk. unfold group_keys.
  eapply Permutation_in; [apply Permutation_sym, sort_keys_perm|].
  apply unique_in. eapply keys_of_in; eauto.
Qed.

Lemma pick_none ks k0 v :
  ~ In k0 ks -> total (map (fun k => if eqb k0 k then v else 0) ks) = 0.
Proof.
  induction ks as [|k ks IH]; cbn; auto. intros H.
  destruct (eqb k0 k) eqn:E; [apply eqb_eq in E; subst; tauto|].
  rewrite IH; tauto.
Qed.

Lemma pick_one ks k0 v :
  NoDup ks -> In k0 ks ->
  total (map (fun k => if eqb k0 k then v else 0) ks) = v.
Proof.
  induction 1 as [|k ks Hk Hnd IH]; cbn; [tauto|].
  intros [->|Hin].
  - replace (eqb k0 k0) with true by (symmetry; now apply eqb_eq).
    rewrite pick_none; auto; lia.
  - destruct (eqb k0 k) eqn:E; [apply eqb_eq in E; subst; tauto|].
    rewrite IH; auto.
Qed.

Variable f : R -> Z.
Variable key : R -> option K.

(** The sum over the groups is the sum over the rows that have a key. *)
Lemma group_total ks :
  NoDup ks ->
  forall rows,
    (forall r k, In r rows -> key r = Some k -> In k ks) ->
    total (map (fun k => total (map f (filter (in_group eqb key k) rows))) ks)
    = total (map f (filter (has_key key) rows)).
Proof.
  intros Hnd. induction rows as [|r rows IH]; intros Hcover.
  - cbn. apply total_zeros.
  - rewrite (map_ext _
        (fun k => (if in_group eqb key k r then f r else 0)
                  + total (map f (filter (in_group eqb key k) rows)))).
    2:{ intros k. cbn [filter]. now destruct (in_group eqb key k r). }
    rewrite total_map_add, IH by (intros; eapply Hcover; eauto; now right).
    cbn [filter]. unfold has_key at 2, in_group.
    destruct (key r) as [k0|] eqn:Hk; cbn [map total].
    + rewrite pick_one; auto. eapply Hcover; eauto. now left.
    + rewrite total_zeros. lia.
Qed.

Lemma groupby_keys rows :
  map fst (groupby eqb leb key rows) = group_keys eqb leb key rows.
Proof. unfold groupby. rewrite map_map. cbn. apply map_id. Qed.

Lemma aggregate_in agg rows k v :
  In (k, v) (aggregate agg (groupby eqb leb key rows)) ->
  In k (group_keys eqb leb key rows) /\ v = agg (filter (in_group eqb key k) rows).
Proof.
  unfold aggregate, groupby. rewrite map_map. cbn.
  intros H. apply in_map_iff in H as (k' & [= <- <-] & Hin). auto.
Qed.

Lemma aggregate_values agg rows :
  map snd (aggregate agg (groupby eqb leb key rows))
  = map (fun k => agg (filter (in_group eqb key k) rows)) (group_keys eqb leb key rows).
Proof. unfold aggregate, groupby. now rewrite !map_map. Qed.

(** An aggregate that is exact on every group sums to the metric of the
    rows that have a key. *)
Lemma aggregate_total agg rows :
  (forall k, agg (filter (in_group eqb key k) rows)
             = total (map f (filter (in_group eqb key k) rows))) ->
  total (map snd (aggregate agg (groupby eqb leb key rows)))
  = total (map f (filter (has_key key) rows)).
Proof.
  intros Hagg. rewrite aggregate_values.
  rewrite (map_ext _ _ Hagg).
  apply group_total; [apply group_keys_nodup|].
  intros r k. apply group_keys_cover.
Qed.

End GroupFacts.

Lemma eqb2_eq a b : eqb2 a b = true <-> a = b.
Proof.
  unfold eqb2. destruct a as [a1 a2], b as [b1 b2]; cbn.
  rewrite andb_true_iff, !String.eqb_eq. split; [intros [-> ->]|intros [= -> ->]]; auto.
Qed.

(** *** The sunburst built from a table *)

Lemma filter_all {A : Type} (p : A -> bool) l :
  (forall x, In x l -> p x = true) -> filter p l = l.
Proof.
  induction l as [|x l IH]; cbn; auto. intros H.
  rewrite (H x) by now left. rewrite IH; auto.
Qed.

Lemma filter_none {A : Type} (p : A -> bool) l :
  (forall x, In x l -> p x = false) -> filter p l = [].
Proof.
  induction l as [|x l IH]; cbn; auto. intros H.
  rewrite (H x) by now left. apply IH; auto.
Qed.

Lemma filter_of_map {A B : Type} (g : A -> B) (p : B -> bool) l :
  filter p (map g l) = map g (filter (fun x => p (g x)) l).
Proof.
  induction l as [|x l IH]; cbn; auto.
  destruct (p (g x)); cbn; now rewrite IH.
Qed.

Section Sunburst.
Variable root_label : string.
Variable tbl : list ((string * string) * Z).
Hypothesis values_nonneg : nonneg_on snd tbl.
Hypothesis values_fit : total (map snd tbl) < 2 ^ 63.

Lemma sunburst_shape :
  sunburst root_label tbl
  = mkNode "root" root_label "" (sum64 (map snd tbl))
    :: map bucket_node (bucket_totals tbl) ++ map ext_node tbl.
Proof. reflexivity. Qed.

Lemma sunburst_children_root :
  children (sunburst root_label tbl) "root"
  = map bucket_node (bucket_totals tbl).
Proof.
  rewrite sunburst_shape. unfold children. cbn [filter parent].
  change ("" =? "root")%string with false. cbv iota.
  rewrite filter_app, filter_all, filter_none; [apply app_nil_r| |].
  - intros n Hn. apply in_map_iff in Hn as (row & <- & _). reflexivity.
  - intros n Hn. apply in_map_iff in Hn as (row & <- & _). reflexivity.
Qed.

Lemma sunburst_leaves :
  leaves (sunburst root_label tbl) = map ext_node tbl.
Proof.
  rewrite sunburst_shape. unfold leaves. cbn [filter parent].
  change ("" =? "")%string with true. cbn [negb andb].
  rewrite filter_app, filter_none, filter_all; [reflexivity| |].
  - intros n Hn. apply in_map_iff in Hn as (row & <- & _). reflexivity.
  - intros n Hn. apply in_map_iff in Hn as (row & <- & _). reflexivity.
Qed.

Lemma sunburst_children_bucket k :
  children (sunburst root_label tbl) (bucket_id k)
  = map ext_node (filter (in_group String.eqb key_bucket k) tbl).
Proof.
  rewrite sunburst_shape. unfold children. cbn [filter parent].
  change ("" =? bucket_id k)%string with false. cbv iota.
  rewrite filter_app, filter_none, filter_of_map; [reflexivity|].
  intros n Hn. apply in_map_iff in Hn as (row & <- & _). reflexivity.
Qed.

Lemma sum_values_exact k :
  sum_values (filter (in_group String.eqb key_bucket k) tbl)
  = total (map snd (filter (in_group String.eqb key_bucket k) tbl)).
Proof. apply group_sum64; auto. Qed.

Lemma bucket_totals_total :
  total (map snd (bucket_totals tbl)) = total (map snd tbl).
Proof.
  unfold bucket_totals.
  rewrite (aggregate_total String.eqb String.leb String.eqb_eq snd key_bucket
                           sum_values tbl sum_values_exact).
  rewrite filter_all; auto.
Qed.

Lemma tree_sums_sunburst : tree_sums (sunburst root_label tbl).
Proof.
  split.
  - eexists _, _. split; [apply sunburst_shape|].
    split; [reflexivity|]. split; [reflexivity|]. cbn [value].
    rewrite sunburst_children_root, sunburst_leaves, !map_map.
    change (map (fun x => value (bucket_node x)) (bucket_totals tbl))
      with (map snd (bucket_totals tbl)).
    change (map (fun x => value (ext_node x)) tbl) with (map snd tbl).
    rewrite bucket_totals_total.
    split; apply metric_sum64; auto.
  - intros b Hb. rewrite sunburst_children_root in Hb.
    apply in_map_iff in Hb as ([k v] & <- & Hkv).
    cbn [id value bucket_node fst snd].
    apply (aggregate_in String.eqb String.leb key_bucket sum_values tbl) in Hkv
      as [_ ->].
    rewrite sunburst_children_bucket, map_map.
    change (map (fun x => value (ext_node x))
                (filter (in_group String.eqb key_bucket k) tbl))
      with (map snd (filter (in_group String.eqb key_bucket k) tbl)).
    apply sum_values_exact.
Qed.

End Sunburst.

(** *** The tables of [cmd_visualize] *)

Section Tables.
Context {R K : Type} (eqb : K -> K -> bool) (leb : K -> K -> bool).
Hypothesis eqb_eq : forall a b, eqb a b = true <-> a = b.
Variable f : R -> Z.
Variable key : R -> option K.
Variable agg : list R -> Z.
Variable rows : list R.
Hypothesis rows_nonneg : nonneg_on f rows.
Hypothesis agg_exact :
  forall k, agg (filter (in_group eqb key k) rows)
            = total (map f (filter (in_group eqb key k) rows)).

Lemma table_nonneg :
  nonneg_on snd (aggregate agg (groupby eqb leb key rows)).
Proof.
  apply Forall_forall. intros [k v] H.
  apply (aggregate_in eqb leb key agg rows) in H as [_ ->].
  cbn [snd]. rewrite agg_exact.
  apply metric_nonneg. now apply nonneg_on_filter.
Qed.

Lemma table_total_le :
  total (map snd (aggregate agg (groupby eqb leb key rows)))
  <= total (map f rows).
Proof.
  rewrite (aggregate_total eqb leb eqb_eq f key agg rows agg_exact).
  now apply metric_filter_le.
Qed.

End Tables.

Lemma insert_desc_perm {K : Type} (x : K * Z) l :
  Permutation (insert_desc x l) (x :: l).
Proof.
  induction l as [|y l IH]; cbn; auto.
  destruct (snd y <=? snd x); auto.
  eapply perm_trans; [apply perm_skip, IH|apply perm_swap].
Qed.

Lemma sort_values_desc_perm {K : Type} (l : list (K * Z)) :
  Permutation (sort_values_desc l) l.
Proof.
  induction l as [|x l IH]; cbn; auto.
  eapply perm_trans; [apply insert_desc_perm|now apply perm_skip].
Qed.

Lemma sorted_total {K : Type} (l : list (K * Z)) :
  total (map snd (sort_values_desc l)) = total (map snd l).
Proof. apply total_perm, Permutation_map, sort_values_desc_perm. Qed.

Section Frame.
Variable df : list DfRow.
Hypothesis rows_fit : Z.of_nat (List.length df) < 2 ^ 63.
Hypothesis sizes_nonneg : Forall (fun r => 0 <= size_bytes r) df.
Hypothesis sizes_fit : total (map size_bytes df) < 2 ^ 63.

Lemma ones_nonneg : nonneg_on (@count_one DfRow) df.
Proof. apply Forall_forall. intros r _. unfold count_one. lia. Qed.

Lemma size64_exact (p : DfRow -> bool) :
  size64 (filter p df) = total (map count_one (filter p df)).
Proof.
  pose proof (metric_filter_le count_one p df ones_nonneg) as Hle.
  pose proof (metric_nonneg count_one _
                (nonneg_on_filter count_one p df ones_nonneg)) as H0.
  unfold count_one in Hle, H0 |- *. rewrite !total_ones in *.
  unfold size64. apply wrap64_small. lia.
Qed.

Lemma bytes64_exact (p : DfRow -> bool) :
  bytes64 (filter p df) = total (map size_bytes (filter p df)).
Proof. unfold bytes64. now apply group_sum64. Qed.

Lemma counts_table_ok :
  nonneg_on snd (counts_by_bucket_ext df) /\
  total (map snd (counts_by_bucket_ext df)) < 2 ^ 63.
Proof.
  split.
  - apply (table_nonneg eqb2 leb2 count_one key_bucket_ext size64 df
                        ones_nonneg).
    intros k. apply size64_exact.
  - pose proof (table_total_le eqb2 leb2 eqb2_eq count_one key_bucket_ext
                               size64 df ones_nonneg
                               (fun k => size64_exact _)) as H.
    unfold count_one in H. rewrite total_ones in H.
    unfold counts_by_bucket_ext. lia.
Qed.

Lemma bytes_table_ok :
  nonneg_on snd (aggregate bytes64 (groupby eqb2 leb2 key_bucket_ext df)) /\
  total (map snd (aggregate bytes64 (groupby eqb2 leb2 key_bucket_ext df)))
  < 2 ^ 63.
Proof.
  split.
  - apply (table_nonneg eqb2 leb2 size_bytes key_bucket_ext bytes64 df
                        sizes_nonneg).
    intros k. apply bytes64_exact.
  - pose proof (table_total_le eqb2 leb2 eqb2_eq size_bytes key_bucket_ext
                               bytes64 df sizes_nonneg
                               (fun k => bytes64_exact _)) as H.
    lia.
Qed.

Lemma collapse_ok top_n tbl :
  nonneg_on snd tbl -> total (map snd tbl) < 2 ^ 63 ->
  nonneg_on snd (collapse top_n df tbl) /\
  total (map snd (collapse top_n df tbl)) < 2 ^ 63.
Proof.
  clear rows_fit sizes_nonneg sizes_fit.
  intros Hn Hf. destruct top_n as [n|]; [|now split]. cbn [collapse].
  set (relabelled := map _ tbl).
  assert (Hv : map snd relabelled = map snd tbl).
  { unfold relabelled. rewrite map_map. now apply map_ext. }
  assert (Hn' : nonneg_on snd relabelled).
  { unfold nonneg_on in *. rewrite Forall_forall in *. intros r Hr.
    apply in_map_iff in Hr as (r0 & <- & Hr0). cbn. auto. }
  assert (Hx : forall k,
             sum64 (map snd (filter (in_group eqb2 (fun r => Some (fst r)) k)
                                    relabelled))
             = total (map snd (filter (in_group eqb2 (fun r => Some (fst r)) k)
                                      relabelled))).
  { intros k. apply group_sum64; auto. now rewrite Hv. }
  split.
  - apply (table_nonneg eqb2 leb2 snd (fun r => Some (fst r))
                        sum_values relabelled Hn' Hx).
  - pose proof (table_total_le eqb2 leb2 eqb2_eq snd (fun r => Some (fst r))
                               sum_values relabelled Hn' Hx)
      as H.
    rewrite Hv in H. lia.
Qed.

Lemma count_flow_total :
  total (map snd (sort_values_desc (counts_by_ext df)))
  = Z.of_nat (List.length df).
Proof.
  rewrite sorted_total. unfold counts_by_ext.
  rewrite (aggregate_total String.eqb String.leb String.eqb_eq count_one
                           key_ext size64 df (fun k => size64_exact _)).
  rewrite filter_all by reflexivity. unfold count_one. apply total_ones.
Qed.

Lemma byte_flow_total :
  total (map snd (sort_values_desc
                    (aggregate bytes64
                               (groupby String.eqb String.leb key_ext df))))
  = total (map size_bytes df).
Proof.
  rewrite sorted_total.
  rewrite (aggregate_total String.eqb String.leb String.eqb_eq size_bytes
                           key_ext bytes64 df (fun k => bytes64_exact _)).
  now rewrite filter_all by reflexivity.
Qed.

End Frame.

(** *** The sum invariants of the four figures *)

(** C1, as stated, fails: the byte sums are int64 sums.  With two
    objects of 2^62 bytes in two buckets the root of the byte sunburst
    wraps to -2^63 while its two bucket children carry 2^62 each, and
    the links of the byte Sankey add up to 2^63, not to the total the
    figure is given. *)
Lemma byte_sums_wrap_around :
  map value (sunburst_bytes_fig (cmd_visualize huge_df None))
  = [- 2 ^ 63; 2 ^ 62; 2 ^ 62; 2 ^ 62; 2 ^ 62] /\
  ~ tree_sums (sunburst_bytes_fig (cmd_visualize huge_df None)) /\
  total (link_value (sankey_bytes_fig (cmd_visualize huge_df None))) = 2 ^ 63 /\
  sankey_bytes_total (cmd_visualize huge_df None) = - 2 ^ 63.
Proof.
  split; [reflexivity|]. split; [|split; reflexivity].
  intros [(root & rest & Hshape & _ & _ & Hroot & _) _].
  vm_compute in Hshape. injection Hshape as <- _.
  vm_compute in Hroot. discriminate Hroot.
Qed.

(** C1, amended -- when the frame has fewer than 2^63 rows, no size is
    negative and the sizes add up to less than 2^63, every sum is exact
    in all four figures, with or without a top-N cutoff: in both
    sunbursts the root equals the sum of its bucket children and the sum
    of the extension leaves, and every bucket node equals the sum of its
    extension children; the links of the count Sankey add up to the
    number of rows and those of the byte Sankey to the total of the
    sizes. *)
Theorem figure_sums_are_exact_without_overflow :
  forall (df : list DfRow) (top_n_extensions : option Z),
    Z.of_nat (List.length df) < 2 ^ 63 ->
    Forall (fun r => 0 <= size_bytes r) df ->
    total (map size_bytes df) < 2 ^ 63 ->
    tree_sums (sunburst_fig (cmd_visualize df top_n_extensions)) /\
    tree_sums (sunburst_bytes_fig (cmd_visualize df top_n_extensions)) /\
    total (link_value (sankey_fig (cmd_visualize df top_n_extensions)))
    = Z.of_nat (List.length df) /\
    total (link_value (sankey_bytes_fig (cmd_visualize df top_n_extensions)))
    = total (map size_bytes df) /\
    sankey_bytes_total (cmd_visualize df top_n_extensions)
    = total (map size_bytes df).
Proof.
  intros df top_n Hrows Hnn Hfit.
  unfold cmd_visualize; cbv zeta; cbn [sunburst_fig sunburst_bytes_fig
    sankey_fig sankey_bytes_fig sankey_bytes_total sankey link_value].
  destruct (counts_table_ok df Hrows) as [Hc1 Hc2].
  destruct (collapse_ok df top_n _ Hc1 Hc2) as [Hd1 Hd2].
  destruct (bytes_table_ok df Hnn Hfit) as [Hb1 Hb2].
  split; [now apply tree_sums_sunburst|].
  split; [now apply tree_sums_sunburst|].
  split; [now apply count_flow_total|].
  split; [now apply byte_flow_total|].
  now apply (metric_sum64 size_bytes).
Qed.

Lemma figure_sums_witness :
  tree_sums (sunburst_fig (cmd_visualize mixed_df (Some 2))) /\
  tree_sums (sunburst_bytes_fig (cmd_visualize mixed_df (Some 2))) /\
  total (link_value (sankey_fig (cmd_visualize mixed_df (Some 2))))
  = Z.of_nat (List.length mixed_df) /\
  total (link_value (sankey_bytes_fig (cmd_visualize mixed_df (Some 2))))
  = total (map size_bytes mixed_df) /\
  sankey_bytes_total (cmd_visualize mixed_df (Some 2))
  = total (map size_bytes mixed_df).
Proof.
  apply (figure_sums_are_exact_without_overflow mixed_df (Some 2)).
  - vm_compute. reflexivity.
  - repeat constructor; vm_compute; discriminate.
  - vm_compute. reflexivity.
Defined.

(** *** The top-N cutoff *)

(** C5 -- on the frame with 10 .csv, 5 .json, 3 .tif and 1 .txt
    object and a cutoff of 2, the count sunburst has the extension nodes
    .csv:10, .json:5 and <other>:4, as the cutoff is documented; the
    count Sankey, the byte Sankey and the byte sunburst still carry all
    four extensions and no <other>.  For every frame and cutoff these
    three figures are the ones computed without any cutoff. *)
Theorem top_n_reaches_only_the_count_sunburst :
  map (fun n => (label n, value n))
      (leaves (sunburst_fig (cmd_visualize mixed_df (Some 2))))
  = [(".csv", 10); (".json", 5); ("<other>", 4)] /\
  node_label (sankey_fig (cmd_visualize mixed_df (Some 2)))
  = ["Total files"; ".csv"; ".json"; ".tif"; ".txt"] /\
  link_value (sankey_fig (cmd_visualize mixed_df (Some 2))) = [10; 5; 3; 1] /\
  node_label (sankey_bytes_fig (cmd_visualize mixed_df (Some 2)))
  = ["Total bytes"; ".csv"; ".json"; ".tif"; ".txt"] /\
  map (fun n => (label n, value n))
      (leaves (sunburst_bytes_fig (cmd_visualize mixed_df (Some 2))))
  = [(".csv", 10); (".json", 5); (".tif", 3); (".txt", 1)] /\
  (forall df n,
      sankey_fig (cmd_visualize df (Some n))
      = sankey_fig (cmd_visualize df None) /\
      sankey_bytes_fig (cmd_visualize df (Some n))
      = sankey_bytes_fig (cmd_visualize df None) /\
      sunburst_bytes_fig (cmd_visualize df (Some n))
      = sunburst_bytes_fig (cmd_visualize df None)).
Proof.
  repeat split; vm_compute; reflexivity.
Qed.

End AggregatorFacts.


(* ================================================================== *)
(** * Further properties of the crawler *)

Module CrawlerMore.
Import PyStr OsPath Xml Crawler Samples CrawlerFacts.

(** *** Accounting of entries, rows and skips *)

Lemma entries_logged_snoc l r :
  entries_logged (l ++ [r]) = entries_logged l + entries_of r.
Proof. induction l as [|x l IH]; cbn; lia. Qed.

Lemma process_content_balance url name s content :
  balance (process_content url name s content) = balance s + 1.
Proof.
  unfold balance.
  destruct (process_content_cases url name s content)
    as [[_ ->]|[(_ & _ & ->)|(_ & _ & ->)]]; cbn; try lia.
  rewrite length_app. cbn. lia.
Qed.

Lemma fold_process_balance url name contents : forall s,
  balance (fold_left (process_content url name) contents s)
  = balance s + Z.of_nat (List.length contents).
Proof.
  induction contents as [|c cs IH]; intros s; cbn [fold_left List.length];
    [lia|].
  rewrite IH, process_content_balance. lia.
Qed.

Lemma paginate_balance url mp root contents s :
  balance (step_state (paginate url mp root contents s)) = balance s.
Proof.
  unfold paginate; cbv zeta. unfold balance.
  destruct (is_truncated root) as [[|]|]; cbn; try rewrite entries_logged_snoc;
    cbn; try lia.
  destruct (next_marker root contents) as [m|]; cbn;
    try rewrite entries_logged_snoc; cbn; try lia.
  destruct mp as [m'|]; cbn; try lia.
  destruct (m' <=? _); cbn; try rewrite entries_logged_snoc; cbn; lia.
Qed.

Lemma loop_body_balance session url name mp s :
  balance (step_state (loop_body session url name mp s)) = balance s.
Proof.
  unfold loop_body; cbv zeta.
  destruct (session _ _) as [| |root]; cbn [step_state].
  - unfold balance; cbn. rewrite entries_logged_snoc. cbn. lia.
  - unfold balance; cbn. rewrite entries_logged_snoc. cbn. lia.
  - rewrite paginate_balance, fold_process_balance.
    unfold balance; cbn. rewrite entries_logged_snoc. cbn. lia.
Qed.

Lemma while_true_balance fuel session url name mp : forall s,
  balance (state_of (while_true fuel session url name mp s)) = balance s.
Proof.
  induction fuel as [|f IH]; intros s; cbn [while_true]; auto.
  pose proof (loop_body_balance session url name mp s) as H.
  destruct (loop_body session url name mp s); cbn in *; auto.
  now rewrite IH.
Qed.

Lemma log_skipped_frame name s :
  csv_rows (log_skipped name s) = csv_rows s /\
  skipped_envidat1 (log_skipped name s) = skipped_envidat1 s /\
  skipped_doi_meta (log_skipped name s) = skipped_doi_meta s /\
  page_count (log_skipped name s) = page_count s /\
  entries_logged (log (log_skipped name s)) = entries_logged (log s).
Proof.
  unfold log_skipped.
  destruct (skipped_envidat1 s =? 0); cbn;
    match goal with |- context [if ?b then _ else _] => destruct b end;
    cbn; rewrite ?entries_logged_snoc; cbn; repeat split; lia.
Qed.

Lemma process_content_doi_meta url name s content :
  name <> "envidat-doi" ->
  skipped_doi_meta (process_content url name s content) = skipped_doi_meta s.
Proof.
  intros Hn.
  destruct (process_content_cases url name s content)
    as [[_ ->]|[(_ & H & _)|(_ & _ & ->)]]; cbn; auto.
  unfold rule_doi_meta in H. apply String.eqb_neq in Hn.
  rewrite Hn in H. discriminate H.
Qed.

Lemma fold_process_doi_meta url name contents : forall s,
  name <> "envidat-doi" ->
  skipped_doi_meta (fold_left (process_content url name) contents s)
  = skipped_doi_meta s.
Proof.
  induction contents as [|c cs IH]; intros s Hn; cbn [fold_left]; auto.
  rewrite IH by auto. now apply process_content_doi_meta.
Qed.

Lemma paginate_counters url mp root contents s :
  skipped_envidat1 (step_state (paginate url mp root contents s))
  = skipped_envidat1 s /\
  skipped_doi_meta (step_state (paginate url mp root contents s))
  = skipped_doi_meta s.
Proof.
  unfold paginate; cbv zeta.
  destruct (is_truncated root) as [[|]|]; cbn; auto.
  destruct (next_marker root contents) as [m|]; cbn; auto.
  destruct mp as [m'|]; cbn; auto.
  destruct (m' <=? _); cbn; auto.
Qed.

Lemma loop_body_doi_meta session url name mp s :
  name <> "envidat-doi" ->
  skipped_doi_meta (step_state (loop_body session url name mp s))
  = skipped_doi_meta s.
Proof.
  intros Hn. unfold loop_body; cbv zeta.
  destruct (session _ _) as [| |root]; cbn [step_state]; auto.
  destruct (paginate_counters url mp root (findall root "Contents")
              (fold_left (process_content url name) (findall root "Contents")
                 (logger (InfoGotContents
                            (Z.of_nat (List.length (findall root "Contents")))
                            (page_count (send (url, params s) s) + 1))
                         (send (url, params s) s)))) as [_ ->].
  now rewrite fold_process_doi_meta.
Qed.

Lemma while_true_doi_meta fuel session url name mp : forall s,
  name <> "envidat-doi" ->
  skipped_doi_meta (state_of (while_true fuel session url name mp s))
  = skipped_doi_meta s.
Proof.
  induction fuel as [|f IH]; intros s Hn; cbn [while_true]; auto.
  pose proof (loop_body_doi_meta session url name mp s Hn) as H.
  destruct (loop_body session url name mp s); cbn in *; auto.
  now rewrite IH.
Qed.

(** X1 -- whatever way the crawl of a bucket ends, the rows it has
    written plus the entries it has skipped under the two rules are
    exactly the entries of the pages it has received (as its log reports
    them); and outside the envidat-doi bucket nothing is ever skipped
    under the second rule. *)
Theorem rows_plus_skips_are_the_entries_received :
  forall fuel url session max_pages s,
    Z.of_nat (List.length
                (csv_rows (state_of (list_s3_bucket_to_csv fuel url session
                                                           max_pages s))))
    - Z.of_nat (List.length (csv_rows s))
    + skipped_envidat1 (state_of (list_s3_bucket_to_csv fuel url session
                                                         max_pages s))
    + skipped_doi_meta (state_of (list_s3_bucket_to_csv fuel url session
                                                         max_pages s))
    = entries_logged (log (state_of (list_s3_bucket_to_csv fuel url session
                                                            max_pages s)))
      - entries_logged (log s) /\
    (bucket_name_of url <> "envidat-doi" ->
     skipped_doi_meta (state_of (list_s3_bucket_to_csv fuel url session
                                                        max_pages s)) = 0).
Proof.
  intros fuel url session mp s.
  unfold list_s3_bucket_to_csv; cbv zeta.
  set (s0 := set_skipped_doi_meta 0 _).
  pose proof (while_true_balance fuel session url (bucket_name_of url) mp s0)
    as Hb.
  pose proof (while_true_doi_meta fuel session url (bucket_name_of url) mp s0)
    as Hd.
  assert (Hb0 : balance s0
                = Z.of_nat (List.length (csv_rows s)) - entries_logged (log s)).
  { unfold balance, s0; cbn. rewrite entries_logged_snoc. cbn. lia. }
  rewrite Hb0 in Hb. unfold balance in Hb.
  destruct (while_true fuel session url (bucket_name_of url) mp s0) as [s1|e s1|s1];
    cbn [state_of] in *.
  - destruct (log_skipped_frame (bucket_name_of url) s1)
      as (Hr & H1 & H2 & _ & Hl).
    cbn. rewrite entries_logged_snoc, Hr, H1, H2, Hl. cbn.
    split; [lia|]. intros Hn. now rewrite (Hd Hn).
  - split; [lia|]. intros Hn. now rewrite (Hd Hn).
  - split; [lia|]. intros Hn. now rewrite (Hd Hn).
Qed.

Lemma rows_plus_skips_witness :
  skipped_doi_meta
    (state_of (list_s3_bucket_to_csv 2 cloud_url two_pages None initial)) = 0.
Proof.
  destruct (rows_plus_skips_are_the_entries_received
              2 cloud_url two_pages None initial) as [_ H].
  apply H. vm_compute. discriminate.
Defined.

(** *** Rows are only appended, and carry their bucket *)

Lemma kept_of_bucket url contents :
  Forall (row_of_bucket url) (kept url (bucket_name_of url) contents).
Proof.
  unfold kept. apply Forall_forall. intros r Hr.
  apply filter_In in Hr as [Hr _].
  apply in_map_iff in Hr as (c & <- & _). now split.
Qed.

Lemma loop_body_rows session url mp s :
  exists added,
    csv_rows (step_state (loop_body session url (bucket_name_of url) mp s))
    = csv_rows s ++ added /\
    Forall (row_of_bucket url) added.
Proof.
  unfold loop_body; cbv zeta.
  destruct (session _ _) as [| |root]; cbn [step_state].
  - exists []. cbn. now rewrite app_nil_r.
  - exists []. cbn. now rewrite app_nil_r.
  - exists (kept url (bucket_name_of url) (findall root "Contents")).
    split; [|apply kept_of_bucket].
    match goal with |- context [paginate ?u ?m ?r ?c ?st] =>
      destruct (paginate_frame u m r c st) as (_ & -> & _) end.
    now rewrite fold_process_rows.
Qed.

Lemma while_true_rows fuel session url mp : forall s,
  exists added,
    csv_rows (state_of (while_true fuel session url (bucket_name_of url) mp s))
    = csv_rows s ++ added /\
    Forall (row_of_bucket url) added.
Proof.
  induction fuel as [|f IH]; intros s; cbn [while_true].
  - exists []. cbn. now rewrite app_nil_r.
  - destruct (loop_body_rows session url mp s) as (a1 & H1 & F1).
    destruct (loop_body session url (bucket_name_of url) mp s) as [s'|s'|e s'];
      cbn [step_state state_of] in *; eauto.
    destruct (IH s') as (a2 & H2 & F2).
    exists (a1 ++ a2). rewrite H2, H1, app_assoc. split; auto.
    apply Forall_app. auto.
Qed.

Lemma bucket_rows fuel url session mp s :
  exists added,
    csv_rows (state_of (list_s3_bucket_to_csv fuel url session mp s))
    = csv_rows s ++ added /\
    Forall (row_of_bucket url) added.
Proof.
  unfold list_s3_bucket_to_csv; cbv zeta.
  set (s0 := set_skipped_doi_meta 0 _).
  destruct (while_true_rows fuel session url mp s0) as (a & H & F).
  exists a. split; auto.
  destruct (while_true fuel session url (bucket_name_of url) mp s0);
    cbn [state_of] in *; auto.
  cbn. now rewrite log_skipped_rows.
Qed.

Lemma for_buckets_rows fuel session mp buckets : forall s,
  exists added,
    csv_rows (state_of (for_buckets fuel buckets session mp s))
    = csv_rows s ++ added /\
    Forall (fun r => In (bucket_url r) buckets /\
                     bucket_name r = bucket_name_of (bucket_url r)) added.
Proof.
  induction buckets as [|b bs IH]; intros s; cbn [for_buckets].
  - exists []. cbn. now rewrite app_nil_r.
  - destruct (bucket_rows fuel b session mp s) as (a1 & H1 & F1).
    assert (F1' : Forall (fun r => In (bucket_url r) (b :: bs) /\
                                   bucket_name r
                                   = bucket_name_of (bucket_url r)) a1).
    { eapply Forall_impl; [|exact F1]. intros r [Hu Hn].
      rewrite Hu. split; [now left|exact Hn]. }
    destruct (list_s3_bucket_to_csv fuel b session mp s) as [s'|e s'|s'];
      cbn [state_of] in *; eauto.
    destruct (IH s') as (a2 & H2 & F2).
    exists (a1 ++ a2). rewrite H2, H1, app_assoc. split; auto.
    apply Forall_app. split; auto.
    eapply Forall_impl; [|exact F2]. intros r [Hu Hn]. split; [now right|auto].
Qed.

(** X2 -- the CSV only grows.  Whatever way the crawl of a bucket ends
    (return, exception, or still running), the rows that were there are
    still there, in place, and every row it has added carries the URL
    of that bucket and the name derived from it; after [cmd_fetch] every
    row belongs to one of the buckets given. *)
Theorem rows_are_appended_and_carry_their_bucket :
  (forall fuel url session max_pages s,
      exists added,
        csv_rows (state_of (list_s3_bucket_to_csv fuel url session max_pages s))
        = csv_rows s ++ added /\
        Forall (fun r => bucket_url r = url /\
                         bucket_name r = bucket_name_of url) added) /\
  (forall fuel buckets session max_pages,
      Forall (fun r => In (bucket_url r) buckets /\
                       bucket_name r = bucket_name_of (bucket_url r))
             (csv_rows (state_of (cmd_fetch fuel buckets session max_pages)))).
Proof.
  split; [exact bucket_rows|].
  intros fuel buckets session mp. unfold cmd_fetch.
  destruct (for_buckets_rows fuel session mp buckets (writeheader initial))
    as (a & H & F).
  cbn in H.
  destruct (for_buckets fuel buckets session mp (writeheader initial));
    cbn [state_of] in *; try (cbn; rewrite H); now rewrite ?H.
Qed.

(** *** The requests of a crawl *)

Lemma loop_body_answer session url name mp s :
  match loop_body session url name mp s with
  | Next _ | Break _ | Raise AttributeError _ =>
      exists root, session (requests s) (url, params s) = Document root
  | Raise RequestException s' =>
      session (requests s) (url, params s) = TransportError /\
      s' = logger (ErrorGetFailed url (marker s)) (send (url, params s) s)
  | Raise ParseError s' =>
      session (requests s) (url, params s) = Malformed /\
      s' = logger (ErrorParseFailed url (marker s)) (send (url, params s) s)
  end.
Proof.
  unfold loop_body; cbv zeta.
  destruct (session _ _) as [| |root]; auto.
  unfold paginate; cbv zeta.
  destruct (is_truncated root) as [[|]|]; eauto.
  destruct (next_marker root _); eauto.
  destruct mp as [m|]; eauto.
  destruct (m <=? _); eauto.
Qed.

Lemma loop_body_page_count session url name mp s :
  match loop_body session url name mp s with
  | Next s' | Break s' | Raise AttributeError s' =>
      page_count s' = page_count s + 1
  | Raise _ s' => page_count s' = page_count s
  end.
Proof.
  unfold loop_body; cbv zeta.
  destruct (session _ _) as [| |root]; auto.
  match goal with |- context [fold_left ?f ?c ?st0] =>
    pose proof (fold_process_frame url name c st0) as Hf; cbv zeta in Hf;
    destruct Hf as (_ & _ & _ & Hpc);
    set (st := fold_left f c st0) in *; clearbody st; cbn in Hpc end.
  unfold paginate; cbv zeta.
  destruct (is_truncated root) as [[|]|]; cbn; try lia.
  destruct (next_marker root _); cbn; try lia.
  destruct mp as [m|]; cbn; try lia.
  destruct (m <=? _); cbn; lia.
Qed.

Lemma while_true_requests fuel session url name mp : forall s,
  exists qs,
    requests (state_of (while_true fuel session url name mp s))
    = requests s ++ qs /\
    Forall (fun q => fst q = url) qs /\
    (fuel <> 0%nat -> exists qs', qs = (url, params s) :: qs').
Proof.
  induction fuel as [|f IH]; intros s; cbn [while_true].
  - exists []. cbn. rewrite app_nil_r. repeat split; auto. congruence.
  - pose proof (loop_body_requests session url name mp s) as H1.
    destruct (loop_body session url name mp s) as [s'|s'|e s'];
      cbn [step_state state_of] in *.
    + destruct (IH s') as (qs & H2 & F2 & _).
      exists ((url, params s) :: qs). rewrite H2, H1, <- app_assoc.
      repeat split; eauto.
    + exists [(url, params s)]. repeat split; eauto.
    + exists [(url, params s)]. repeat split; eauto.
Qed.

Lemma bucket_requests fuel url session mp s :
  exists qs,
    requests (state_of (list_s3_bucket_to_csv (S fuel) url session mp s))
    = requests s ++ (url, None) :: qs /\
    Forall (fun q => fst q = url) qs.
Proof.
  unfold list_s3_bucket_to_csv; cbv zeta.
  set (s0 := set_skipped_doi_meta 0 _).
  destruct (while_true_requests (S fuel) session url (bucket_name_of url) mp s0)
    as (qs & H & F & Hhd).
  destruct Hhd as [qs' ->]; [congruence|].
  exists qs'. inversion F; subst. split; auto.
  change (params s0) with (@None string) in H.
  destruct (while_true (S fuel) session url (bucket_name_of url) mp s0);
    cbn [state_of] in *; auto.
  cbn. now rewrite log_skipped_requests.
Qed.

Lemma bucket_requests_any fuel url session mp s :
  exists qs,
    requests (state_of (list_s3_bucket_to_csv fuel url session mp s))
    = requests s ++ qs /\
    Forall (fun q => fst q = url) qs.
Proof.
  destruct fuel as [|fuel].
  - exists []. cbn. now rewrite app_nil_r.
  - destruct (bucket_requests fuel url session mp s) as (qs & H & F).
    exists ((url, None) :: qs). split; auto.
Qed.

Lemma for_buckets_requests fuel session mp buckets : forall s,
  exists qs,
    requests (state_of (for_buckets fuel buckets session mp s))
    = requests s ++ qs /\
    Forall (fun q => In (fst q) buckets) qs.
Proof.
  induction buckets as [|b bs IH]; intros s; cbn [for_buckets].
  - exists []. cbn. now rewrite app_nil_r.
  - destruct (bucket_requests_any fuel b session mp s) as (q1 & H1 & F1).
    assert (F1' : Forall (fun q => In (fst q) (b :: bs)) q1).
    { eapply Forall_impl; [|exact F1]. intros q ->. now left. }
    destruct (list_s3_bucket_to_csv fuel b session mp s) as [s'|e s'|s'];
      cbn [state_of] in *; eauto.
    destruct (IH s') as (q2 & H2 & F2).
    exists (q1 ++ q2). rewrite H2, H1, app_assoc. split; auto.
    apply Forall_app. split; auto.
    eapply Forall_impl; [|exact F2]. intros q Hq. now right.
Qed.

(** X3 -- the crawl of a bucket sends its requests to the URL of that
    bucket only, and the first of them carries no marker, whatever
    marker an earlier bucket ended with; [cmd_fetch] sends no request to
    a URL that is not in the list of buckets. *)
Theorem requests_go_to_the_buckets_given :
  (forall fuel url session max_pages s,
      exists qs,
        requests (state_of (list_s3_bucket_to_csv (S fuel) url session
                                                  max_pages s))
        = requests s ++ (url, None) :: qs /\
        Forall (fun q => fst q = url) qs) /\
  (forall fuel buckets session max_pages,
      Forall (fun q => In (fst q) buckets)
             (requests (state_of (cmd_fetch fuel buckets session max_pages)))).
Proof.
  split; [exact bucket_requests|].
  intros fuel buckets session mp. unfold cmd_fetch.
  destruct (for_buckets_requests fuel session mp buckets (writeheader initial))
    as (qs & H & F).
  cbn in H.
  destruct (for_buckets fuel buckets session mp (writeheader initial));
    cbn [state_of] in *; try (cbn; rewrite H); now rewrite ?H.
Qed.

Lemma while_true_pages fuel session url name mp : forall s s',
  while_true fuel session url name mp s = Returned s' ->
  page_count s' - page_count s
  = Z.of_nat (List.length (requests s')) - Z.of_nat (List.length (requests s)).
Proof.
  induction fuel as [|f IH]; intros s s'; cbn [while_true]; [discriminate|].
  pose proof (loop_body_requests session url name mp s) as Hr.
  pose proof (loop_body_page_count session url name mp s) as Hp.
  destruct (loop_body session url name mp s) as [s1|s1|e s1];
    cbn [step_state] in *; try discriminate.
  - intros H. apply IH in H. rewrite Hr, length_app in H. cbn in H. lia.
  - intros [= <-]. rewrite Hr, length_app. cbn. lia.
Qed.

(** X4 -- when the crawl of a bucket returns, its page count is the
    number of requests it has sent, and this is the number that the
    closing log record ("pages fetched") reports. *)
Theorem pages_fetched_is_the_number_of_requests :
  forall fuel url session max_pages s s',
    list_s3_bucket_to_csv fuel url session max_pages s = Returned s' ->
    exists qs l,
      requests s' = requests s ++ qs /\
      page_count s' = Z.of_nat (List.length qs) /\
      log s' = l ++ [InfoFinishedBucket url (Z.of_nat (List.length qs))].
Proof.
  intros fuel url session mp s s'.
  unfold list_s3_bucket_to_csv; cbv zeta.
  set (s0 := set_skipped_doi_meta 0 _).
  destruct (while_true_requests fuel session url (bucket_name_of url) mp s0)
    as (qs & Hq & _ & _).
  pose proof (while_true_pages fuel session url (bucket_name_of url) mp s0)
    as Hp.
  destruct (while_true fuel session url (bucket_name_of url) mp s0)
    as [s1| |]; try discriminate.
  specialize (Hp s1 eq_refl). cbn [state_of] in Hq.
  rewrite Hq, length_app in Hp.
  change (page_count s0) with 0 in Hp. change (requests s0) with (requests s) in *.
  assert (Hpc : page_count s1 = Z.of_nat (List.length qs)) by lia.
  destruct (log_skipped_frame (bucket_name_of url) s1) as (_ & _ & _ & Hpc' & _).
  intros [= <-]. exists qs, (log (log_skipped (bucket_name_of url) s1)).
  cbn. rewrite log_skipped_requests, Hpc', Hpc. auto.
Qed.

Lemma pages_fetched_witness :
  exists qs l,
    requests (state_of (list_s3_bucket_to_csv 2 cloud_url two_pages None initial))
    = requests initial ++ qs /\
    page_count (state_of (list_s3_bucket_to_csv 2 cloud_url two_pages None
                                                initial))
    = Z.of_nat (List.length qs) /\
    log (state_of (list_s3_bucket_to_csv 2 cloud_url two_pages None initial))
    = l ++ [InfoFinishedBucket cloud_url (Z.of_nat (List.length qs))].
Proof.
  apply (pages_fetched_is_the_number_of_requests
           2 cloud_url two_pages None initial). reflexivity.
Defined.

(** *** Failures are fatal *)

Lemma all_documents_snoc session reqs q root :
  all_documents session reqs ->
  session reqs q = Document root ->
  all_documents session (reqs ++ [q]).
Proof.
  intros Hall Hq h q' t E.
  destruct t as [|x t'] using rev_ind.
  - apply app_inj_tail in E as [<- <-]. eauto.
  - clear IHt'. rewrite app_comm_cons, app_assoc in E.
    apply app_inj_tail in E as [E _]. eapply Hall; eauto.
Qed.

Lemma while_true_answers fuel session url name mp : forall s,
  all_documents session (requests s) ->
  answers_ok session (while_true fuel session url name mp s).
Proof.
  induction fuel as [|f IH]; intros s Hall; cbn [while_true]; auto.
  pose proof (loop_body_answer session url name mp s) as Ha.
  pose proof (loop_body_requests session url name mp s) as Hr.
  destruct (loop_body session url name mp s) as [s'|s'|[] s'];
    cbn [step_state] in *.
  - destruct Ha as [root Ha]. apply IH. rewrite Hr.
    eapply all_documents_snoc; eauto.
  - destruct Ha as [root Ha]. cbn. rewrite Hr.
    eapply all_documents_snoc; eauto.
  - destruct Ha as [Ha ->]. cbn. eexists _, _, _, _. repeat split; eauto.
  - destruct Ha as [Ha ->]. cbn. eexists _, _, _, _. repeat split; eauto.
  - destruct Ha as [root Ha]. cbn. rewrite Hr.
    eapply all_documents_snoc; eauto.
Qed.

Lemma bucket_answers fuel url session mp s :
  all_documents session (requests s) ->
  answers_ok session (list_s3_bucket_to_csv fuel url session mp s).
Proof.
  intros Hall. unfold list_s3_bucket_to_csv; cbv zeta.
  set (s0 := set_skipped_doi_meta 0 _).
  pose proof (while_true_answers fuel session url (bucket_name_of url) mp s0
                                 Hall) as H.
  destruct (while_true fuel session url (bucket_name_of url) mp s0)
    as [s1|e s1|s1]; auto.
  cbn in *. now rewrite log_skipped_requests.
Qed.

Lemma for_buckets_answers fuel session mp buckets : forall s,
  all_documents session (requests s) ->
  answers_ok session (for_buckets fuel buckets session mp s).
Proof.
  induction buckets as [|b bs IH]; intros s Hall; cbn [for_buckets]; auto.
  pose proof (bucket_answers fuel b session mp s Hall) as H.
  destruct (list_s3_bucket_to_csv fuel b session mp s) as [s1|e s1|s1]; auto.
Qed.

(** X5 -- failures are fatal and nothing else is.  If [cmd_fetch]
    returns, every request it has sent was answered with a document that
    parsed.  If it raises on a request, that request was the last one
    sent, its answer was the transport failure (or the body that does
    not parse), every earlier request had a document, and the error is
    the last record of the log. *)
Theorem cmd_fetch_fails_exactly_on_a_failed_request :
  forall fuel buckets session max_pages,
    match cmd_fetch fuel buckets session max_pages with
    | Returned s => all_documents session (requests s)
    | Raised RequestException s =>
        exists h q l m,
          requests s = h ++ [q] /\ session h q = TransportError /\
          all_documents session h /\ log s = l ++ [ErrorGetFailed (fst q) m]
    | Raised ParseError s =>
        exists h q l m,
          requests s = h ++ [q] /\ session h q = Malformed /\
          all_documents session h /\ log s = l ++ [ErrorParseFailed (fst q) m]
    | _ => True
    end.
Proof.
  intros fuel buckets session mp. unfold cmd_fetch.
  assert (H0 : all_documents session (requests (writeheader initial))).
  { intros h q t E. cbn in E. now destruct h. }
  pose proof (for_buckets_answers fuel session mp buckets _ H0) as H.
  destruct (for_buckets fuel buckets session mp (writeheader initial))
    as [s|[] s|s]; cbn in *; auto.
Qed.

(** What a page that was received and parsed leaves behind, however
    the iteration ends. *)
Lemma loop_body_parsed session url name mp s root :
  session (requests s) (url, params s) = Document root ->
  csv_rows (step_state (loop_body session url name mp s))
  = csv_rows s ++ kept url name (findall root "Contents") /\
  page_count (step_state (loop_body session url name mp s))
  = page_count s + 1 /\
  requests (step_state (loop_body session url name mp s))
  = requests s ++ [(url, params s)].
Proof.
  intros Hdoc. split; [|split; [|apply loop_body_requests]].
  - rewrite (loop_body_document _ _ _ _ _ _ Hdoc).
    match goal with |- context [paginate ?u ?m ?r ?c ?st] =>
      destruct (paginate_frame u m r c st) as (_ & Hrows & _);
      cbv zeta in Hrows; rewrite Hrows end.
    now rewrite fold_process_rows.
  - pose proof (loop_body_page_count session url name mp s) as Hp.
    pose proof (loop_body_answer session url name mp s) as Ha.
    destruct (loop_body session url name mp s) as [s1|s1|[] s1];
      cbn [step_state]; auto.
    + destruct Ha as [Ha _]. congruence.
    + destruct Ha as [Ha _]. congruence.
Qed.

(** How an iteration over a parsed page ends, read off the page. *)
Lemma loop_body_of_page session url name mp s root :
  session (requests s) (url, params s) = Document root ->
  match loop_body session url name mp s with
  | Next _ =>
      is_truncated root = Some true /\
      (exists m, next_marker root (findall root "Contents") = Some m) /\
      (forall m, mp = Some m -> page_count s + 1 < m)
  | Break _ => is_truncated root <> None
  | Raise e _ => e = AttributeError /\ is_truncated root = None
  end.
Proof.
  intros Hdoc.
  pose proof (loop_body_next_page_count session url name mp s) as Hn.
  rewrite (loop_body_document _ _ _ _ _ _ Hdoc) in *.
  match goal with |- context [paginate ?u ?m ?r ?c ?st] =>
    set (st0 := st) in * end.
  revert Hn. unfold paginate; cbv zeta.
  destruct (is_truncated root) as [[|]|]; try (intros _; congruence);
    [|intros _; now split].
  destruct (next_marker root _) as [m|]; [|intros _; congruence].
  destruct mp as [m'|].
  - cbn. destruct (m' <=? _); [intros _; congruence|].
    intros Hn. destruct (Hn _ eq_refl) as [_ Hlt]. repeat split; eauto.
  - intros _. repeat split; eauto. discriminate.
Qed.

Lemma is_truncated_none root :
  is_truncated root = None <->
  exists t, find root "IsTruncated" = Some t /\ text t = None.
Proof.
  unfold is_truncated. split.
  - destruct (find root "IsTruncated") as [t|]; [|discriminate].
    destruct (text t) eqn:E; [discriminate|]. eauto.
  - intros (t & -> & ->). reflexivity.
Qed.

(** X6 -- how the loop raises once a page was received and parsed.
    Whatever the page is, its rows have been written, the page is
    counted and one request was sent.  The loop then raises in two
    cases and in no other: [AttributeError] when the [IsTruncated]
    element is there without text (the text is [None] and has no
    [lower]), and [OverflowError] when the page leads on to a next one
    (truncated, a marker found, the page limit not reached) and the
    pause is too large for [time.sleep].  Writing to the CSV file is
    taken to succeed, here as everywhere. *)
Theorem a_parsed_page_raises_in_two_ways :
  forall sleep session url name max_pages s root,
    session (requests s) (url, params s) = Document root ->
    let s1 := step_state (loop_body session url name max_pages s) in
    (csv_rows s1 = csv_rows s ++ kept url name (findall root "Contents") /\
     page_count s1 = page_count s + 1 /\
     requests s1 = requests s ++ [(url, params s)]) /\
    ((exists t, find root "IsTruncated" = Some t /\ text t = None) ->
     forall fuel,
       Paced.while_true (S fuel) sleep session url name max_pages s
       = Paced.Raised (Paced.Crawling AttributeError) s1) /\
    (sleep = Paced.TooLarge ->
     is_truncated root = Some true ->
     forall m,
       next_marker root (findall root "Contents") = Some m ->
       (forall mp, max_pages = Some mp -> page_count s + 1 < mp) ->
       marker s1 = m /\
       forall fuel,
         Paced.while_true (S fuel) sleep session url name max_pages s
         = Paced.Raised Paced.OverflowError s1) /\
    (forall e s',
        Paced.loop_body sleep session url name max_pages s = Paced.Raise e s' ->
        s' = s1 /\
        ((e = Paced.Crawling AttributeError /\
          exists t, find root "IsTruncated" = Some t /\ text t = None) \/
         (e = Paced.OverflowError /\ sleep = Paced.TooLarge /\
          is_truncated root = Some true /\
          (exists m, next_marker root (findall root "Contents") = Some m) /\
          forall mp, max_pages = Some mp -> page_count s + 1 < mp))).
Proof.
  intros sleep session url name mp s root Hdoc s1.
  pose proof (loop_body_of_page session url name mp s root Hdoc) as Hpage.
  split; [apply (loop_body_parsed session url name mp s root Hdoc)|].
  split; [|split].
  - intros Hflag fuel. apply is_truncated_none in Hflag.
    cbn [Paced.while_true]. unfold Paced.loop_body. subst s1.
    destruct (loop_body session url name mp s) as [s2|s2|e s2];
      cbn [step_state].
    + destruct Hpage as [Ht _]. congruence.
    + congruence.
    + destruct Hpage as [-> _]. reflexivity.
  - intros -> Ht m Hm Hlim. split.
    + subst s1. rewrite (loop_body_document _ _ _ _ _ _ Hdoc).
      now apply paginate_marker.
    + intros fuel. cbn [Paced.while_true]. unfold Paced.loop_body. subst s1.
      revert Hpage. rewrite (loop_body_document _ _ _ _ _ _ Hdoc).
      unfold paginate; cbv zeta. rewrite Ht, Hm.
      destruct mp as [mp|]; [|reflexivity].
      specialize (Hlim mp eq_refl). cbn [page_count set_marker set_page_count].
      match goal with |- context [mp <=? ?v] =>
        replace (mp <=? v) with false; [reflexivity|] end.
      symmetry. apply Z.leb_gt.
      match goal with |- context [fold_left ?f ?c ?st0] =>
        destruct (fold_process_frame url name c st0) as (_ & _ & _ & Hpc);
        rewrite Hpc end.
      cbn. lia.
  - intros e s' H. unfold Paced.loop_body in H. subst s1.
    destruct (loop_body session url name mp s) as [s2|s2|e2 s2];
      cbn [step_state].
    + destruct sleep; cbn in H; try discriminate.
      injection H as <- <-. split; [reflexivity|]. right.
      destruct Hpage as (Ht & Hm & Hlim). auto.
    + discriminate.
    + injection H as <- <-. split; [reflexivity|]. left.
      destruct Hpage as [-> Hnone]. split; [reflexivity|].
      now apply is_truncated_none.
Qed.

Lemma parsed_page_raises_witness :
  (forall fuel,
      Paced.while_true (S fuel) Paced.Sleeps (always flag_without_text)
                       cloud_url "envicloud" None initial
      = Paced.Raised (Paced.Crawling AttributeError)
          (step_state (loop_body (always flag_without_text)
                                 cloud_url "envicloud" None initial))) /\
  (marker (step_state (loop_body (always truncated_page)
                                 cloud_url "envicloud" None initial))
   = Some "a" /\
   forall fuel,
     Paced.while_true (S fuel) Paced.TooLarge (always truncated_page)
                      cloud_url "envicloud" None initial
     = Paced.Raised Paced.OverflowError
         (step_state (loop_body (always truncated_page)
                                cloud_url "envicloud" None initial))).
Proof.
  split.
  - destruct (a_parsed_page_raises_in_two_ways
                Paced.Sleeps (always flag_without_text) cloud_url "envicloud"
                None initial flag_without_text eq_refl) as (_ & H & _).
    apply H. exists (Elem "IsTruncated" None []). split; reflexivity.
  - destruct (a_parsed_page_raises_in_two_ways
                Paced.TooLarge (always truncated_page) cloud_url "envicloud"
                None initial truncated_page eq_refl) as (_ & _ & H & _).
    apply H; [reflexivity|reflexivity|reflexivity|discriminate].
Defined.

(** *** The page limit *)

(** X7 -- a page limit of one or less (zero and negative values
    included) still fetches one page: the limit is looked at only after
    a page has been handled.  The crawl of the bucket then ends after
    exactly one request, whatever the answer is. *)
Theorem page_limit_below_one_fetches_one_page :
  forall fuel url session m s,
    m <= 1 ->
    terminated (list_s3_bucket_to_csv (S fuel) url session (Some m) s) = true /\
    requests (state_of (list_s3_bucket_to_csv (S fuel) url session (Some m) s))
    = requests s ++ [(url, None)].
Proof.
  intros fuel url session m s Hm.
  unfold list_s3_bucket_to_csv; cbv zeta.
  set (s0 := set_skipped_doi_meta 0 _).
  cbn [while_true].
  pose proof (loop_body_requests session url (bucket_name_of url) (Some m) s0)
    as Hr.
  change (requests s0) with (requests s) in Hr.
  change (params s0) with (@None string) in Hr.
  destruct (loop_body session url (bucket_name_of url) (Some m) s0)
    as [s1|s1|e s1] eqn:E; cbn [step_state] in Hr.
  - exfalso. apply loop_body_next_page_count in E as [_ E].
    specialize (E m eq_refl). change (page_count s0) with 0 in E. lia.
  - cbn. now rewrite log_skipped_requests.
  - now cbn.
Qed.

Lemma page_limit_witness :
  terminated (list_s3_bucket_to_csv 5 cloud_url endless (Some 0) initial) = true /\
  requests (state_of (list_s3_bucket_to_csv 5 cloud_url endless (Some 0) initial))
  = requests initial ++ [(cloud_url, None)].
Proof.
  apply (page_limit_below_one_fetches_one_page 4 cloud_url endless 0 initial).
  lia.
Defined.

(** *** A listing that repeats itself *)

Lemma repeated_page_goes_on sleep url name root m : forall fuel s,
  sleep <> Paced.TooLarge ->
  is_truncated root = Some true ->
  next_marker root (findall root "Contents") = Some m ->
  Paced.terminated
    (Paced.while_true fuel sleep (always root) url name None s) = false.
Proof.
  induction fuel as [|f IH]; intros s Hs Ht Hm; [reflexivity|].
  cbn [Paced.while_true]. unfold Paced.loop_body.
  rewrite (loop_body_document (always root) url name None s root eq_refl).
  unfold paginate; cbv zeta. rewrite Ht, Hm.
  destruct sleep; cbn [Paced.time_sleep]; try congruence; now apply IH.
Qed.

(** X8 -- without a page limit nothing compares one page with the one
    before.  If the remote side answers every request with the same
    truncated page, and that page has a non-empty [NextMarker] or at
    least one entry, the crawl of the bucket comes to an end in one way
    only: a pause too large for [time.sleep] makes it raise
    [OverflowError] after the first request.  With any other pause (the
    default 0.0 among them) the loop has no exit: after any number of
    iterations the crawl is still going on. *)
Theorem repeated_truncated_page_ends_only_in_the_pause :
  forall root t x url s sleep,
    find root "IsTruncated" = Some t -> text t = Some x -> lower x = "true" ->
    ((exists tm, find root "NextMarker" = Some tm /\ truthy (text tm) = true) \/
     findall root "Contents" <> []) ->
    match sleep with
    | Paced.TooLarge =>
        forall fuel,
          exists s',
            Paced.list_s3_bucket_to_csv (S fuel) url (always root) sleep None s
            = Paced.Raised Paced.OverflowError s' /\
            requests s' = requests s ++ [(url, None)] /\
            csv_rows s'
            = csv_rows s
              ++ kept url (bucket_name_of url) (findall root "Contents")
    | _ =>
        forall fuel,
          Paced.terminated
            (Paced.list_s3_bucket_to_csv fuel url (always root) sleep None s)
          = false
    end.
Proof.
  intros root t x url s sleep Ht Hx Hl Hmark.
  pose proof (is_truncated_true root t x Ht Hx Hl) as Htr.
  assert (Hm : exists m, next_marker root (findall root "Contents") = Some m).
  { unfold next_marker, last_key_marker.
    destruct Hmark as [(tm & -> & ->)|Hc]; eauto.
    destruct (find root "NextMarker") as [tm|];
      [destruct (truthy (text tm)); eauto|];
      (destruct (findall root "Contents") as [|c cs]; [congruence|]);
      destruct (find _ "Key"); eauto. }
  destruct Hm as [m Hm].
  assert (Hgo : forall sl, sl <> Paced.TooLarge -> forall fuel,
             Paced.terminated
               (Paced.list_s3_bucket_to_csv fuel url (always root) sl None s)
             = false).
  { intros sl Hsl fuel. unfold Paced.list_s3_bucket_to_csv; cbv zeta.
    set (s0 := set_skipped_doi_meta 0 _).
    pose proof (repeated_page_goes_on sl url (bucket_name_of url) root m fuel
                                      s0 Hsl Htr Hm) as H.
    now destruct (Paced.while_true fuel sl (always root) url
                                   (bucket_name_of url) None s0). }
  destruct sleep; [apply Hgo; discriminate|apply Hgo; discriminate|].
  intros fuel. unfold Paced.list_s3_bucket_to_csv; cbv zeta.
  set (s0 := set_skipped_doi_meta 0 _).
  destruct (loop_body_parsed (always root) url (bucket_name_of url) None s0
                             root eq_refl) as (Hrows & _ & Hreq).
  change (requests s0) with (requests s) in Hreq.
  change (csv_rows s0) with (csv_rows s) in Hrows.
  change (params s0) with (@None string) in Hreq.
  cbn [Paced.while_true]. unfold Paced.loop_body.
  revert Hrows Hreq.
  rewrite (loop_body_document (always root) url (bucket_name_of url) None s0
                              root eq_refl).
  unfold paginate; cbv zeta. rewrite Htr, Hm. cbn [step_state Paced.time_sleep].
  intros Hrows Hreq. eexists. split; [reflexivity|]. split; assumption.
Qed.

Lemma repeated_page_witness :
  (forall fuel,
      Paced.terminated
        (Paced.list_s3_bucket_to_csv
           fuel cloud_url (always (page "TRUE" [Elem "Contents" None []]))
           Paced.NotCalled None initial) = false) /\
  (forall fuel,
      exists s',
        Paced.list_s3_bucket_to_csv
          (S fuel) cloud_url (always (page "TRUE" [Elem "Contents" None []]))
          Paced.TooLarge None initial
        = Paced.Raised Paced.OverflowError s' /\
        requests s' = requests initial ++ [(cloud_url, None)] /\
        csv_rows s'
        = csv_rows initial
          ++ kept cloud_url (bucket_name_of cloud_url)
                  (findall (page "TRUE" [Elem "Contents" None []]) "Contents")).
Proof.
  split.
  - apply (repeated_truncated_page_ends_only_in_the_pause
             (page "TRUE" [Elem "Contents" None []])
             (Elem "IsTruncated" (Some "TRUE") []) "TRUE" cloud_url initial
             Paced.NotCalled); try reflexivity.
    right. discriminate.
  - apply (repeated_truncated_page_ends_only_in_the_pause
             (page "TRUE" [Elem "Contents" None []])
             (Elem "IsTruncated" (Some "TRUE") []) "TRUE" cloud_url initial
             Paced.TooLarge); try reflexivity.
    right. discriminate.
Defined.

(** *** The crawl with and without the pause *)

Lemma paced_while_true sleep session url name mp : forall fuel s,
  sleep <> Paced.TooLarge ->
  Paced.while_true fuel sleep session url name mp s
  = Paced.with_pause (while_true fuel session url name mp s).
Proof.
  induction fuel as [|f IH]; intros s Hs; [reflexivity|].
  cbn [Paced.while_true while_true]. unfold Paced.loop_body.
  destruct (loop_body session url name mp s) as [s'|s'|e s']; try reflexivity.
  destruct sleep; cbn [Paced.time_sleep]; try congruence; now apply IH.
Qed.

Lemma paced_bucket sleep fuel url session mp s :
  sleep <> Paced.TooLarge ->
  Paced.list_s3_bucket_to_csv fuel url session sleep mp s
  = Paced.with_pause (list_s3_bucket_to_csv fuel url session mp s).
Proof.
  intros Hs. unfold Paced.list_s3_bucket_to_csv, list_s3_bucket_to_csv.
  cbv zeta. rewrite paced_while_true by exact Hs.
  now destruct (while_true _ _ _ _ _ _).
Qed.

Lemma paced_buckets sleep fuel session mp buckets : forall s,
  sleep <> Paced.TooLarge ->
  Paced.for_buckets fuel buckets session sleep mp s
  = Paced.with_pause (for_buckets fuel buckets session mp s).
Proof.
  induction buckets as [|b bs IH]; intros s Hs; [reflexivity|].
  cbn [Paced.for_buckets for_buckets]. rewrite paced_bucket by exact Hs.
  destruct (list_s3_bucket_to_csv fuel b session mp s); cbn; auto.
Qed.

Lemma cut_short_while_true session url name mp fuel s :
  Paced.while_true (S fuel) Paced.TooLarge session url name mp s
  = Paced.cut_short (while_true 1 session url name mp s).
Proof.
  cbn [Paced.while_true while_true]. unfold Paced.loop_body.
  now destruct (loop_body session url name mp s).
Qed.

Lemma cut_short_bucket fuel url session mp s :
  Paced.list_s3_bucket_to_csv (S fuel) url session Paced.TooLarge mp s
  = Paced.cut_short (list_s3_bucket_to_csv 1 url session mp s).
Proof.
  unfold Paced.list_s3_bucket_to_csv, list_s3_bucket_to_csv. cbv zeta.
  rewrite cut_short_while_true.
  now destruct (while_true 1 _ _ _ _ _).
Qed.

Lemma cut_short_buckets fuel session mp buckets : forall s,
  buckets <> [] ->
  Paced.for_buckets (S fuel) buckets session Paced.TooLarge mp s
  = Paced.cut_short (for_buckets 1 buckets session mp s).
Proof.
  induction buckets as [|b bs IH]; intros s Hne; [congruence|].
  cbn [Paced.for_buckets for_buckets]. rewrite cut_short_bucket.
  destruct (list_s3_bucket_to_csv 1 b session mp s) as [s'|e s'|s'];
    cbn [Paced.cut_short Paced.with_pause]; auto.
  destruct bs as [|b' bs']; [reflexivity|]. apply IH. discriminate.
Qed.

Lemma paced_cmd_fetch sleep fuel buckets session mp :
  sleep <> Paced.TooLarge ->
  Paced.cmd_fetch fuel buckets session sleep mp
  = Paced.with_pause (cmd_fetch fuel buckets session mp).
Proof.
  intros Hs. unfold Paced.cmd_fetch, cmd_fetch.
  rewrite paced_buckets by exact Hs.
  now destruct (for_buckets _ _ _ _ _).
Qed.

Lemma cut_short_cmd_fetch fuel buckets session mp :
  Paced.cmd_fetch (S fuel) buckets session Paced.TooLarge mp
  = Paced.cut_short (cmd_fetch 1 buckets session mp).
Proof.
  unfold Paced.cmd_fetch, cmd_fetch.
  destruct buckets as [|b bs]; [reflexivity|].
  rewrite cut_short_buckets by discriminate.
  now destruct (for_buckets 1 (b :: bs) session mp (writeheader initial)).
Qed.

Lemma state_of_cut_short o : Paced.state_of (Paced.cut_short o) = state_of o.
Proof. now destruct o. Qed.

Lemma first_iteration_requests url session mp s :
  requests (state_of (list_s3_bucket_to_csv 1 url session mp s))
  = requests s ++ [(url, None)].
Proof.
  unfold list_s3_bucket_to_csv; cbv zeta.
  set (s0 := set_skipped_doi_meta 0 _).
  cbn [while_true].
  pose proof (loop_body_requests session url (bucket_name_of url) mp s0) as H.
  change (requests s0) with (requests s) in H.
  change (params s0) with (@None string) in H.
  destruct (loop_body session url (bucket_name_of url) mp s0);
    cbn [step_state state_of] in *; auto.
  cbn. now rewrite log_skipped_requests.
Qed.

Lemma first_iterations_requests session mp buckets : forall s,
  exists qs,
    requests (state_of (for_buckets 1 buckets session mp s))
    = requests s ++ qs /\
    Forall (fun q => snd q = None) qs /\
    (List.length qs <= List.length buckets)%nat.
Proof.
  induction buckets as [|b bs IH]; intros s; cbn [for_buckets].
  - exists []. cbn. rewrite app_nil_r. auto.
  - pose proof (first_iteration_requests b session mp s) as Hb.
    destruct (list_s3_bucket_to_csv 1 b session mp s) as [s1|e s1|s1];
      cbn [state_of] in *.
    + destruct (IH s1) as (qs & H & F & L).
      exists ((b, None) :: qs). rewrite H, Hb, <- app_assoc.
      repeat split; auto. cbn. lia.
    + exists [(b, None)]. repeat split; auto. cbn. lia.
    + exists [(b, None)]. repeat split; auto. cbn. lia.
Qed.

(** X25 -- the pause changes nothing of a crawl as long as it does not
    raise: with a [sleep] that is not taken or that returns, [cmd_fetch]
    sends the same requests, writes the same rows and logs the same
    records as the crawl described without the pause, and ends the same
    way.  With a pause too large for [time.sleep] the run is that of the
    first iteration of each bucket only: it ends as that iteration ends,
    and where a bucket would go on to a second page it raises
    [OverflowError].  No bucket is then asked for a second page: every
    request of the run is one without a marker, and there are no more
    requests than buckets. *)
Theorem the_pause_matters_only_when_it_raises :
  forall fuel buckets session max_pages,
    (forall sleep,
        Paced.cmd_fetch (S fuel) buckets session sleep max_pages
        = match sleep with
          | Paced.TooLarge =>
              Paced.cut_short (cmd_fetch 1 buckets session max_pages)
          | _ =>
              Paced.with_pause (cmd_fetch (S fuel) buckets session max_pages)
          end) /\
    Forall (fun q => snd q = None)
           (requests (Paced.state_of
              (Paced.cmd_fetch fuel buckets session Paced.TooLarge max_pages))) /\
    (List.length
       (requests (Paced.state_of
          (Paced.cmd_fetch fuel buckets session Paced.TooLarge max_pages)))
     <= List.length buckets)%nat.
Proof.
  intros fuel buckets session mp. split.
  - intros [| |]; [apply paced_cmd_fetch; discriminate
                  |apply paced_cmd_fetch; discriminate
                  |apply cut_short_cmd_fetch].
  - destruct fuel as [|fuel].
    + destruct buckets as [|b bs]; cbn; split; auto; lia.
    + rewrite cut_short_cmd_fetch, state_of_cut_short. unfold cmd_fetch.
      destruct (first_iterations_requests session mp buckets
                                          (writeheader initial))
        as (qs & H & F & L).
      cbn [requests writeheader initial app] in H.
      destruct (for_buckets 1 buckets session mp (writeheader initial));
        cbn [state_of logger requests] in *; rewrite H; auto.
Qed.

Example overflowing_pause_stops_the_first_bucket :
  Paced.cmd_fetch 5 [cloud_url; doi_url] two_pages Paced.TooLarge None
  = Paced.Raised Paced.OverflowError
      (state_of (cmd_fetch 1 [cloud_url; doi_url] two_pages None)) /\
  requests (state_of (cmd_fetch 1 [cloud_url; doi_url] two_pages None))
  = [(cloud_url, None)] /\
  List.length (csv_rows (state_of (cmd_fetch 1 [cloud_url; doi_url]
                                             two_pages None))) = 2%nat.
Proof. repeat split; reflexivity. Qed.

(** *** The name of a bucket *)

Lemma rstrip_char_all c tail :
  all_char c tail = true -> rstrip_char c tail = EmptyString.
Proof.
  induction tail as [|a tail IH]; cbn; auto.
  intros H. apply andb_true_iff in H as [Ha Ht]. now rewrite (IH Ht), Ha.
Qed.

Lemma rstrip_char_app c tail : forall s,
  all_char c tail = true -> rstrip_char c (s ++ tail) = rstrip_char c s.
Proof.
  induction s as [|a s IH]; intros H; cbn.
  - now apply rstrip_char_all.
  - now rewrite IH.
Qed.

Lemma rstrip_char_keep c a : forall pre,
  a <> c ->
  rstrip_char c (pre ++ String a EmptyString) = (pre ++ String a EmptyString)%string.
Proof.
  induction pre as [|b pre IH]; intros Ha; cbn.
  - apply Ascii.eqb_neq in Ha. now rewrite Ha.
  - rewrite (IH Ha). now destruct pre.
Qed.

Lemma last_char_of c : forall s,
  s <> EmptyString -> has_char c s = false ->
  exists pre a, s = (pre ++ String a EmptyString)%string /\ a <> c.
Proof.
  induction s as [|b s IH]; intros Hne Hc; [congruence|].
  cbn in Hc. apply orb_false_iff in Hc as [Hb Hs].
  destruct s as [|b' s'].
  - exists EmptyString, b. split; auto. now apply Ascii.eqb_neq.
  - destruct IH as (pre & a & E & Ha); [discriminate|exact Hs|].
    exists (String b pre), a. cbn. now rewrite E.
Qed.

Lemma split_single c : forall s, has_char c s = false -> split c s = [s].
Proof.
  induction s as [|a s IH]; cbn; auto.
  intros H. apply orb_false_iff in H as [Ha Hs]. now rewrite Ha, (IH Hs).
Qed.

Lemma split_after c rest : forall pre,
  exists l, l <> [] /\ split c (pre ++ String c rest) = l ++ split c rest.
Proof.
  induction pre as [|a pre IH]; cbn.
  - rewrite Ascii.eqb_refl. now exists [EmptyString].
  - destruct IH as (l & Hl & ->).
    destruct (Ascii.eqb a c).
    + exists (EmptyString :: l). split; [discriminate|reflexivity].
    + destruct l as [|h t]; [congruence|].
      exists (String a h :: t). split; [discriminate|reflexivity].
Qed.

Lemma last_app_nonempty {A : Type} (l l2 : list A) d :
  l2 <> [] -> List.last (l ++ l2) d = List.last l2 d.
Proof.
  intros H. induction l as [|x l IH]; auto.
  cbn [app]. cbn [List.last]. destruct (l ++ l2) eqn:E; auto.
  destruct l; cbn in E; congruence.
Qed.

Lemma split_parts c : forall s,
  Forall (fun part => has_char c part = false) (split c s).
Proof.
  induction s as [|a s IH]; cbn; [now repeat constructor|].
  destruct (Ascii.eqb a c) eqn:Ea; [now constructor|].
  destruct (split c s) as [|h t]; [now repeat constructor; cbn; rewrite Ea|].
  inversion IH; subst. constructor; auto. cbn. now rewrite Ea.
Qed.

(** X9 -- the bucket name is the last path segment of the URL once
    trailing slashes are dropped: any number of trailing slashes gives
    the same name, a URL without a slash is its own name, a URL made of
    slashes only (or empty) has the empty name, and the name never
    contains a slash. *)
Theorem bucket_name_is_the_last_segment :
  (forall pre name tail,
      name <> "" -> has_char "/" name = false -> all_char "/" tail = true ->
      bucket_name_of (pre ++ "/" ++ name ++ tail) = name /\
      bucket_name_of (name ++ tail) = name) /\
  (forall url, all_char "/" url = true -> bucket_name_of url = "") /\
  (forall url, has_char "/" (bucket_name_of url) = false).
Proof.
  split; [|split].
  - intros pre name tail Hne Hc Ht.
    destruct (last_char_of "/" name Hne Hc) as (n' & a & -> & Ha).
    unfold bucket_name_of. split.
    + replace (pre ++ "/" ++ (n' ++ String a "") ++ tail)%string
        with (((pre ++ "/" ++ n') ++ String a "") ++ tail)%string
        by (now rewrite !AggregatorFacts.app_assoc_str).
      rewrite rstrip_char_app, rstrip_char_keep by auto.
      replace ((pre ++ "/" ++ n') ++ String a "")%string
        with (pre ++ String "/" (n' ++ String a ""))%string
        by (now rewrite !AggregatorFacts.app_assoc_str).
      destruct (split_after "/" (n' ++ String a "") pre) as (l & Hl & ->).
      rewrite (split_single _ _ Hc). now apply last_app_nonempty.
    + rewrite rstrip_char_app, rstrip_char_keep by auto.
      now rewrite (split_single _ _ Hc).
  - intros url H. unfold bucket_name_of. now rewrite rstrip_char_all.
  - intros url. unfold bucket_name_of.
    pose proof (split_parts "/" (rstrip_char "/" url)) as F.
    induction F as [|part l Hp F IH]; auto.
    cbn [List.last]. now destruct l.
Qed.

Lemma bucket_name_witness :
  bucket_name_of ("https://os.zhdk.cloud.switch.ch" ++ "/" ++ "envidat-doi"
                  ++ "//")
  = "envidat-doi" /\
  bucket_name_of ("envidat-doi" ++ "//") = "envidat-doi".
Proof.
  destruct bucket_name_is_the_last_segment as [H _].
  apply (H "https://os.zhdk.cloud.switch.ch" "envidat-doi" "//");
    [discriminate|reflexivity|reflexivity].
Defined.

End CrawlerMore.


(* ================================================================== *)
(** * Further properties of the aggregation *)

Module AggregatorMore.
Import PyStr OsPath Aggregator Samples AggregatorFacts.

(** *** The extension of a whole key *)

Lemma rfind_app_absent c b : forall a,
  has_char c b = false -> rfind c (a ++ b) = rfind c a.
Proof.
  intros a Hb. induction a as [|x a IH]; cbn [append rfind].
  - now apply rfind_absent.
  - now rewrite IH.
Qed.

Lemma split_at_last c : forall s,
  has_char c s = true ->
  exists pre suf, s = (pre ++ String c suf)%string /\ has_char c suf = false.
Proof.
  induction s as [|a s IH]; cbn; [discriminate|].
  destruct (has_char c s) eqn:Hs.
  - intros _. destruct (IH eq_refl) as (pre & suf & -> & Hsuf).
    now exists (String a pre), suf.
  - rewrite orb_false_r. intros Ha. apply Ascii.eqb_eq in Ha. subst a.
    now exists EmptyString, s.
Qed.

(** A key is a directory part, empty or ending in the separator,
    followed by its basename. *)
Lemma key_is_dir_and_basename k :
  exists dir,
    k = (dir ++ basename k)%string /\
    rfind "/" k = Z.of_nat (String.length dir) - 1.
Proof.
  destruct (has_char "/" k) eqn:Hc.
  - destruct (split_at_last "/" k Hc) as (pre & suf & -> & Hsuf).
    exists (pre ++ "/")%string. unfold basename, slice_from.
    rewrite (rfind_last "/" pre suf Hsuf).
    replace (Z.of_nat (String.length pre) + 1)
      with (Z.of_nat (String.length (pre ++ "/"))) at 1
      by (rewrite length_app_str; cbn; lia).
    rewrite (snoc_app_str pre "/" suf).
    rewrite slice_bound_of_nat by (rewrite (length_app_str (pre ++ "/")); lia).
    rewrite drop_app_length. split; [reflexivity|].
    rewrite length_app_str. cbn. lia.
  - exists EmptyString. unfold basename, slice_from.
    rewrite (rfind_absent _ _ Hc).
    change (-1 + 1) with (Z.of_nat 0).
    rewrite slice_bound_of_nat by lia. cbn. auto.
Qed.

Lemma splitext_of_path dir base :
  has_char "/" base = false ->
  rfind "/" (dir ++ base) = Z.of_nat (String.length dir) - 1 ->
  snd (splitext (dir ++ base)) = snd (splitext base).
Proof.
  intros Hsep Hdir.
  destruct (has_char "." base) eqn:Hdot.
  - destruct (split_at_last "." base Hdot) as (pre & suf & -> & Hsuf).
    rewrite (splitext_by_last_dot _ pre suf Hsep eq_refl Hsuf).
    unfold splitext. rewrite Hdir.
    rewrite <- app_assoc_str.
    rewrite (rfind_last "." (dir ++ pre) suf Hsuf).
    replace (Z.of_nat (String.length dir) - 1
             <? Z.of_nat (String.length (dir ++ pre))) with true
      by (symmetry; apply Z.ltb_lt; rewrite length_app_str; lia).
    replace (Z.of_nat (String.length dir) - 1 + 1)
      with (Z.of_nat (String.length dir)) by lia.
    rewrite app_assoc_str.
    destruct (all_char "." pre) eqn:Hpre.
    + rewrite (length_app_str dir pre).
      now rewrite (scan_in_dots _ dir pre (String "." suf) Hpre).
    + destruct (first_other_char _ _ Hpre) as (l & a & r & -> & Hl & Ha).
      rewrite !app_assoc_str. cbn [append].
      rewrite (scan_hits l _ dir a (r ++ String "." suf) _ Hl Ha).
      * cbn [snd]. unfold slice_from.
        replace (dir ++ l ++ String a (r ++ String "." suf))%string
          with ((dir ++ l ++ String a r) ++ String "." suf)%string
          by (now rewrite !app_assoc_str).
        rewrite slice_bound_of_nat
          by (rewrite (length_app_str (dir ++ l ++ String a r)); lia).
        apply drop_app_length.
      * rewrite !length_app_str. cbn. rewrite !length_app_str. cbn. lia.
      * rewrite !length_app_str. cbn. lia.
  - assert (E : snd (splitext base) = EmptyString).
    { unfold splitext. rewrite (rfind_absent _ _ Hsep), (rfind_absent _ _ Hdot).
      cbn. apply slice_to_zero. }
    rewrite E. unfold splitext. rewrite Hdir, (rfind_app_absent "." base dir Hdot).
    pose proof (rfind_bounds "." dir) as Hb.
    replace (Z.of_nat (String.length dir) - 1 <? rfind "." dir) with false
      by (symmetry; apply Z.ltb_ge; lia).
    cbn. apply slice_to_zero.
Qed.

(** The extension that [os.path.splitext] gives does not depend on the
    directories of a key: it is the extension of the basename. *)
Lemma splitext_extension_of_basename :
  forall k, snd (splitext k) = snd (splitext (basename k)).
Proof.
  intros k. destruct (key_is_dir_and_basename k) as (dir & Hk & Hr).
  rewrite Hk at 1. apply splitext_of_path.
  - apply basename_has_no_sep.
  - now rewrite <- Hk.
Qed.

Lemma blank_has_no_dot k : strip k = EmptyString -> has_char "." k = false.
Proof.
  intros E. destruct (has_char "." k) eqn:H; auto.
  now elim (strip_not_empty "." k eq_refl H).
Qed.

Lemma no_dot_no_ext base : has_char "." base = false -> snd (splitext base) = "".
Proof.
  intros Hdot. unfold splitext. rewrite (rfind_absent _ _ Hdot).
  pose proof (rfind_bounds "/" base) as Hb.
  replace (rfind "/" base <? -1) with false by (symmetry; apply Z.ltb_ge; lia).
  cbn. apply slice_to_zero.
Qed.

Lemma get_ext_of_basename :
  forall k,
    get_ext (Some k)
    = if (lower (snd (splitext (basename k))) =? "")%string then "<no_ext>"
      else lower (snd (splitext (basename k))).
Proof.
  intros k. unfold get_ext.
  destruct (String.eqb_spec (strip k) "") as [E|_].
  - apply blank_has_no_dot in E.
    assert (Hb : has_char "." (basename k) = false).
    { destruct (has_char "." (basename k)) eqn:H; auto.
      apply basename_chars in H. congruence. }
    now rewrite (no_dot_no_ext _ Hb).
  - destruct (has_char "." (basename k)) eqn:Hb; cbn [negb]; auto.
    now rewrite (no_dot_no_ext _ Hb).
Qed.

(** X10 -- the label of the aggregation and the extension of the crawl
    agree: for every key the label is the lower-cased extension that
    [splitext] gives for the whole key (directories play no part), and
    ['<no_ext>'] when that extension is empty. *)
Theorem get_ext_is_the_lowered_splitext :
  forall k,
    get_ext (Some k)
    = if (lower (snd (splitext k)) =? "")%string then "<no_ext>"
      else lower (snd (splitext k)).
Proof.
  intros k. rewrite (splitext_extension_of_basename k).
  apply get_ext_of_basename.
Qed.

Lemma get_ext_lowered_splitext :
  forall k,
    get_ext (Some k)
    = if (lower (snd (splitext k)) =? "")%string then "<no_ext>"
      else lower (snd (splitext k)).
Proof.
  intros k. rewrite (splitext_extension_of_basename k).
  apply get_ext_of_basename.
Qed.

Lemma doi_candidate_ok url name s content :
  Crawler.csv_rows (Crawler.process_content url name s content)
  = Crawler.csv_rows s \/
  (Crawler.csv_rows (Crawler.process_content url name s content)
   = Crawler.csv_rows s ++ [Crawler.candidate url name content] /\
   Crawler.rule_doi_meta
     (Crawler.bucket_name (Crawler.candidate url name content))
     (Crawler.key (Crawler.candidate url name content)) = false).
Proof.
  destruct (CrawlerFacts.process_content_cases url name s content)
    as [[_ ->]|[(_ & _ & ->)|(_ & H & ->)]]; cbn; auto.
Qed.

(** X11 -- what the crawl drops the aggregation never shows: no row
    that [cmd_fetch] writes for a bucket named envidat-doi gets the
    label .html, .json or .xml from [get_ext]. *)
Theorem doi_rows_never_get_a_metadata_label :
  forall fuel buckets session max_pages,
    Forall (fun r => Crawler.bucket_name r = "envidat-doi" ->
                     in_tuple (get_ext (Crawler.key r))
                              [".html"; ".json"; ".xml"] = false)
           (Crawler.csv_rows
              (Crawler.state_of
                 (Crawler.cmd_fetch fuel buckets session max_pages))).
Proof.
  intros fuel buckets session mp.
  eapply Forall_impl;
    [|apply (CrawlerFacts.inv_cmd_fetch
               (fun r => Crawler.rule_doi_meta (Crawler.bucket_name r)
                                               (Crawler.key r) = false)
               doi_candidate_ok)].
  intros r Hr Hn. cbn beta in Hr. rewrite Hn in Hr.
  unfold Crawler.rule_doi_meta in Hr. cbn in Hr.
  destruct (Crawler.key r) as [k|]; [|reflexivity].
  rewrite get_ext_lowered_splitext.
  destruct (String.eqb_spec (lower (snd (splitext k))) ""); [reflexivity|].
  exact Hr.
Qed.

(** *** Where the keys of a groupby come from *)

Section GroupKeys.
Context {R K : Type} (eqb : K -> K -> bool) (leb : K -> K -> bool).
Hypothesis eqb_eq : forall a b, eqb a b = true <-> a = b.
Variable key : R -> option K.

Lemma keys_of_inv rows k :
  In k (keys_of key rows) -> exists r, In r rows /\ key r = Some k.
Proof.
  induction rows as [|x rows IH]; cbn; [tauto|].
  destruct (key x) as [k'|] eqn:E.
  - intros [<-|H]; [now exists x; auto|].
    destruct (IH H) as (r & Hr & Hk). exists r. auto.
  - intros H. destruct (IH H) as (r & Hr & Hk). exists r. auto.
Qed.

Lemma group_keys_inv rows k :
  In k (group_keys eqb leb key rows) -> exists r, In r rows /\ key r = Some k.
Proof.
  intros H. unfold group_keys in H.
  eapply Permutation_in in H; [|apply sort_keys_perm].
  apply (proj1 (unique_in eqb leb eqb_eq k _)) in H. now apply keys_of_inv.
Qed.

Lemma aggregate_keys agg rows :
  map fst (aggregate agg (groupby eqb leb key rows))
  = group_keys eqb leb key rows.
Proof.
  unfold aggregate, groupby. rewrite !map_map. cbn. apply map_id.
Qed.

End GroupKeys.

(** *** The top-N cutoff *)

Lemma in_tuple_in x t : in_tuple x t = true -> In x t.
Proof.
  unfold in_tuple. rewrite existsb_exists.
  intros (y & Hy & E). apply String.eqb_eq in E. now subst.
Qed.

Lemma iloc_to_length {A : Type} (n : Z) (l : list A) :
  0 <= n -> (List.length (iloc_to n l) <= Z.to_nat n)%nat.
Proof.
  intros Hn. unfold iloc_to.
  replace (n <? 0) with false by (symmetry; apply Z.ltb_ge; lia).
  rewrite length_firstn. lia.
Qed.

(** *** The Sankey figures *)

Lemma nth_error_map_pair {A B : Type} (l : list (A * B)) i a b :
  nth_error (map fst l) i = Some a -> nth_error (map snd l) i = Some b ->
  In (a, b) l.
Proof.
  revert i. induction l as [|[x y] l IH]; intros [|i]; cbn; try discriminate.
  - intros [= <-] [= <-]. now left.
  - intros Ha Hb. right. eauto.
Qed.

Lemma nth_error_targets (len i : nat) :
  (i < len)%nat ->
  nth_error (map (fun j => 1 + Z.of_nat j) (seq 0 len)) i
  = Some (1 + Z.of_nat i).
Proof.
  intros H. rewrite nth_error_map, nth_error_seq.
  destruct (Nat.ltb_spec i len); [reflexivity|lia].
Qed.

Lemma sankey_link total_label (tbl : list (string * Z)) i e v :
  nth_error (node_label (sankey total_label tbl)) (S i) = Some e ->
  nth_error (link_value (sankey total_label tbl)) i = Some v ->
  In (e, v) tbl /\
  nth_error (link_source (sankey total_label tbl)) i = Some 0 /\
  nth_error (link_target (sankey total_label tbl)) i = Some (1 + Z.of_nat i).
Proof.
  cbn. intros He Hv.
  assert (Hi : (i < List.length tbl)%nat).
  { pose proof (proj1 (nth_error_Some (map snd tbl) i)) as H.
    rewrite length_map in H. apply H. congruence. }
  split; [eapply nth_error_map_pair; eauto|]. split.
  - rewrite nth_error_map.
    destruct (nth_error tbl i) eqn:E; [reflexivity|].
    apply nth_error_None in E. lia.
  - now apply nth_error_targets.
Qed.

(** X13 -- the links of both Sankey figures agree with their labels:
    the i-th link leaves node 0 and enters node i+1; in the count figure
    its value is the number (as int64) of rows whose extension is the
    label of that node, in the byte figure it is the int64 sum of their
    sizes. *)
Theorem sankey_links_match_their_labels :
  forall df top_n i e v,
    (nth_error (node_label (sankey_fig (cmd_visualize df top_n))) (S i) = Some e ->
     nth_error (link_value (sankey_fig (cmd_visualize df top_n))) i = Some v ->
     v = size64 (filter (fun r => (extension r =? e)%string) df) /\
     nth_error (link_source (sankey_fig (cmd_visualize df top_n))) i = Some 0 /\
     nth_error (link_target (sankey_fig (cmd_visualize df top_n))) i
     = Some (1 + Z.of_nat i)) /\
    (nth_error (node_label (sankey_bytes_fig (cmd_visualize df top_n))) (S i)
     = Some e ->
     nth_error (link_value (sankey_bytes_fig (cmd_visualize df top_n))) i
     = Some v ->
     v = sum64 (map size_bytes
                    (filter (fun r => (extension r =? e)%string) df)) /\
     nth_error (link_source (sankey_bytes_fig (cmd_visualize df top_n))) i
     = Some 0 /\
     nth_error (link_target (sankey_bytes_fig (cmd_visualize df top_n))) i
     = Some (1 + Z.of_nat i)).
Proof.
  intros df top_n i e v.
  unfold cmd_visualize; cbv zeta. cbn [sankey_fig sankey_bytes_fig].
  split; intros He Hv;
    destruct (sankey_link _ _ i e v He Hv) as (Hin & Hs & Ht);
    (split; [|now split]);
    eapply Permutation_in in Hin; try apply sort_values_desc_perm;
    apply (aggregate_in String.eqb String.leb) in Hin as [_ ->];
    reflexivity.
Qed.

Lemma sankey_links_witness :
  6 = size64 (filter (fun r => (extension r =? ".json")%string)
                     (mixed_df ++ [mkDfRow None (Some "q.JSON") 7])) /\
  nth_error (link_source
               (sankey_fig (cmd_visualize
                              (mixed_df ++ [mkDfRow None (Some "q.JSON") 7])
                              None))) 1 = Some 0 /\
  nth_error (link_target
               (sankey_fig (cmd_visualize
                              (mixed_df ++ [mkDfRow None (Some "q.JSON") 7])
                              None))) 1 = Some (1 + Z.of_nat 1).
Proof.
  destruct (sankey_links_match_their_labels
              (mixed_df ++ [mkDfRow None (Some "q.JSON") 7]) None 1 ".json" 6)
    as [H _].
  apply H; reflexivity.
Defined.

Lemma insert_desc_sorted {K : Type} (x : K * Z) l :
  StronglySorted (fun a b => snd b <= snd a) l ->
  StronglySorted (fun a b => snd b <= snd a) (insert_desc x l).
Proof.
  induction 1 as [|y l Hl IH Hy]; cbn.
  - constructor; constructor.
  - destruct (snd y <=? snd x) eqn:E.
    + apply Z.leb_le in E. constructor; [now constructor|].
      constructor; auto.
      eapply Forall_impl; [|exact Hy]. cbn. intros z Hz. lia.
    + apply Z.leb_gt in E. constructor; auto.
      eapply Permutation_Forall;
        [apply Permutation_sym, insert_desc_perm|].
      constructor; auto. lia.
Qed.

Lemma sort_values_desc_sorted {K : Type} (l : list (K * Z)) :
  StronglySorted (fun a b => snd b <= snd a) (sort_values_desc l).
Proof.
  induction l as [|x l IH]; cbn; [constructor|].
  now apply insert_desc_sorted.
Qed.

Lemma sorted_values {K : Type} (l : list (K * Z)) :
  StronglySorted (fun a b => snd b <= snd a) l ->
  StronglySorted (fun a b => b <= a) (map snd l).
Proof.
  induction 1 as [|y l Hl IH Hy]; cbn; constructor; auto.
  apply Forall_forall. intros v Hv.
  apply in_map_iff in Hv as (z & <- & Hz).
  rewrite Forall_forall in Hy. auto.
Qed.

(** X14 -- in both Sankey figures the links come in non-increasing
    order of value: no link is larger than a link before it. *)
Theorem sankey_links_are_in_descending_order :
  forall df top_n,
    StronglySorted (fun a b => b <= a)
                   (link_value (sankey_fig (cmd_visualize df top_n))) /\
    StronglySorted (fun a b => b <= a)
                   (link_value (sankey_bytes_fig (cmd_visualize df top_n))).
Proof.
  intros df top_n. unfold cmd_visualize; cbv zeta.
  cbn [sankey_fig sankey_bytes_fig sankey link_value].
  split; apply sorted_values, sort_values_desc_sorted.
Qed.

(** *** The cutoff, whatever the order of equal counts *)

Lemma sorted_split {A : Type} (R : A -> A -> Prop) (k : nat) : forall l a b,
  StronglySorted R l -> In a (firstn k l) -> In b (skipn k l) -> R a b.
Proof.
  induction k as [|k IH]; intros [|x l] a b Hs Ha Hb; cbn in *; try tauto.
  inversion Hs as [|? ? Hs' Hx]; subst.
  destruct Ha as [<-|Ha]; [|now apply (IH l)].
  rewrite Forall_forall in Hx. apply Hx.
  rewrite <- (firstn_skipn k l). apply in_or_app. now right.
Qed.

Lemma keyed_value {K V : Type} (l : list (K * V)) k v v' :
  NoDup (map fst l) -> In (k, v) l -> In (k, v') l -> v = v'.
Proof.
  induction l as [|[k0 v0] l IH]; cbn; [tauto|].
  intros Hn H H'. inversion Hn as [|? ? Hnot Hn']; subst.
  destruct H as [E|H], H' as [E'|H'].
  - congruence.
  - injection E as -> ->. exfalso. apply Hnot.
    apply in_map_iff. now exists (k, v').
  - injection E' as -> ->. exfalso. apply Hnot.
    apply in_map_iff. now exists (k, v).
  - now apply IH.
Qed.

Lemma counts_by_ext_keys df : NoDup (map fst (counts_by_ext df)).
Proof.
  unfold counts_by_ext. rewrite aggregate_keys.
  apply (group_keys_nodup String.eqb String.leb String.eqb_eq).
Qed.

Lemma sort_values_desc_allowed {K : Type} (tbl : list (K * Z)) :
  sorted_desc_of tbl (sort_values_desc tbl).
Proof.
  split; [|apply sort_values_desc_sorted].
  apply Permutation_sym, sort_values_desc_perm.
Qed.

Lemma iloc_to_firstn {A : Type} (n : Z) (l : list A) :
  exists k, iloc_to n l = firstn k l.
Proof. unfold iloc_to. eauto. Qed.

(** X12 -- the cutoff keeps the most frequent extensions, whatever the
    sort does with extensions of equal count.  Let [order] be any way
    [sort_values] may return the table of counts by extension (its
    rows, larger counts first) and [top_exts] its first [n] extensions
    ([iloc[:n]]).  Then at most [n] extensions are kept for [n >= 0];
    every extension node of the count sunburst built from them is
    labelled ['<other>'] or with a kept extension; a kept extension
    occurs in the frame; and no extension left out has a larger count
    than a kept one.  The figure of [cmd_visualize] is the one built
    from the order in which rows of equal count keep their place, which
    is one of these orders. *)
Theorem top_n_keeps_the_most_frequent_extensions :
  forall df n,
    (sorted_desc_of (counts_by_ext df) (sort_values_desc (counts_by_ext df)) /\
     sunburst_fig (cmd_visualize df (Some n))
     = count_sunburst df n (sort_values_desc (counts_by_ext df))) /\
    (forall order,
        sorted_desc_of (counts_by_ext df) order ->
        let top_exts := map fst (iloc_to n order) in
        (0 <= n -> (List.length top_exts <= Z.to_nat n)%nat) /\
        (forall leaf,
            In leaf (leaves (count_sunburst df n order)) ->
            label leaf = "<other>" \/ In (label leaf) top_exts) /\
        (forall e, In e top_exts -> exists r, In r df /\ extension r = e) /\
        (forall e c e' c',
            In (e, c) (counts_by_ext df) -> In (e', c') (counts_by_ext df) ->
            In e top_exts -> ~ In e' top_exts -> c' <= c)).
Proof.
  intros df n. split; [split; [apply sort_values_desc_allowed|reflexivity]|].
  intros order [Hperm Hsorted] top_exts. split; [|split; [|split]].
  - intros Hn. unfold top_exts. rewrite length_map. now apply iloc_to_length.
  - intros leaf H. unfold count_sunburst in H. rewrite sunburst_leaves in H.
    apply in_map_iff in H as ([k v] & <- & Hrow). cbn [label ext_node fst snd].
    unfold collapse_to in Hrow; cbv zeta in Hrow.
    apply (aggregate_in eqb2 leb2) in Hrow as [Hk _].
    apply (group_keys_inv eqb2 leb2 eqb2_eq) in Hk as (r & Hr & E).
    apply in_map_iff in Hr as (r0 & <- & _). cbn in E. injection E as <-.
    cbn [snd].
    destruct (in_tuple (snd (fst r0)) _) eqn:Ht; [right|now left].
    now apply in_tuple_in.
  - intros e He. unfold top_exts in He.
    apply in_map_iff in He as ([e0 c0] & <- & Hin). cbn [fst].
    destruct (iloc_to_firstn n order) as [k Ek]. rewrite Ek in Hin.
    assert (Ho : In (e0, c0) order).
    { rewrite <- (firstn_skipn k order). apply in_or_app. now left. }
    apply (Permutation_in _ (Permutation_sym Hperm)) in Ho.
    apply (in_map fst) in Ho. cbn [fst] in Ho. unfold counts_by_ext in Ho.
    rewrite aggregate_keys in Ho.
    apply (group_keys_inv String.eqb String.leb String.eqb_eq) in Ho
      as (r & Hr & [= E]). eauto.
  - intros e c e' c' Hc Hc' He He'. unfold top_exts in He, He'.
    destruct (iloc_to_firstn n order) as [k Ek]. rewrite Ek in He, He'.
    assert (Hkeys : NoDup (map fst order)).
    { eapply Permutation_NoDup; [apply Permutation_map, Hperm|].
      apply counts_by_ext_keys. }
    apply (Permutation_in _ Hperm) in Hc, Hc'.
    assert (H1 : In (e, c) (firstn k order)).
    { apply in_map_iff in He as ([e0 c0] & E & Hin). cbn in E. subst e0.
      assert (Ho : In (e, c0) order).
      { rewrite <- (firstn_skipn k order). apply in_or_app. now left. }
      now rewrite (keyed_value order e c c0 Hkeys Hc Ho). }
    assert (H2 : In (e', c') (skipn k order)).
    { rewrite <- (firstn_skipn k order) in Hc'.
      apply in_app_or in Hc' as [Hin|Hin]; [|exact Hin].
      exfalso. apply He'. apply in_map_iff. now exists (e', c'). }
    exact (sorted_split _ k order _ _ Hsorted H1 H2).
Qed.

Lemma top_n_witness :
  (List.length (map fst (iloc_to 1 [(".bb", 1); (".aa", 1)])) <= Z.to_nat 1)%nat /\
  (forall leaf,
      In leaf (leaves (count_sunburst tied_df 1 [(".bb", 1); (".aa", 1)])) ->
      label leaf = "<other>" \/ In (label leaf) [".bb"]) /\
  (forall e c e' c',
      In (e, c) (counts_by_ext tied_df) -> In (e', c') (counts_by_ext tied_df) ->
      In e [".bb"] -> ~ In e' [".bb"] -> c' <= c).
Proof.
  destruct (top_n_keeps_the_most_frequent_extensions tied_df 1) as [_ H].
  destruct (H [(".bb", 1); (".aa", 1)]) as (Hlen & Hleaf & _ & Hrank).
  - split.
    + assert (E : counts_by_ext tied_df = [(".aa", 1); (".bb", 1)])
        by reflexivity.
      rewrite E. apply perm_swap.
    + repeat constructor; cbn; lia.
  - split; [apply Hlen; lia|]. split; [exact Hleaf|exact Hrank].
Defined.

Example tie_order_decides_the_kept_extension :
  map label (leaves (count_sunburst tied_df 1 [(".bb", 1); (".aa", 1)]))
  = [".bb"; "<other>"] /\
  map label (leaves (sunburst_fig (cmd_visualize tied_df (Some 1))))
  = [".aa"; "<other>"].
Proof. split; reflexivity. Qed.

(** *** The labels *)

Lemma splitext_shape k :
  snd (splitext k) = "" \/ exists suf, snd (splitext k) = String "." suf.
Proof.
  rewrite splitext_extension_of_basename.
  destruct (has_char "." (basename k)) eqn:Hdot.
  - destruct (split_at_last "." _ Hdot) as (pre & suf & E & Hsuf).
    rewrite (splitext_by_last_dot _ pre suf (basename_has_no_sep k) E Hsuf).
    destruct (all_char "." pre); eauto.
  - left. now apply no_dot_no_ext.
Qed.

Lemma get_ext_shape k :
  get_ext k = "<no_ext>" \/ exists suf, get_ext k = String "." suf.
Proof.
  destruct k as [k|]; [|now left].
  rewrite get_ext_lowered_splitext.
  destruct (splitext_shape k) as [->|[suf ->]]; [now left|].
  right. cbn. eauto.
Qed.

Lemma ext_keys_exact (df : list DfRow) e :
  In e (group_keys String.eqb String.leb key_ext df)
  <-> exists r, In r df /\ extension r = e.
Proof.
  split.
  - intros H.
    apply (group_keys_inv String.eqb String.leb String.eqb_eq) in H
      as (r & Hr & [= E]). eauto.
  - intros (r & Hr & E).
    apply (group_keys_cover String.eqb String.leb String.eqb_eq key_ext df r);
      auto. unfold key_ext. now rewrite E.
Qed.

Lemma sankey_labels total_label (agg : list DfRow -> Z) df :
  (forall k, total_label <> get_ext k) ->
  let fig :=
    sankey total_label
           (sort_values_desc
              (aggregate agg (groupby String.eqb String.leb key_ext df))) in
  NoDup (node_label fig) /\
  (forall e, In e (tl (node_label fig))
             <-> exists r, In r df /\ extension r = e).
Proof.
  intros Hlabel fig.
  assert (Hperm : Permutation (tl (node_label fig))
                              (group_keys String.eqb String.leb key_ext df)).
  { cbn. rewrite <- (aggregate_keys String.eqb String.leb key_ext agg df).
    apply Permutation_map, sort_values_desc_perm. }
  split.
  - cbn. constructor.
    + intros Hin. change (In total_label (tl (node_label fig))) in Hin.
      eapply Permutation_in in Hin; [|exact Hperm].
      apply ext_keys_exact in Hin as (r & _ & E).
      apply (Hlabel (key r)). now rewrite <- E.
    + change (NoDup (tl (node_label fig))).
      eapply Permutation_NoDup; [apply Permutation_sym, Hperm|].
      apply (group_keys_nodup String.eqb String.leb String.eqb_eq).
  - intros e. rewrite <- ext_keys_exact. split; intros H.
    + eapply Permutation_in; eauto.
    + eapply Permutation_in; [apply Permutation_sym|]; eauto.
Qed.

(** X15 -- both Sankey figures have one node per distinct extension
    besides the total node: the labels are pairwise different, and a
    label other than the first occurs exactly when some row of the frame
    has that extension (no cutoff changes this). *)
Theorem sankey_has_one_node_per_extension :
  forall df top_n,
    (NoDup (node_label (sankey_fig (cmd_visualize df top_n))) /\
     forall e, In e (tl (node_label (sankey_fig (cmd_visualize df top_n))))
               <-> exists r, In r df /\ extension r = e) /\
    (NoDup (node_label (sankey_bytes_fig (cmd_visualize df top_n))) /\
     forall e, In e (tl (node_label (sankey_bytes_fig (cmd_visualize df top_n))))
               <-> exists r, In r df /\ extension r = e).
Proof.
  intros df top_n. unfold cmd_visualize; cbv zeta.
  cbn [sankey_fig sankey_bytes_fig].
  split; apply sankey_labels; intros k E;
    destruct (get_ext_shape k) as [H|[suf H]]; rewrite H in E; discriminate.
Qed.

(** *** The shape of a sunburst *)

Lemma bucket_totals_keys tbl :
  map fst (bucket_totals tbl) = group_keys String.eqb String.leb key_bucket tbl.
Proof. apply aggregate_keys. Qed.

Lemma sunburst_parents root_label tbl n :
  In n (sunburst root_label tbl) ->
  (n = mkNode "root" root_label "" (sum64 (map snd tbl))) \/
  (parent n = "root" /\ exists b, id n = bucket_id b /\
                                  In b (map fst (bucket_totals tbl))) \/
  (exists row, In row tbl /\ n = ext_node row /\
               In (fst (fst row)) (map fst (bucket_totals tbl))).
Proof.
  rewrite sunburst_shape. intros [<-|H]; [now left|].
  apply in_app_or in H as [H|H]; right.
  - left. apply in_map_iff in H as (row & <- & Hrow).
    split; [reflexivity|]. exists (fst row). split; [reflexivity|].
    now apply in_map.
  - right. apply in_map_iff in H as (row & <- & Hrow).
    exists row. repeat split; auto.
    rewrite bucket_totals_keys.
    now apply (group_keys_cover String.eqb String.leb String.eqb_eq
                                key_bucket tbl row).
Qed.

Lemma sunburst_is_a_tree root_label tbl n :
  In n (sunburst root_label tbl) ->
  (id n = "root" /\ parent n = "") \/
  exists m, In m (sunburst root_label tbl) /\ id m = parent n.
Proof.
  intros H. destruct (sunburst_parents _ _ _ H)
    as [->|[(Hp & _)|(row & Hrow & -> & Hb)]].
  - now left.
  - right. exists (mkNode "root" root_label "" (sum64 (map snd tbl))).
    rewrite Hp. split; [|reflexivity]. rewrite sunburst_shape. now left.
  - right. apply in_map_iff in Hb as (brow & E & Hbrow).
    exists (bucket_node brow). split.
    + rewrite sunburst_shape. right. apply in_or_app. left. now apply in_map.
    + cbn. now rewrite E.
Qed.

(** X16 -- both sunbursts are well-formed hierarchies for every frame
    and cutoff: each node is either the root (id ['root'], no parent) or
    has a parent id that is the id of a node of the figure; an extension
    node always hangs under the node of its own bucket. *)
Theorem sunburst_nodes_have_their_parent :
  forall df top_n n,
    (In n (sunburst_fig (cmd_visualize df top_n)) ->
     (id n = "root" /\ parent n = "") \/
     exists m, In m (sunburst_fig (cmd_visualize df top_n)) /\
               id m = parent n) /\
    (In n (sunburst_bytes_fig (cmd_visualize df top_n)) ->
     (id n = "root" /\ parent n = "") \/
     exists m, In m (sunburst_bytes_fig (cmd_visualize df top_n)) /\
               id m = parent n).
Proof.
  intros df top_n n. unfold cmd_visualize; cbv zeta.
  cbn [sunburst_fig sunburst_bytes_fig].
  split; apply sunburst_is_a_tree.
Qed.

Lemma sunburst_tree_witness :
  (id (mkNode "b|.csv" ".csv" "bucket:b" 10) = "root" /\
   parent (mkNode "b|.csv" ".csv" "bucket:b" 10) = "") \/
  exists m, In m (sunburst_fig (cmd_visualize mixed_df (Some 2))) /\
            id m = parent (mkNode "b|.csv" ".csv" "bucket:b" 10).
Proof.
  destruct (sunburst_nodes_have_their_parent
              mixed_df (Some 2) (mkNode "b|.csv" ".csv" "bucket:b" 10))
    as [H _].
  apply H. vm_compute. tauto.
Defined.

(** *** Unique ids *)

Lemma sep_app_inj c : forall b b' e e',
  has_char c b = false -> has_char c b' = false ->
  (b ++ String c e)%string = (b' ++ String c e')%string ->
  b = b' /\ e = e'.
Proof.
  induction b as [|x b IH]; intros [|y b'] e e' Hb Hb' E; cbn in *.
  - now injection E.
  - injection E as <- _. rewrite Ascii.eqb_refl in Hb'. discriminate.
  - injection E as -> _. rewrite Ascii.eqb_refl in Hb. discriminate.
  - injection E as <- E.
    apply orb_false_iff in Hb as [_ Hb]. apply orb_false_iff in Hb' as [_ Hb'].
    destruct (IH _ _ _ Hb Hb' E) as [-> ->]. auto.
Qed.

Lemma NoDup_map_on {A B : Type} (f : A -> B) (l : list A) :
  (forall x y, In x l -> In y l -> f x = f y -> x = y) ->
  NoDup l -> NoDup (map f l).
Proof.
  intros Hinj H. induction H as [|x l Hx Hl IH]; cbn; constructor.
  - intros Hin. apply in_map_iff in Hin as (y & E & Hy).
    apply Hx. rewrite (Hinj x y); auto; [now left|now right].
  - apply IH. intros a b Ha Hb. apply Hinj; now right.
Qed.

Lemma NoDup_app_disjoint {A : Type} (l1 l2 : list A) :
  NoDup l1 -> NoDup l2 -> (forall x, In x l1 -> In x l2 -> False) ->
  NoDup (l1 ++ l2).
Proof.
  intros H1 H2 Hd. induction H1 as [|x l Hx Hl IH]; cbn; auto.
  constructor.
  - intros Hin. apply in_app_or in Hin as [Hin|Hin]; [tauto|].
    apply (Hd x); [now left|auto].
  - apply IH. intros y Hy. apply Hd. now right.
Qed.

Lemma sunburst_ids_unique root_label tbl :
  NoDup (map fst tbl) ->
  (forall row, In row tbl -> has_char "|" (fst (fst row)) = false) ->
  NoDup (map id (sunburst root_label tbl)).
Proof.
  intros Hkeys Hbar. rewrite sunburst_shape. cbn [map id]. rewrite map_app.
  assert (Hbk : forall b, In b (map fst (bucket_totals tbl)) ->
                          has_char "|" b = false).
  { intros b Hb. rewrite bucket_totals_keys in Hb.
    apply (group_keys_inv String.eqb String.leb String.eqb_eq) in Hb
      as (row & Hrow & [= <-]). auto. }
  assert (Eb : map id (map bucket_node (bucket_totals tbl))
               = map bucket_id (map fst (bucket_totals tbl)))
    by (now rewrite !map_map).
  assert (Ee : map id (map ext_node tbl)
               = map (fun k => (fst k ++ "|" ++ snd k)%string) (map fst tbl))
    by (now rewrite !map_map).
  rewrite Eb, Ee.
  assert (Hext : forall k, In k (map fst tbl) ->
                           has_char "|" (fst k ++ "|" ++ snd k) = true).
  { intros k _. rewrite has_char_app. cbn. apply orb_true_r. }
  constructor.
  - intros Hin. apply in_app_or in Hin as [Hin|Hin];
      apply in_map_iff in Hin as (x & E & Hx); [discriminate|].
    apply Hext in Hx. rewrite E in Hx. discriminate.
  - apply NoDup_app_disjoint.
    + apply NoDup_map_on; [intros x y _ _ [= E]; exact E|].
      rewrite bucket_totals_keys.
      apply (group_keys_nodup String.eqb String.leb String.eqb_eq).
    + apply NoDup_map_on; auto.
      intros [b e] [b' e'] Hx Hy E. cbn in E.
      apply in_map_iff in Hx as (rx & Ex & Hx).
      apply in_map_iff in Hy as (ry & Ey & Hy).
      apply Hbar in Hx. apply Hbar in Hy. rewrite Ex in Hx. rewrite Ey in Hy.
      cbn in Hx, Hy.
      destruct (sep_app_inj "|" b b' e e' Hx Hy E) as [-> ->]. reflexivity.
    + intros i H1 H2.
      apply in_map_iff in H1 as (b & E1 & Hb).
      apply in_map_iff in H2 as (k & E2 & Hk).
      apply Hbk in Hb. apply Hext in Hk. rewrite E2, <- E1 in Hk.
      unfold bucket_id in Hk. rewrite has_char_app, Hb in Hk. discriminate.
Qed.

Lemma collapse_keys top_n df tbl :
  NoDup (map fst tbl) ->
  (forall row, In row tbl -> has_char "|" (fst (fst row)) = false) ->
  NoDup (map fst (collapse top_n df tbl)) /\
  (forall row, In row (collapse top_n df tbl) ->
               has_char "|" (fst (fst row)) = false).
Proof.
  intros Hk Hbar. destruct top_n as [n|]; [|now split]. cbn [collapse]. split.
  - rewrite aggregate_keys. apply (group_keys_nodup eqb2 leb2 eqb2_eq).
  - intros [k v] Hrow.
    apply (aggregate_in eqb2 leb2) in Hrow as [Hin _].
    apply (group_keys_inv eqb2 leb2 eqb2_eq) in Hin as (r & Hr & [= <-]).
    apply in_map_iff in Hr as (r0 & <- & Hr0). cbn. auto.
Qed.

Lemma frame_table_keys (agg : list DfRow -> Z) df :
  (forall r b, In r df -> bucket_name r = Some b -> has_char "|" b = false) ->
  NoDup (map fst (aggregate agg (groupby eqb2 leb2 key_bucket_ext df))) /\
  (forall row, In row (aggregate agg (groupby eqb2 leb2 key_bucket_ext df)) ->
               has_char "|" (fst (fst row)) = false).
Proof.
  intros Hbar. split.
  - rewrite aggregate_keys. apply (group_keys_nodup eqb2 leb2 eqb2_eq).
  - intros [k v] Hrow.
    apply (aggregate_in eqb2 leb2) in Hrow as [Hin _].
    apply (group_keys_inv eqb2 leb2 eqb2_eq) in Hin as (r & Hr & E).
    unfold key_bucket_ext in E.
    destruct (bucket_name r) as [b|] eqn:Hb; [|discriminate].
    injection E as <-. cbn. eauto.
Qed.

(** X17 -- when no bucket name contains the character ['|'], the ids of
    each sunburst are pairwise different, for every frame and cutoff:
    the root, the bucket nodes and the extension nodes never share an
    id. *)
Theorem sunburst_ids_are_unique :
  forall df top_n,
    (forall r b, In r df -> bucket_name r = Some b -> has_char "|" b = false) ->
    NoDup (map id (sunburst_fig (cmd_visualize df top_n))) /\
    NoDup (map id (sunburst_bytes_fig (cmd_visualize df top_n))).
Proof.
  intros df top_n Hbar. unfold cmd_visualize; cbv zeta.
  cbn [sunburst_fig sunburst_bytes_fig].
  destruct (frame_table_keys size64 df Hbar) as [Hc1 Hc2].
  destruct (collapse_keys top_n df _ Hc1 Hc2) as [Hd1 Hd2].
  destruct (frame_table_keys bytes64 df Hbar) as [Hb1 Hb2].
  split; now apply sunburst_ids_unique.
Qed.

Lemma sunburst_ids_witness :
  NoDup (map id (sunburst_fig (cmd_visualize mixed_df (Some 2)))) /\
  NoDup (map id (sunburst_bytes_fig (cmd_visualize mixed_df (Some 2)))).
Proof.
  apply (sunburst_ids_are_unique mixed_df (Some 2)).
  intros r b Hr Hb.
  assert (H : Forall (fun r => bucket_name r = Some "b") mixed_df)
    by (repeat constructor).
  rewrite Forall_forall in H. rewrite (H r Hr) in Hb.
  injection Hb as <-. reflexivity.
Defined.

Example ids_clash_with_a_bar_in_a_bucket_name :
  map id (sunburst_fig (cmd_visualize clash_df None))
  = ["root"; "bucket:bucket:x"; "bucket:x|.y"; "bucket:x|.y"; "x|.y|<no_ext>"].
Proof. reflexivity. Qed.

(** *** The root of a sunburst and the rows without a bucket name *)

Lemma has_key_bucket_ext df :
  filter (has_key key_bucket_ext) df = filter has_bucket df.
Proof.
  apply filter_ext. intros r. unfold has_key, key_bucket_ext, has_bucket.
  now destruct (bucket_name r).
Qed.

Lemma collapse_total top_n df tbl :
  nonneg_on snd tbl -> total (map snd tbl) < 2 ^ 63 ->
  total (map snd (collapse top_n df tbl)) = total (map snd tbl).
Proof.
  intros Hn Hf. destruct top_n as [n|]; [|reflexivity]. cbn [collapse].
  set (relabelled := map _ tbl).
  assert (Hv : map snd relabelled = map snd tbl).
  { unfold relabelled. rewrite map_map. now apply map_ext. }
  assert (Hn' : nonneg_on snd relabelled).
  { unfold nonneg_on in *. rewrite Forall_forall in *. intros r Hr.
    apply in_map_iff in Hr as (r0 & <- & Hr0). cbn. auto. }
  rewrite (aggregate_total eqb2 leb2 eqb2_eq snd (fun r => Some (fst r))
                           sum_values relabelled).
  - rewrite filter_all by reflexivity. now rewrite Hv.
  - intros k. apply group_sum64; auto. now rewrite Hv.
Qed.

(** X18 -- rows without a bucket name are left out of the sunbursts but
    not of the Sankey figures.  Within the int64 range, the root of the
    count sunburst is the number of rows that have a bucket name and
    the root of the byte sunburst is the sum of their sizes, with or
    without a cutoff; the roots equal the Sankey totals when every row
    has a bucket name. *)
Theorem sunburst_roots_count_the_named_rows :
  forall df top_n,
    Z.of_nat (List.length df) < 2 ^ 63 ->
    Forall (fun r => 0 <= size_bytes r) df ->
    total (map size_bytes df) < 2 ^ 63 ->
    map value (firstn 1 (sunburst_fig (cmd_visualize df top_n)))
    = [Z.of_nat (List.length (filter has_bucket df))] /\
    map value (firstn 1 (sunburst_bytes_fig (cmd_visualize df top_n)))
    = [total (map size_bytes (filter has_bucket df))] /\
    (Forall (fun r => has_bucket r = true) df ->
     map value (firstn 1 (sunburst_fig (cmd_visualize df top_n)))
     = [total (link_value (sankey_fig (cmd_visualize df top_n)))] /\
     map value (firstn 1 (sunburst_bytes_fig (cmd_visualize df top_n)))
     = [total (link_value (sankey_bytes_fig (cmd_visualize df top_n)))]).
Proof.
  intros df top_n Hrows Hnn Hfit.
  unfold cmd_visualize; cbv zeta.
  cbn [sunburst_fig sunburst_bytes_fig sankey_fig sankey_bytes_fig sankey
       link_value].
  rewrite !sunburst_shape. cbn [firstn map value].
  destruct (counts_table_ok df Hrows) as [Hc1 Hc2].
  destruct (collapse_ok df top_n _ Hc1 Hc2) as [Hd1 Hd2].
  destruct (bytes_table_ok df Hnn Hfit) as [Hb1 Hb2].
  assert (Hcount : sum64 (map snd (collapse top_n df (counts_by_bucket_ext df)))
                   = Z.of_nat (List.length (filter has_bucket df))).
  { rewrite (metric_sum64 snd) by auto.
    rewrite collapse_total by auto. unfold counts_by_bucket_ext.
    rewrite (aggregate_total eqb2 leb2 eqb2_eq count_one key_bucket_ext size64
                             df (fun k => size64_exact df Hrows _)).
    rewrite has_key_bucket_ext. unfold count_one. apply total_ones. }
  assert (Hbytes : sum64 (map snd (aggregate bytes64
                                     (groupby eqb2 leb2 key_bucket_ext df)))
                   = total (map size_bytes (filter has_bucket df))).
  { rewrite (metric_sum64 snd) by auto.
    rewrite (aggregate_total eqb2 leb2 eqb2_eq size_bytes key_bucket_ext
                             bytes64 df
                             (fun k => bytes64_exact df Hnn Hfit _)).
    now rewrite has_key_bucket_ext. }
  rewrite Hcount, Hbytes. split; [reflexivity|]. split; [reflexivity|].
  intros Hall.
  rewrite (count_flow_total df Hrows), (byte_flow_total df Hnn Hfit).
  rewrite filter_all by (now apply Forall_forall). auto.
Qed.

Lemma sunburst_roots_witness :
  map value (firstn 1 (sunburst_fig
                         (cmd_visualize
                            (mixed_df ++ [mkDfRow None (Some "q.JSON") 7])
                            (Some 2))))
  = [Z.of_nat (List.length
                 (filter has_bucket
                         (mixed_df ++ [mkDfRow None (Some "q.JSON") 7])))] /\
  map value (firstn 1 (sunburst_bytes_fig
                         (cmd_visualize
                            (mixed_df ++ [mkDfRow None (Some "q.JSON") 7])
                            (Some 2))))
  = [total (map size_bytes
                (filter has_bucket
                        (mixed_df ++ [mkDfRow None (Some "q.JSON") 7])))].
Proof.
  destruct (sunburst_roots_count_the_named_rows
              (mixed_df ++ [mkDfRow None (Some "q.JSON") 7]) (Some 2))
    as (H1 & H2 & _).
  - vm_compute. reflexivity.
  - repeat constructor; vm_compute; discriminate.
  - vm_compute. reflexivity.
  - split; assumption.
Defined.

(** *** Labels do not depend on the case of the key *)

Lemma lower_char_dot a : Ascii.eqb (lower_char a) "." = Ascii.eqb a ".".
Proof. destruct a as [[] [] [] [] [] [] [] []]; reflexivity. Qed.

Lemma lower_char_sep a : Ascii.eqb (lower_char a) "/" = Ascii.eqb a "/".
Proof. destruct a as [[] [] [] [] [] [] [] []]; reflexivity. Qed.

Lemma lower_char_idem a : lower_char (lower_char a) = lower_char a.
Proof. destruct a as [[] [] [] [] [] [] [] []]; reflexivity. Qed.

Lemma lower_idem s : lower (lower s) = lower s.
Proof. induction s as [|a s IH]; cbn; [|rewrite lower_char_idem, IH]; auto. Qed.

Lemma lower_app a b : lower (a ++ b) = (lower a ++ lower b)%string.
Proof. induction a as [|x a IH]; cbn; [|rewrite IH]; auto. Qed.

Lemma length_lower s : String.length (lower s) = String.length s.
Proof. induction s as [|a s IH]; cbn; auto. Qed.

Lemma has_char_lower c s :
  (forall a, Ascii.eqb (lower_char a) c = Ascii.eqb a c) ->
  has_char c (lower s) = has_char c s.
Proof.
  intros Hc. induction s as [|a s IH]; cbn; auto. now rewrite Hc, IH.
Qed.

Lemma all_dots_lower s : all_char "." (lower s) = all_char "." s.
Proof.
  induction s as [|a s IH]; cbn; auto. now rewrite lower_char_dot, IH.
Qed.

Lemma rfind_lower c s :
  (forall a, Ascii.eqb (lower_char a) c = Ascii.eqb a c) ->
  rfind c (lower s) = rfind c s.
Proof.
  intros Hc. induction s as [|a s IH]; cbn; auto. now rewrite Hc, IH.
Qed.

Lemma drop_lower n : forall s, drop n (lower s) = lower (drop n s).
Proof. induction n as [|n IH]; intros [|a s]; cbn; auto. Qed.

Lemma basename_lower k : basename (lower k) = lower (basename k).
Proof.
  unfold basename, slice_from, slice_bound.
  rewrite (rfind_lower "/" k lower_char_sep), length_lower.
  apply drop_lower.
Qed.

Lemma splitext_lower_name base :
  has_char "/" base = false ->
  snd (splitext (lower base)) = lower (snd (splitext base)).
Proof.
  intros Hsep.
  assert (Hsep' : has_char "/" (lower base) = false)
    by (now rewrite (has_char_lower "/" base lower_char_sep)).
  destruct (has_char "." base) eqn:Hdot.
  - destruct (split_at_last "." base Hdot) as (pre & suf & E & Hsuf).
    rewrite (splitext_by_last_dot base pre suf Hsep E Hsuf).
    rewrite (splitext_by_last_dot (lower base) (lower pre) (lower suf) Hsep').
    + rewrite all_dots_lower. now destruct (all_char "." pre).
    + rewrite E, lower_app. reflexivity.
    + now rewrite (has_char_lower "." suf lower_char_dot).
  - rewrite (no_dot_no_ext base Hdot).
    apply no_dot_no_ext. now rewrite (has_char_lower "." base lower_char_dot).
Qed.

(** X19 -- for keys made of the characters U+0000..U+00FF, which are
    the strings of this development and on which [str.lower] works
    character by character, the label does not depend on the letter
    case of the key: a key and its lower-cased form get the same label,
    so such keys that differ only in case fall into the same group; and
    a label is itself in lower case.  Nothing is stated for keys with
    other characters, where lowering a string is not lowering its
    characters one by one. *)
Theorem get_ext_ignores_case_in_latin1 :
  forall k,
    get_ext (Some (lower k)) = get_ext (Some k) /\
    lower (get_ext (Some k)) = get_ext (Some k).
Proof.
  intros k. rewrite !get_ext_lowered_splitext.
  rewrite (splitext_extension_of_basename (lower k)), basename_lower.
  rewrite (splitext_lower_name _ (basename_has_no_sep k)).
  rewrite <- splitext_extension_of_basename, lower_idem.
  split; [reflexivity|].
  destruct (lower (snd (splitext k)) =? "")%string; [reflexivity|].
  apply lower_idem.
Qed.

Lemma lowered_extension_of_lower k :
  lower (snd (splitext (lower k))) = lower (snd (splitext k)).
Proof.
  rewrite (splitext_extension_of_basename (lower k)), basename_lower.
  rewrite (splitext_lower_name _ (basename_has_no_sep k)).
  now rewrite <- splitext_extension_of_basename, lower_idem.
Qed.

(** *** Sums modulo 2^64 *)

Lemma wrap64_add_r a b : wrap64 (a + wrap64 b) = wrap64 (a + b).
Proof.
  unfold wrap64. f_equal.
  replace (a + ((b + 2 ^ 63) mod 2 ^ 64 - 2 ^ 63) + 2 ^ 63)
    with (a + (b + 2 ^ 63) mod 2 ^ 64) by lia.
  rewrite Z.add_mod_idemp_r by lia. f_equal. lia.
Qed.

Lemma wrap64_add_l a b : wrap64 (wrap64 a + b) = wrap64 (a + b).
Proof. rewrite Z.add_comm, wrap64_add_r. f_equal. lia. Qed.

Lemma fold_add64_wrap : forall l a,
  fold_left add64 l (wrap64 a) = wrap64 (a + total l).
Proof.
  induction l as [|v l IH]; intros a; cbn [fold_left total].
  - f_equal. lia.
  - unfold add64 at 2. rewrite wrap64_add_l, IH. f_equal. lia.
Qed.

Lemma sum64_wrap l : sum64 l = wrap64 (total l).
Proof.
  unfold sum64. change 0 with (wrap64 0) at 1. apply fold_add64_wrap.
Qed.

Lemma wrap64_total_wrapped {A : Type} (x : A -> Z) (l : list A) :
  wrap64 (total (map (fun k => wrap64 (x k)) l)) = wrap64 (total (map x l)).
Proof.
  induction l as [|k l IH]; cbn [map total]; auto.
  rewrite wrap64_add_l, <- wrap64_add_r, IH, wrap64_add_r. reflexivity.
Qed.

Section Wrapped.
Context {R K : Type} (eqb : K -> K -> bool) (leb : K -> K -> bool).
Hypothesis eqb_eq : forall a b, eqb a b = true <-> a = b.
Variable f : R -> Z.
Variable key : R -> option K.
Variable agg : list R -> Z.
Variable rows : list R.
Hypothesis agg_wraps :
  forall k, agg (filter (in_group eqb key k) rows)
            = wrap64 (total (map f (filter (in_group eqb key k) rows))).

(** The wrapped sum of the aggregates is the wrapped sum of the metric
    over the rows that have a key. *)
Lemma aggregate_total64 :
  wrap64 (total (map snd (aggregate agg (groupby eqb leb key rows))))
  = wrap64 (total (map f (filter (has_key key) rows))).
Proof.
  rewrite aggregate_values, (map_ext _ _ agg_wraps).
  rewrite (wrap64_total_wrapped
             (fun k => total (map f (filter (in_group eqb key k) rows)))).
  f_equal. apply (group_total eqb leb eqb_eq);
    [apply (group_keys_nodup eqb leb eqb_eq)|].
  intros r k. apply (group_keys_cover eqb leb eqb_eq).
Qed.

End Wrapped.

Lemma tree_sums64_sunburst root_label tbl :
  tree_sums64 (sunburst root_label tbl).
Proof.
  split.
  - eexists _, _. split; [apply sunburst_shape|]. cbn [value].
    rewrite sunburst_children_root, sunburst_leaves, !map_map.
    change (map (fun x => value (bucket_node x)) (bucket_totals tbl))
      with (map snd (bucket_totals tbl)).
    change (map (fun x => value (ext_node x)) tbl) with (map snd tbl).
    split; [|apply sum64_wrap].
    unfold bucket_totals.
    rewrite (aggregate_total64 String.eqb String.leb String.eqb_eq snd
                               key_bucket sum_values tbl
                               (fun k => sum64_wrap _)).
    rewrite filter_all by reflexivity. apply sum64_wrap.
  - intros b Hb. rewrite sunburst_children_root in Hb.
    apply in_map_iff in Hb as ([k v] & <- & Hkv).
    cbn [id value bucket_node fst snd].
    apply (aggregate_in String.eqb String.leb key_bucket sum_values tbl) in Hkv
      as [_ ->].
    rewrite sunburst_children_bucket, map_map.
    change (map (fun x => value (ext_node x))
                (filter (in_group String.eqb key_bucket k) tbl))
      with (map snd (filter (in_group String.eqb key_bucket k) tbl)).
    apply sum64_wrap.
Qed.

(** X24 -- without any bound on the frame, the sums of the four figures
    hold modulo 2^64: in both sunbursts every parent carries the int64
    (wrapped) sum of its children, and the wrapped sum of the links is
    the wrapped number of rows in the count Sankey and the total given
    to the figure in the byte Sankey. *)
Theorem figure_sums_hold_modulo_2_64 :
  forall df top_n,
    tree_sums64 (sunburst_fig (cmd_visualize df top_n)) /\
    tree_sums64 (sunburst_bytes_fig (cmd_visualize df top_n)) /\
    wrap64 (total (link_value (sankey_fig (cmd_visualize df top_n))))
    = wrap64 (Z.of_nat (List.length df)) /\
    wrap64 (total (link_value (sankey_bytes_fig (cmd_visualize df top_n))))
    = sankey_bytes_total (cmd_visualize df top_n).
Proof.
  intros df top_n. unfold cmd_visualize; cbv zeta.
  cbn [sunburst_fig sunburst_bytes_fig sankey_fig sankey_bytes_fig
       sankey_bytes_total sankey link_value].
  split; [apply tree_sums64_sunburst|]. split; [apply tree_sums64_sunburst|].
  rewrite !sorted_total. split.
  - unfold counts_by_ext.
    rewrite (aggregate_total64 String.eqb String.leb String.eqb_eq count_one
                               key_ext size64 df).
    + rewrite filter_all by reflexivity. unfold count_one.
      now rewrite total_ones.
    + intros k. unfold size64, count_one. now rewrite total_ones.
  - rewrite (aggregate_total64 String.eqb String.leb String.eqb_eq size_bytes
                               key_ext bytes64 df (fun k => sum64_wrap _)).
    rewrite filter_all by reflexivity. symmetry. apply sum64_wrap.
Qed.

End AggregatorMore.


(* ================================================================== *)
(** * The command line, the namespace and the order of the buckets *)

Module MainFacts.
Import PyStr Xml XmlText Cli Crawler Samples.

(** *** [strip] *)

Lemma lstrip_head s :
  lstrip s = EmptyString \/
  exists c t, lstrip s = String c t /\ is_space c = false.
Proof.
  induction s as [|a s IH]; cbn; [now left|].
  destruct (is_space a) eqn:E; [exact IH|right; eauto].
Qed.

Lemma rstrip_idem s : rstrip (rstrip s) = rstrip s.
Proof.
  induction s as [|c s IH]; cbn; auto.
  destruct (rstrip s) as [|d r] eqn:E.
  - destruct (is_space c) eqn:Ec; cbn; [reflexivity|now rewrite Ec].
  - cbn [rstrip] in IH |- *. now rewrite IH.
Qed.

Lemma rstrip_head c t :
  is_space c = false -> exists r, rstrip (String c t) = String c r.
Proof.
  intros Hc. cbn. destruct (rstrip t); [rewrite Hc|]; eauto.
Qed.

Lemma strip_idem s : strip (strip s) = strip s.
Proof.
  unfold strip.
  destruct (lstrip_head s) as [->|(c & t & -> & Hc)]; [reflexivity|].
  destruct (rstrip_head c t Hc) as [r Hr]. rewrite Hr.
  cbn [lstrip]. rewrite Hc, <- Hr. apply rstrip_idem.
Qed.

Lemma has_char_lstrip_sub c s :
  has_char c (lstrip s) = true -> has_char c s = true.
Proof.
  induction s as [|a s IH]; cbn; auto.
  destruct (is_space a); [|now cbn].
  intros H. rewrite (IH H). apply orb_true_r.
Qed.

Lemma has_char_rstrip_sub c s :
  has_char c (rstrip s) = true -> has_char c s = true.
Proof.
  induction s as [|a s IH]; cbn; auto.
  destruct (rstrip s) as [|d r].
  - destruct (is_space a); cbn; [discriminate|].
    rewrite orb_false_r. now intros ->.
  - cbn [has_char] in *. intros H.
    apply orb_true_iff in H as [->|H]; [reflexivity|].
    rewrite (IH H). apply orb_true_r.
Qed.

Lemma has_char_strip_sub c s :
  has_char c (strip s) = true -> has_char c s = true.
Proof.
  intros H. now apply has_char_lstrip_sub, has_char_rstrip_sub.
Qed.

(** *** [split] and [join] *)

Lemma split_head c rest : forall x,
  has_char c x = false -> split c (x ++ String c rest) = x :: split c rest.
Proof.
  induction x as [|a x IH]; cbn.
  - now rewrite Ascii.eqb_refl.
  - intros H. apply orb_false_iff in H as [Ha Hx]. now rewrite Ha, (IH Hx).
Qed.

Lemma split_concat : forall l,
  l <> [] -> Forall (fun b => has_char "," b = false) l ->
  split "," (String.concat "," l) = l.
Proof.
  induction l as [|x l IH]; intros Hne F; [congruence|].
  inversion F as [|? ? Hx Hl]; subst.
  destruct l as [|y l'].
  - cbn. now apply CrawlerMore.split_single.
  - change (String.concat "," (x :: y :: l'))
      with (x ++ String "," (String.concat "," (y :: l')))%string.
    rewrite (split_head _ _ _ Hx), IH; auto. discriminate.
Qed.

(** X20 -- the bucket list of the command line.  Every bucket that
    [main] hands to [cmd_fetch] is non-empty, has no white space around
    it and contains no comma; and a list of such URLs joined with
    commas, as the default of the option is, is read back as it was. *)
Theorem parse_buckets_gives_clean_urls_and_reads_a_join_back :
  (forall arg b,
      In b (parse_buckets arg) ->
      b <> "" /\ strip b = b /\ has_char "," b = false) /\
  (forall l,
      Forall (fun b => b <> "" /\ strip b = b /\ has_char "," b = false) l ->
      parse_buckets (String.concat "," l) = l).
Proof.
  split.
  - intros arg b H. unfold parse_buckets in H.
    apply in_map_iff in H as (x & <- & Hx).
    apply filter_In in Hx as [Hx Hne].
    split; [|split].
    + apply negb_true_iff in Hne. now apply String.eqb_neq in Hne.
    + apply strip_idem.
    + destruct (has_char "," (strip x)) eqn:E; auto.
      apply has_char_strip_sub in E.
      pose proof (CrawlerMore.split_parts "," arg) as F.
      rewrite Forall_forall in F. now rewrite (F x Hx) in E.
  - intros l F. destruct l as [|x l]; [reflexivity|].
    unfold parse_buckets. rewrite split_concat; [|discriminate|].
    + rewrite AggregatorFacts.filter_all.
      * rewrite <- (map_id (x :: l)) at 2. apply map_ext_in.
        intros b Hb. rewrite Forall_forall in F. now apply F.
      * intros b Hb. rewrite Forall_forall in F.
        destruct (F b Hb) as (Hne & Hs & _). rewrite Hs.
        apply negb_true_iff. now apply String.eqb_neq.
    + eapply Forall_impl; [|exact F]. now intros b (_ & _ & H).
Qed.

Lemma parse_buckets_witness : parse_buckets default_buckets_arg = DEFAULT_BUCKETS.
Proof.
  destruct parse_buckets_gives_clean_urls_and_reads_a_join_back as [_ H].
  apply (H DEFAULT_BUCKETS).
  repeat constructor; discriminate.
Defined.

(** *** The namespace declaration *)

Lemma contains_step sub c s :
  contains sub (String c s) = String.prefix sub (String c s) || contains sub s.
Proof. reflexivity. Qed.

Lemma contains_prefix sub s : String.prefix sub s = true -> contains sub s = true.
Proof. intros H. destruct s; cbn [contains]; now rewrite H. Qed.

Lemma prefix_app lit x : String.prefix lit (lit ++ x) = true.
Proof.
  induction lit as [|a lit IH]; cbn; [now destruct x|].
  destruct (ascii_dec a a); [exact IH|congruence].
Qed.

(** A literal without white space that starts before a white space
    ends before it. *)
Lemma prefix_before_space ws rest : forall lit t,
  Forall (fun a => is_space a = false) (list_ascii_of_string lit) ->
  is_space ws = true ->
  String.prefix lit (t ++ String ws rest) = true ->
  String.prefix lit t = true.
Proof.
  induction lit as [|a lit IH]; intros t F Hws H; [now destruct t|].
  cbn in F. inversion F as [|? ? Ha F']; subst.
  destruct t as [|b t]; cbn in H |- *.
  - destruct (ascii_dec a ws); [congruence|discriminate].
  - destruct (ascii_dec a b); [eauto|discriminate].
Qed.

Lemma after_quote_value post : forall v,
  has_char quote v = false -> after_quote (v ++ String quote post) = Some post.
Proof.
  induction v as [|a v IH]; cbn [append after_quote has_char].
  - now rewrite Ascii.eqb_refl.
  - intros H. apply orb_false_iff in H as [Ha Hv]. now rewrite Ha, IH.
Qed.

Lemma attr_value_value v post :
  v <> "" -> has_char quote v = false ->
  attr_value (v ++ String quote post) = Some post.
Proof.
  intros Hne H. destruct v as [|a v]; [congruence|].
  cbn [append attr_value has_char] in H |- *.
  apply orb_false_iff in H as [Ha Hv].
  rewrite Ha. now apply after_quote_value.
Qed.

Lemma xmlns_eq_has_no_space :
  Forall (fun a => is_space a = false) (list_ascii_of_string xmlns_eq).
Proof. repeat constructor. Qed.

Lemma no_match_without_literal s :
  contains xmlns_eq s = false -> match_xmlns s = None.
Proof.
  destruct s as [|c s]; [reflexivity|]. rewrite contains_step.
  intros H. apply orb_false_iff in H as [_ H]. cbn [match_xmlns].
  destruct (String.prefix xmlns_eq s) eqn:E.
  - apply contains_prefix in E. congruence.
  - now rewrite andb_false_r.
Qed.

(** X21 -- what [_strip_s3_xml_namespace] removes.  A text without the
    literal [xmlns=] followed by a double quote is returned as it is.
    In a text where that literal first occurs in a declaration (a white
    space, the literal, a non-empty value without a quote, the closing
    quote), exactly this declaration and its leading white space are
    removed: what comes before and what comes after are kept as they
    are, a second declaration included. *)
Theorem strip_namespace_removes_the_first_declaration_only :
  (forall s, contains xmlns_eq s = false -> _strip_s3_xml_namespace s = s) /\
  (forall pre ws v post,
      contains xmlns_eq pre = false -> is_space ws = true ->
      v <> "" -> has_char quote v = false ->
      _strip_s3_xml_namespace
        (pre ++ String ws (xmlns_eq ++ v ++ String quote post))
      = (pre ++ post)%string).
Proof.
  split.
  - induction s as [|c s IH]; intros H; [reflexivity|].
    cbn [_strip_s3_xml_namespace]. rewrite (no_match_without_literal _ H).
    rewrite contains_step in H. apply orb_false_iff in H as [_ H].
    now rewrite (IH H).
  - intros pre ws v post Hpre Hws Hne Hv.
    induction pre as [|a pre IH].
    + cbn [append _strip_s3_xml_namespace match_xmlns].
      rewrite Hws, prefix_app, AggregatorFacts.drop_app_length.
      cbn [andb]. now rewrite (attr_value_value v post Hne Hv).
    + rewrite contains_step in Hpre. apply orb_false_iff in Hpre as [_ Hpre].
      cbn [append _strip_s3_xml_namespace].
      assert (Hno : match_xmlns
                      (String a (pre ++ String ws
                                   (xmlns_eq ++ v ++ String quote post)))
                    = None).
      { cbn [match_xmlns].
        destruct (String.prefix xmlns_eq
                    (pre ++ String ws (xmlns_eq ++ v ++ String quote post)))
          eqn:E; [|now rewrite andb_false_r].
        apply (prefix_before_space ws _ xmlns_eq pre xmlns_eq_has_no_space Hws)
          in E.
        apply contains_prefix in E. congruence. }
      rewrite Hno. now rewrite (IH Hpre).
Qed.

Lemma strip_namespace_witness :
  _strip_s3_xml_namespace
    ("<ListBucketResult"
     ++ String " " (xmlns_eq ++ "http://s3.amazonaws.com/doc/2006-03-01/"
                    ++ String quote "><Name>b</Name></ListBucketResult>"))
  = ("<ListBucketResult" ++ "><Name>b</Name></ListBucketResult>")%string.
Proof.
  destruct strip_namespace_removes_the_first_declaration_only as [_ H].
  apply (H "<ListBucketResult" " "%char
           "http://s3.amazonaws.com/doc/2006-03-01/"
           "><Name>b</Name></ListBucketResult>");
    [reflexivity|reflexivity|discriminate|reflexivity].
Defined.

(** *** The order of the buckets *)

Lemma started_app l l' : started (l ++ l') = started l ++ started l'.
Proof.
  induction l as [|r l IH]; [reflexivity|].
  destruct r; cbn; rewrite IH; reflexivity.
Qed.

Lemma started_logger r s :
  (forall url, r <> InfoStartingBucket url) ->
  started (log (logger r s)) = started (log s).
Proof.
  intros H. cbn [logger log]. rewrite started_app.
  destruct r; cbn; try apply app_nil_r. now destruct (H url).
Qed.

Lemma paginate_started url mp root contents s :
  started (log (step_state (paginate url mp root contents s)))
  = started (log s).
Proof.
  unfold paginate; cbv zeta.
  destruct (is_truncated root) as [[|]|]; cbn [step_state];
    [|now rewrite started_logger by discriminate|reflexivity].
  destruct (next_marker root contents) as [m|]; cbn [step_state];
    [|now rewrite started_logger by discriminate].
  destruct mp as [m'|]; [|reflexivity].
  destruct (m' <=? _); cbn [step_state]; [|reflexivity].
  now rewrite started_logger by discriminate.
Qed.

Lemma loop_body_started session url name mp s :
  started (log (step_state (loop_body session url name mp s)))
  = started (log s).
Proof.
  unfold loop_body; cbv zeta.
  destruct (session _ _); cbn [step_state];
    try (now rewrite started_logger by discriminate).
  rewrite paginate_started.
  match goal with |- context [fold_left ?f ?c ?st] =>
    destruct (CrawlerFacts.fold_process_frame url name c st)
      as (_ & -> & _) end.
  now rewrite started_logger by discriminate.
Qed.

Lemma while_true_started fuel session url name mp : forall s,
  started (log (state_of (while_true fuel session url name mp s)))
  = started (log s).
Proof.
  induction fuel as [|f IH]; intros s; [reflexivity|]. cbn [while_true].
  pose proof (loop_body_started session url name mp s) as H.
  destruct (loop_body session url name mp s) as [s'|s'|e s'];
    cbn [step_state state_of] in *; [|exact H|exact H].
  now rewrite IH.
Qed.

Lemma log_skipped_started name s :
  started (log (log_skipped name s)) = started (log s).
Proof.
  unfold log_skipped.
  destruct (skipped_envidat1 s =? 0);
    match goal with |- context [if ?b then _ else _] => destruct b end;
    rewrite ?started_logger by discriminate; reflexivity.
Qed.

Lemma bucket_started fuel url session mp s :
  started (log (state_of (list_s3_bucket_to_csv fuel url session mp s)))
  = started (log s) ++ [url].
Proof.
  unfold list_s3_bucket_to_csv; cbv zeta.
  set (s0 := set_skipped_doi_meta 0 _).
  assert (E0 : started (log s0) = started (log s) ++ [url]).
  { subst s0. cbn [log set_skipped_doi_meta set_skipped_envidat1
                   set_page_count set_marker logger].
    now rewrite started_app. }
  pose proof (while_true_started fuel session url (bucket_name_of url) mp s0)
    as H.
  destruct (while_true fuel session url (bucket_name_of url) mp s0)
    as [s1|e s1|s1]; cbn [state_of] in *; try congruence.
  rewrite started_logger by discriminate.
  rewrite log_skipped_started. congruence.
Qed.

Lemma for_buckets_started fuel session mp buckets : forall s,
  (forall s', for_buckets fuel buckets session mp s = Returned s' ->
              started (log s') = started (log s) ++ buckets) /\
  exists n,
    started (log (state_of (for_buckets fuel buckets session mp s)))
    = started (log s) ++ firstn n buckets.
Proof.
  induction buckets as [|b bs IH]; intros s; cbn [for_buckets].
  - split.
    + intros s' [= <-]. now rewrite app_nil_r.
    + exists 0%nat. cbn. now rewrite app_nil_r.
  - pose proof (bucket_started fuel b session mp s) as Hb.
    destruct (list_s3_bucket_to_csv fuel b session mp s) as [s1|e s1|s1];
      cbn [state_of] in *.
    + destruct (IH s1) as [Hret [n Hn]]. split.
      * intros s' H. rewrite (Hret s' H), Hb, <- app_assoc. reflexivity.
      * exists (S n). rewrite Hn, Hb, <- app_assoc. reflexivity.
    + split; [discriminate|]. exists 1%nat. exact Hb.
    + split; [discriminate|]. exists 1%nat. exact Hb.
Qed.

Lemma for_buckets_app fuel session mp first second : forall s,
  for_buckets fuel (first ++ second) session mp s
  = match for_buckets fuel first session mp s with
    | Returned s' => for_buckets fuel second session mp s'
    | other => other
    end.
Proof.
  induction first as [|b bs IH]; intros s; cbn [app for_buckets]; auto.
  destruct (list_s3_bucket_to_csv fuel b session mp s); auto.
Qed.

(** X22 -- [cmd_fetch] crawls its buckets strictly one after the other.
    Crawling a list of buckets followed by a second list is crawling
    the first list and, only if that returns, the second list from the
    state reached.  When the crawl of one bucket does not return, the
    whole run ends as that crawl ends and in the state it left: no
    bucket after it is touched, and [cmd_fetch] raises what the bucket
    raised.  The [Starting bucket] records of the log are the buckets in
    the order given, all of them when the run returns, and a first part
    of them otherwise. *)
Theorem buckets_are_crawled_in_order :
  forall fuel session max_pages first second s,
    for_buckets fuel (first ++ second) session max_pages s
    = match for_buckets fuel first session max_pages s with
      | Returned s' => for_buckets fuel second session max_pages s'
      | other => other
      end /\
    (forall b s1,
        for_buckets fuel first session max_pages s = Returned s1 ->
        match list_s3_bucket_to_csv fuel b session max_pages s1 with
        | Returned s2 =>
            for_buckets fuel (first ++ b :: second) session max_pages s
            = for_buckets fuel second session max_pages s2
        | other =>
            for_buckets fuel (first ++ b :: second) session max_pages s = other
        end) /\
    (forall b s1 e s2,
        for_buckets fuel first session max_pages (writeheader initial)
        = Returned s1 ->
        list_s3_bucket_to_csv fuel b session max_pages s1 = Raised e s2 ->
        cmd_fetch fuel (first ++ b :: second) session max_pages
        = Raised e s2) /\
    (forall s',
        for_buckets fuel first session max_pages s = Returned s' ->
        started (log s') = started (log s) ++ first) /\
    (exists n,
        started (log (state_of (for_buckets fuel first session max_pages s)))
        = started (log s) ++ firstn n first).
Proof.
  intros fuel session mp first second s.
  split; [apply for_buckets_app|]. split; [|split].
  - intros b s1 H1. rewrite for_buckets_app, H1. cbn [for_buckets].
    now destruct (list_s3_bucket_to_csv fuel b session mp s1).
  - intros b s1 e s2 H1 H2. unfold cmd_fetch.
    rewrite for_buckets_app, H1. cbn [for_buckets]. now rewrite H2.
  - apply for_buckets_started.
Qed.

Lemma buckets_in_order_witness :
  cmd_fetch 3 ([] ++ cloud_url :: [doi_url]) unreachable None
  = Raised RequestException
      (state_of (list_s3_bucket_to_csv 3 cloud_url unreachable None
                                       (writeheader initial))) /\
  requests (state_of (list_s3_bucket_to_csv 3 cloud_url unreachable None
                                            (writeheader initial)))
  = [(cloud_url, None)].
Proof.
  split; [|reflexivity].
  destruct (buckets_are_crawled_in_order 3 unreachable None [] [doi_url]
                                         initial) as (_ & _ & H & _).
  apply (H cloud_url (writeheader initial)); reflexivity.
Defined.

(** *** Filtering ignores case *)

(** X23 -- both filtering rules look at the key with its case ignored:
    an entry is dropped under a rule exactly when the entry with the
    lower-cased key would be. *)
Theorem filtering_ignores_case :
  forall name k,
    rule_envidat1 (Some (lower k)) = rule_envidat1 (Some k) /\
    rule_doi_meta name (Some (lower k)) = rule_doi_meta name (Some k).
Proof.
  intros name k. split.
  - unfold rule_envidat1. now rewrite AggregatorMore.lower_idem.
  - unfold rule_doi_meta. destruct (name =? "envidat-doi")%string; auto.
    cbv zeta. now rewrite AggregatorMore.lowered_extension_of_lower.
Qed.

End MainFacts.
